(** * SelfRadio: playlist generator, scheduler, duration analyzer, weather
      service and broadcast engines, embedded from the JavaScript sources.

    JavaScript objects are mutable and passed by reference, so the playlist
    generator is modelled over an explicit object store: an item reference is
    an index into [heap], a catalog draw allocates a fresh copy
    ([{ ...array[i] }] in [AudioLibrary.getRandomFrom]) and the builders
    update the store in place.  [Math.random()] and [Date.now()] are read
    from an oracle, one value per call, in call order.  The arithmetic of
    the duration analyzer is that of binary64 numbers ([Double]). *)

From Stdlib Require Import ZArith NArith QArith Qround Qabs Qpower.
From Stdlib Require Import String Ascii List Lia Lqa.
From stdpp Require Import base option list gmap strings.
Import ListNotations.

Local Open Scope Z_scope.

(** ** JavaScript primitives *)

Module JS.

(** A result of [Math.random()]: a number in [0, 1), kept as an exact
    fraction [dnum / dden] (every double is such a fraction). *)
Record Draw : Type := mkDraw {
  dnum : N;
  dden : N;
  dnum_lt_dden : (dnum < dden)%N
}.

(** [Math.floor(r * n)] for a draw [r] and a natural number [n]. *)
Definition floor_mul (r : Draw) (n : N) : N := (dnum r * n / dden r)%N.

(** [r < p / q] for a draw [r]; the thresholds of the source are the
    decimal literals 0.1, 0.15, 0.3 and 0.4. *)
Definition lt_frac (r : Draw) (p q : N) : bool := (dnum r * q <? p * dden r)%N.

(** The oracle behind the two impure primitives. *)
Record World : Type := mkWorld {
  random : nat -> Draw;
  dateNow : nat -> Z
}.

(** [String.prototype.toLowerCase] on ASCII text. *)
Definition lower_ascii (c : ascii) : ascii :=
  let n := nat_of_ascii c in
  if andb (65 <=? n)%nat (n <=? 90)%nat then ascii_of_nat (n + 32) else c.

Fixpoint toLowerCase (s : string) : string :=
  match s with
  | EmptyString => EmptyString
  | String c s' => String (lower_ascii c) (toLowerCase s')
  end.

(** [s.includes(sub)]: [sub] occurs in [s] as a contiguous substring. *)
Fixpoint includes (s sub : string) : bool :=
  if String.prefix sub s then true
  else match s with
       | EmptyString => false
       | String _ s' => includes s' sub
       end.

(** [Array.prototype.includes] on an array of strings. *)
Definition array_includes (l : list string) (x : string) : bool :=
  existsb (String.eqb x) l.

End JS.

(** ** Data model *)

(** The keys of the nested catalog pools. *)
Inductive TimeOfDay : Type := MORNING | AFTERNOON | EVENING | NIGHT.
Inductive WeatherType : Type := SUN | WIND | RAIN | FOG | CLOUDY.
Inductive TransitionType : Type := TO_AD | TO_WEATHER | TO_MUSIC.

(** The weather snapshot; only [condition] is consumed by the generator. *)
Record WeatherData : Type := mkWeather {
  condition : string;
  description : string
}.

(** An audio item object.  Fields that are absent or [null] on some items
    are options; the three gapless flags are [false] while unset;
    [needsReencoding] is [streamingInfo?.needsReencoding]. *)
Record AudioItem : Type := mkItem {
  path : option string;
  title : string;
  artist : option string;
  type : string;
  duration : Z;
  startTime : option Z;
  isGaplessStart : bool;
  isGaplessEnd : bool;
  isGapless : bool;
  item_timeOfDay : option TimeOfDay;
  weatherInfo : option WeatherData;
  needsReencoding : bool
}.

Definition set_startTime (t : Z) (o : AudioItem) : AudioItem :=
  mkItem (path o) (title o) (artist o) (type o) (duration o) (Some t)
         (isGaplessStart o) (isGaplessEnd o) (isGapless o)
         (item_timeOfDay o) (weatherInfo o) (needsReencoding o).

Definition set_isGaplessStart (o : AudioItem) : AudioItem :=
  mkItem (path o) (title o) (artist o) (type o) (duration o) (startTime o)
         true (isGaplessEnd o) (isGapless o)
         (item_timeOfDay o) (weatherInfo o) (needsReencoding o).

Definition set_isGaplessEnd (o : AudioItem) : AudioItem :=
  mkItem (path o) (title o) (artist o) (type o) (duration o) (startTime o)
         (isGaplessStart o) true (isGapless o)
         (item_timeOfDay o) (weatherInfo o) (needsReencoding o).

Definition set_isGapless (o : AudioItem) : AudioItem :=
  mkItem (path o) (title o) (artist o) (type o) (duration o) (startTime o)
         (isGaplessStart o) (isGaplessEnd o) true
         (item_timeOfDay o) (weatherInfo o) (needsReencoding o).

Definition set_timeOfDay (b : TimeOfDay) (o : AudioItem) : AudioItem :=
  mkItem (path o) (title o) (artist o) (type o) (duration o) (startTime o)
         (isGaplessStart o) (isGaplessEnd o) (isGapless o)
         (Some b) (weatherInfo o) (needsReencoding o).

Definition set_weatherInfo (w : WeatherData) (o : AudioItem) : AudioItem :=
  mkItem (path o) (title o) (artist o) (type o) (duration o) (startTime o)
         (isGaplessStart o) (isGaplessEnd o) (isGapless o)
         (item_timeOfDay o) (Some w) (needsReencoding o).

#[global] Instance AudioItem_inhabited : Inhabited AudioItem :=
  populate (mkItem None EmptyString None EmptyString 0 None
                   false false false None None false).

(** [AudioLibrary.library]: the pools, filled once by the scan. *)
Record Library : Type := mkLibrary {
  music : list AudioItem;
  jingles : list AudioItem;
  ads : list AudioItem;
  intros : list AudioItem;
  outros : list AudioItem;
  solos : list AudioItem;
  ids : list AudioItem;
  timeOfDay : TimeOfDay -> list AudioItem;
  weather : WeatherType -> list AudioItem;
  transitions : TransitionType -> list AudioItem
}.

(** ** PlaylistGenerator (with the catalog accessors it calls) *)

Module PlaylistGenerator.
Import JS.

(** A reference to an item object: its index in the store. *)
Abbreviation ref := nat (only parsing).

Record State : Type := mkState {
  heap : list AudioItem;
  lastPlayedMusic : list string;
  randomCalls : nat;
  dateCalls : nat
}.

Definition maxHistorySize : nat := 20.

(** Computations of the generator: they read and update the state, and
    yield [None] when the call depth granted to [createMusic] runs out. *)
Definition Gen (A : Type) : Type := State -> option (A * State).

Definition ret {A} (a : A) : Gen A := fun st => Some (a, st).

Definition bind {A B} (c : Gen A) (k : A -> Gen B) : Gen B :=
  fun st => match c st with
            | Some (a, st') => k a st'
            | None => None
            end.

Definition exhausted {A} : Gen A := fun _ => None.

Notation "x <~ c ;; k" := (bind c (fun x => k))
  (at level 100, c at next level, right associativity).
Notation "c ;;; k" := (bind c (fun _ => k))
  (at level 100, right associativity).

(** The object literal of [createFallbackItem]. *)
Definition fallbackItem (now : Z) : AudioItem :=
  mkItem None "Radio Station" (Some "On Air"%string) "station-id"
         5000 (Some now) false false false None None false.

Section Generator.
Variable w : World.
Variable lib : Library.

Definition Math_random : Gen Draw :=
  fun st => Some (random w (randomCalls st),
                  mkState (heap st) (lastPlayedMusic st)
                          (S (randomCalls st)) (dateCalls st)).

Definition Date_now : Gen Z :=
  fun st => Some (dateNow w (dateCalls st),
                  mkState (heap st) (lastPlayedMusic st)
                          (randomCalls st) (S (dateCalls st))).

(** Object store: allocation of a fresh object, field reads, in-place
    update. *)
Definition alloc (o : AudioItem) : Gen ref :=
  fun st => Some (length (heap st),
                  mkState (heap st ++ [o]) (lastPlayedMusic st)
                          (randomCalls st) (dateCalls st)).

Definition load (r : ref) : Gen AudioItem :=
  fun st => Some (heap st !!! r, st).

Definition update (r : ref) (f : AudioItem -> AudioItem) : Gen unit :=
  fun st => Some (tt, mkState (alter f r (heap st)) (lastPlayedMusic st)
                              (randomCalls st) (dateCalls st)).

(** [AudioLibrary.getRandomFrom]: [null] on an empty pool, otherwise a
    shallow copy of the element at [Math.floor(Math.random() * length)]. *)
Definition getRandomFrom (array : list AudioItem) : Gen (option ref) :=
  match array with
  | [] => ret None
  | first :: _ =>
      r <~ Math_random ;;
      let i := N.to_nat (floor_mul r (N.of_nat (length array))) in
      copy <~ alloc (nth i array first) ;;
      ret (Some copy)
  end.

Definition getRandomMusic := getRandomFrom (music lib).
Definition getRandomJingle := getRandomFrom (jingles lib).
Definition getRandomDJTime (b : TimeOfDay) := getRandomFrom (timeOfDay lib b).
Definition getRandomDJWeather (t : WeatherType) := getRandomFrom (weather lib t).
Definition getRandomDJTransition (t : TransitionType) :=
  getRandomFrom (transitions lib t).
Definition getRandomDJIntro := getRandomFrom (intros lib).
Definition getRandomDJOutro := getRandomFrom (outros lib).
Definition getRandomDJSolo := getRandomFrom (solos lib).
Definition getRandomDJID := getRandomFrom (ids lib).
Definition getRandomAd := getRandomFrom (ads lib).

Definition createFallbackItem : Gen ref :=
  now <~ Date_now ;;
  alloc (fallbackItem now).

Definition wasRecentlyPlayed (t : string) : Gen bool :=
  fun st => Some (array_includes (lastPlayedMusic st) t, st).

Definition addToHistory (t : string) : Gen unit :=
  fun st =>
    let pushed := lastPlayedMusic st ++ [t] in
    let kept := if (maxHistorySize <? length pushed)%nat
                then tail pushed else pushed in
    Some (tt, mkState (heap st) kept (randomCalls st) (dateCalls st)).

(** [createMusic] calls itself while the drawn title is in the history;
    [depth] bounds the number of nested calls. *)
Fixpoint createMusic (depth : nat) : Gen ref :=
  match depth with
  | O => exhausted
  | S depth' =>
      m <~ getRandomMusic ;;
      match m with
      | None => createFallbackItem
      | Some music =>
          o <~ load music ;;
          recent <~ wasRecentlyPlayed (title o) ;;
          if recent then createMusic depth'
          else
            addToHistory (title o) ;;;
            now <~ Date_now ;;
            update music (set_startTime now) ;;;
            ret music
      end
  end.

(** The [forEach] of [createGaplessSequence], with its running
    [currentTime]. *)
Fixpoint setConsecutiveTiming (items : list ref) (currentTime : Z) : Gen unit :=
  match items with
  | [] => ret tt
  | item :: rest =>
      update item (set_startTime currentTime) ;;;
      update item set_isGapless ;;;
      o <~ load item ;;
      setConsecutiveTiming rest (currentTime + duration o)
  end.

Definition createGaplessSequence (items : list ref) : Gen (list ref) :=
  if (length items <=? 1)%nat then ret items
  else
    update (nth 0 items 0%nat) set_isGaplessStart ;;;
    update (nth (length items - 1) items 0%nat) set_isGaplessEnd ;;;
    now <~ Date_now ;;
    setConsecutiveTiming items now ;;;
    ret items.

Inductive ContentType : Type :=
  | music_with_intro | music_with_outro | music_solo
  | dj_solo | jingle | station_id.

Definition determineContentType (position : nat) : Gen ContentType :=
  rand <~ Math_random ;;
  forced <~ (if (0 <? position)%nat
             then r <~ Math_random ;;
                  ret (position mod (5 + N.to_nat (floor_mul r 3)) =? 0)%nat
             else ret false) ;;
  if (forced : bool) then ret station_id
  else if lt_frac rand 1 10 then ret jingle
  else if lt_frac rand 15 100 then ret dj_solo
  else if lt_frac rand 3 10 then ret music_with_intro
  else if lt_frac rand 4 10 then ret music_with_outro
  else ret music_solo.

Definition createMusicWithIntro (depth : nat) : Gen (list ref) :=
  intro <~ getRandomDJIntro ;;
  music <~ createMusic depth ;;
  match intro with
  | None => ret [music]
  | Some i => createGaplessSequence [i; music]
  end.

Definition createMusicWithOutro (depth : nat) : Gen (list ref) :=
  music <~ createMusic depth ;;
  outro <~ getRandomDJOutro ;;
  match outro with
  | None => ret [music]
  | Some o => createGaplessSequence [music; o]
  end.

Definition createDJSolo : Gen ref :=
  solo <~ getRandomDJSolo ;;
  match solo with
  | None => createFallbackItem
  | Some s => now <~ Date_now ;; update s (set_startTime now) ;;; ret s
  end.

Definition createJingle : Gen ref :=
  j <~ getRandomJingle ;;
  match j with
  | None => createFallbackItem
  | Some s => now <~ Date_now ;; update s (set_startTime now) ;;; ret s
  end.

Definition createStationID : Gen ref :=
  id <~ getRandomDJID ;;
  match id with
  | None => createFallbackItem
  | Some s => now <~ Date_now ;; update s (set_startTime now) ;;; ret s
  end.

Definition createTimeSegment (b : TimeOfDay) : Gen ref :=
  t <~ getRandomDJTime b ;;
  match t with
  | None => createFallbackItem
  | Some s =>
      now <~ Date_now ;;
      update s (set_startTime now) ;;;
      update s (set_timeOfDay b) ;;;
      ret s
  end.

(** The body of the [for] loop of [generatePlaylist], from position [i]
    for [remaining] more positions; sequences are spread into the
    playlist. *)
Fixpoint generateFrom (depth remaining i : nat) (playlist : list ref)
  : Gen (list ref) :=
  match remaining with
  | O => ret playlist
  | S remaining' =>
      contentType <~ determineContentType i ;;
      pushed <~ match contentType with
                | music_with_intro => createMusicWithIntro depth
                | music_with_outro => createMusicWithOutro depth
                | music_solo => x <~ createMusic depth ;; ret [x]
                | dj_solo => x <~ createDJSolo ;; ret [x]
                | jingle => x <~ createJingle ;; ret [x]
                | station_id => x <~ createStationID ;; ret [x]
                end ;;
      generateFrom depth remaining' (S i) (playlist ++ pushed)
  end.

Definition generatePlaylist (depth count : nat) : Gen (list ref) :=
  generateFrom depth count 0%nat [].

Definition mapWeatherToType (cond : string) : WeatherType :=
  let conditionLower := toLowerCase cond in
  if includes conditionLower "sun" || includes conditionLower "clear" then SUN
  else if includes conditionLower "wind" then WIND
  else if includes conditionLower "rain" || includes conditionLower "shower"
       then RAIN
  else if includes conditionLower "fog" || includes conditionLower "mist"
       then FOG
  else if includes conditionLower "cloud" || includes conditionLower "overcast"
       then CLOUDY
  else CLOUDY.

Definition createWeatherSegment (weatherData : WeatherData) : Gen (list ref) :=
  transition <~ getRandomDJTransition TO_WEATHER ;;
  let segment := match transition with Some t => [t] | None => [] end in
  let weatherType := mapWeatherToType (condition weatherData) in
  announcement <~ getRandomDJWeather weatherType ;;
  segment <~ match announcement with
             | Some a => update a (set_weatherInfo weatherData) ;;;
                         ret (segment ++ [a])
             | None => ret segment
             end ;;
  if (1 <? length segment)%nat then createGaplessSequence segment
  else if (0 <? length segment)%nat then ret segment
  else x <~ createFallbackItem ;; ret [x].

(** The ad loop of [createAdSegment]. *)
Fixpoint pushAds (adCount : nat) (segment : list ref) : Gen (list ref) :=
  match adCount with
  | O => ret segment
  | S adCount' =>
      ad <~ getRandomAd ;;
      pushAds adCount' (match ad with
                        | Some a => segment ++ [a]
                        | None => segment
                        end)
  end.

Definition createAdSegment : Gen (list ref) :=
  transition <~ getRandomDJTransition TO_AD ;;
  let segment := match transition with Some t => [t] | None => [] end in
  r <~ Math_random ;;
  let adCount := (N.to_nat (floor_mul r 2) + 1)%nat in
  segment <~ pushAds adCount segment ;;
  if (1 <? length segment)%nat then createGaplessSequence segment
  else if (0 <? length segment)%nat then ret segment
  else x <~ createFallbackItem ;; ret [x].

End Generator.

Definition initial : State := mkState [] [] 0 0.

End PlaylistGenerator.

(** ** RadioScheduler: the queue and its projections *)

Module RadioScheduler.
Import JS.
Import PlaylistGenerator.

(** A queue entry is an item object or an array of item objects:
    [generatePlaylist] spreads its sequences into single items, the
    weather and ad triggers unshift the whole array a segment builder
    returned. *)
Inductive QueueEntry : Type :=
  | Track (r : ref)
  | Sequence (rs : list ref).

Record Scheduler : Type := mkScheduler {
  generator : State;
  queue : list QueueEntry;
  currentTrack : option ref;
  isPlaying : bool
}.

(** One element of the array [getUpcoming] returns; [None] is the
    JavaScript value [undefined]. *)
Record Upcoming : Type := mkUpcoming {
  up_title : option string;
  up_artist : option string;
  up_type : option string;
  up_duration : option Z
}.

Section Scheduler.
Variable w : World.
Variable lib : Library.

(** Runs a generator computation on the scheduler's generator state. *)
Definition withGenerator {A} (c : Gen A) (k : A -> list QueueEntry -> list QueueEntry)
           (s : Scheduler) : option Scheduler :=
  match c (generator s) with
  | Some (a, g) => Some (mkScheduler g (k a (queue s)) (currentTrack s) (isPlaying s))
  | None => None
  end.

Definition scheduleWeatherSegment (weatherNow : WeatherData) : Scheduler -> option Scheduler :=
  withGenerator (createWeatherSegment w lib weatherNow)
                (fun weatherSegment q => Sequence weatherSegment :: q).

Definition timeOfDayAt (hour : Z) : TimeOfDay :=
  if (12 <=? hour) && (hour <? 18) then AFTERNOON
  else if (18 <=? hour) && (hour <? 22) then EVENING
  else if (22 <=? hour) || (hour <? 6) then NIGHT
  else MORNING.

Definition scheduleTimeAnnouncement (hour : Z) : Scheduler -> option Scheduler :=
  withGenerator (createTimeSegment w lib (timeOfDayAt hour))
                (fun timeSegment q => Track timeSegment :: q).

Definition scheduleAdBreak : Scheduler -> option Scheduler :=
  withGenerator (createAdSegment w lib)
                (fun adSegment q => Sequence adSegment :: q).

(** The arrow function of [getUpcoming]: four property reads on the
    entry.  An array has none of these properties. *)
Definition project (hp : list AudioItem) (track : QueueEntry) : Upcoming :=
  match track with
  | Track r =>
      let o := hp !!! r in
      mkUpcoming (Some (title o)) (artist o) (Some (type o)) (Some (duration o))
  | Sequence _ => mkUpcoming None None None None
  end.

Definition getUpcoming (s : Scheduler) : list Upcoming :=
  map (project (heap (generator s))) (take 5 (queue s)).

End Scheduler.

Definition initial : Scheduler :=
  mkScheduler PlaylistGenerator.initial [] None false.

End RadioScheduler.

(** ** JavaScript numbers in arithmetic *)

(** A JavaScript number is an IEEE 754 binary64 value.  The finite ones
    are rationals, and every arithmetic operation returns the exact
    result rounded to the nearest binary64 value, ties to the even
    significand.  Results of magnitude [2 ^ 1024] and above (Infinity)
    are not modelled: no file size reaches them. *)
Module Double.

(** The integer part of the binary logarithm of a positive rational. *)
Definition floor_log2 (x : Q) : Z :=
  let k := Z.log2 (Qnum x) - Z.log2 (Z.pos (Qden x)) in
  if Qle_bool (2 ^ k) x then k else k - 1.

(** The exponent of the last place of the binary64 values around [x]:
    52 bits below the leading one, and -1074 for subnormal values. *)
Definition ulp_exponent (x : Q) : Z :=
  Z.max (floor_log2 (Qabs x) - 52) (-1074).

Definition round_half_even (x : Q) : Z :=
  let f := Qfloor x in
  match Qcompare (x - inject_Z f) (1 # 2) with
  | Lt => f
  | Gt => f + 1
  | Eq => if Z.even f then f else f + 1
  end.

(** The binary64 value nearest to [x]. *)
Definition round (x : Q) : Q :=
  if Qeq_bool x 0 then 0%Q
  else let e := ulp_exponent x in
       Qred (inject_Z (round_half_even (x / 2 ^ e)) * 2 ^ e).

(** An integer read as a number, [x * y] and [x / y]. *)
Definition of_Z (n : Z) : Q := round (inject_Z n).
Definition mul (x y : Q) : Q := round (x * y).
Definition div (x y : Q) : Q := round (x / y).

End Double.

(** ** AudioAnalyzer: duration estimate on probe failure *)

Module AudioAnalyzer.
Import JS.

Section Analyzer.
(** [path.extname] of the runtime's path module. *)
Variable extname : string -> string.
(** [fs.stat(filePath)]: the file size in bytes, [None] when it rejects. *)
Variable stat : string -> option Z.
Variable w : World.

Definition bitrateEstimates : list (string * Z) :=
  [ (".mp3", 128); (".wav", 1411); (".flac", 800); (".ogg", 128);
    (".mp2", 128); (".wma", 128); (".wax", 128) ]%string.

Fixpoint lookupExt (table : list (string * Z)) (ext : string) : option Z :=
  match table with
  | [] => None
  | (k, v) :: rest => if String.eqb k ext then Some v else lookupExt rest ext
  end.

(** Returns the estimate in milliseconds and the number of
    [Math.random()] calls made so far.  The arithmetic is that of
    JavaScript numbers: each product and quotient is rounded. *)
Definition estimateDurationFromFileSize (randomCalls : nat) (filePath : string)
  : Z * nat :=
  match stat filePath with
  | Some size =>
      let fileSizeKB := Double.div (Double.of_Z size) 1024 in
      let ext := toLowerCase (extname filePath) in
      let estimatedBitrate :=
        match lookupExt bitrateEstimates ext with
        | Some b => b
        | None => 128
        end in
      let durationSeconds :=
        Double.div (Double.mul fileSizeKB 8) (inject_Z estimatedBitrate) in
      (Qfloor (Double.mul durationSeconds 1000), randomCalls)
  | None =>
      (Z.of_N (floor_mul (random w randomCalls) 240000) + 60000, S randomCalls)
  end.

End Analyzer.
End AudioAnalyzer.

(** ** StreamManager: the basic broadcast engine *)

(** A connected response object. *)
Record Client : Type := mkClient {
  client_id : nat;
  destroyed : bool
}.

(** What the engines do to the outside: processes, pipes, writes. *)
Inductive Event : Type :=
  | Killed (pid : nat)
  | Spawned (pid : nat) (args : list string)
  | Piped (pid : nat) (client : nat)
  | StdinWrite (pid : nat) (bytes : list Z)
  | StdinEnd (pid : nat)
  | Wrote (client : nat) (bytes : list Z)
  | FileWritten (file : string) (content : string).

(** Outcomes of the calls that leave the program: whether the n-th call
    of [spawn] throws, whether [fs.writeFile] rejects, and the name
    [createConcatFile] derives from the clock. *)
Record Env : Type := mkEnv {
  spawnThrows : nat -> bool;
  writeFileRejects : bool;
  concatFile : string
}.

(** [a || b] on strings and [!s]: [null], [undefined] and the empty string
    are falsy. *)
Definition truthy (p : option string) : option string :=
  match p with
  | Some EmptyString | None => None
  | Some s => Some s
  end.

Definition str_or (a : option string) (b : string) : string :=
  match truthy a with
  | Some s => s
  | None => b
  end.

Module StreamManager.

Record State : Type := mkState {
  clients : list Client;
  currentStream : option nat;
  ffmpegProcess : option nat;
  nextPid : nat;
  spawnCalls : nat;
  trace : list Event
}.

Definition stopCurrentStream (st : State) : State :=
  match ffmpegProcess st with
  | Some p => mkState (clients st) None None (nextPid st) (spawnCalls st)
                      (trace st ++ [Killed p])
  | None => mkState (clients st) None None (nextPid st) (spawnCalls st)
                    (trace st)
  end.

(** [buf.writeInt16LE(value, offset)]: the two bytes stored. *)
Definition int16LE (value : Z) : list Z :=
  [Z.land value 255; Z.land (Z.shiftr value 8) 255].

(** [this.clients.forEach(client => { if (!client.destroyed) pipe })]. *)
Definition pipeToClients (pid : nat) (cs : list Client) : list Event :=
  map (fun c => Piped pid (client_id c))
      (List.filter (fun c => negb (destroyed c)) cs).

Definition fallbackArgs : list string :=
  [ "-f"; "s16le"; "-ar"; "44100"; "-ac"; "2"; "-i"; "-";
    "-f"; "mp3"; "-acodec"; "libmp3lame"; "-b:a"; "128k"; "-" ]%string.

Definition playArgs (file : string) : list string :=
  [ "-i"; file; "-f"; "mp3"; "-acodec"; "libmp3lame"; "-b:a"; "128k";
    "-ar"; "44100"; "-ac"; "2"; "-" ]%string.

Section Fallback.
(** [Math.floor(Math.sin(2 * Math.PI * 440 * i / 44100) * 0.1 * 32767)],
    the value of sample [i] of the tone. *)
Variable toneValue : nat -> Z.

Definition sampleRate : Z := 44100.

(** [track.duration || 30000]. *)
Definition fallbackDuration (track : AudioItem) : Z :=
  if duration track =? 0 then 30000 else duration track.

(** [Math.floor(duration * sampleRate / 1000)], for the non-negative
    durations items carry. *)
Definition fallbackSamples (track : AudioItem) : nat :=
  Z.to_nat (fallbackDuration track * sampleRate / 1000).

Definition fallbackBuffer (track : AudioItem) : list Z :=
  flat_map (fun i => int16LE (toneValue i) ++ int16LE (toneValue i))
           (seq 0 (fallbackSamples track)).

(** One call of [spawn]: the left result is the state when it throws,
    the right one the new process and the state. *)
Definition spawnProcess (env : Env) (args : list string) (st : State)
  : State + nat * State :=
  if spawnThrows env (spawnCalls st)
  then inl (mkState (clients st) (currentStream st) (ffmpegProcess st)
                    (nextPid st) (S (spawnCalls st)) (trace st))
  else
    let p := nextPid st in
    inr (p, mkState (clients st) (currentStream st) (Some p) (S p)
                    (S (spawnCalls st)) (trace st ++ [Spawned p args])).

(** [this.currentStream = this.ffmpegProcess.stdout] and the [forEach]
    that pipes it to the clients. *)
Definition connectClients (p : nat) (st : State) : State :=
  mkState (clients st) (Some p) (ffmpegProcess st) (nextPid st) (spawnCalls st)
          (trace st ++ pipeToClients p (clients st)).

Definition with_trace (st : State) (evs : list Event) : State :=
  mkState (clients st) (currentStream st) (ffmpegProcess st) (nextPid st)
          (spawnCalls st) (trace st ++ evs).

(** [None] is an exception leaving the method: [spawn] is called outside
    any [try] here. *)
Definition playFallbackAudio (env : Env) (track : AudioItem) (st : State)
  : option State :=
  let audioBuffer := fallbackBuffer track in
  match spawnProcess env fallbackArgs (stopCurrentStream st) with
  | inl _ => None
  | inr (p, started) =>
      Some (with_trace (connectClients p started)
                       [StdinWrite p audioBuffer; StdinEnd p])
  end.

Definition playTrack (env : Env) (track : AudioItem) (st : State)
  : option State :=
  match truthy (path track) with
  | None => playFallbackAudio env track st
  | Some file =>
      match spawnProcess env (playArgs file) (stopCurrentStream st) with
      | inr (p, started) => Some (connectClients p started)
      | inl failed => playFallbackAudio env track failed
      end
  end.

(** The ['error'] handler registered on the process by [playTrack]. *)
Definition onProcessError (env : Env) (track : AudioItem) (st : State)
  : option State :=
  playFallbackAudio env track st.

End Fallback.
End StreamManager.

(** ** EnhancedStreamManager: the engine the server runs *)

Module EnhancedStreamManager.

Record State : Type := mkState {
  clients : list Client;
  currentStream : option nat;
  ffmpegProcess : option nat;
  currentTrack : option AudioItem;
  currentConcatFile : option string;
  nextPid : nat;
  spawnCalls : nat;
  trace : list Event
}.

Definition with_trace (st : State) (evs : list Event) : State :=
  mkState (clients st) (currentStream st) (ffmpegProcess st) (currentTrack st)
          (currentConcatFile st) (nextPid st) (spawnCalls st) (trace st ++ evs).

Definition with_currentTrack (st : State) (track : AudioItem) : State :=
  mkState (clients st) (currentStream st) (ffmpegProcess st) (Some track)
          (currentConcatFile st) (nextPid st) (spawnCalls st) (trace st).

(** Modelled from the spec: the class body under src/ calls
    [this.stopCurrentStream()] and does not define it.  The engine
    "tears down any running pipeline"; this is the method of that name in
    [StreamManager], on this class's state. *)
Definition stopCurrentStream (st : State) : State :=
  mkState (clients st) None None (currentTrack st) (currentConcatFile st)
          (nextPid st) (spawnCalls st)
          (trace st ++ match ffmpegProcess st with
                       | Some p => [Killed p]
                       | None => []
                       end).

(** A string as the bytes [Buffer.from(s, 'utf8')] holds; strings are kept
    in their UTF-8 encoding. *)
Fixpoint utf8 (s : string) : list Z :=
  match s with
  | EmptyString => []
  | String c s' => Z.of_nat (nat_of_ascii c) :: utf8 s'
  end.

Definition metadataString (track : AudioItem) : string :=
  let title := str_or (Some (title track)) "Unknown" in
  let artist := str_or (artist track) "" in
  ("StreamTitle='" ++
   (match artist with EmptyString => "" | _ => artist ++ " - " end) ++
   title ++ "';")%string.

Definition metadataBuffer (track : AudioItem) : list Z :=
  utf8 (metadataString track).

(** [Math.ceil(metadataBuffer.length / 16)]. *)
Definition metadataLength (track : AudioItem) : Z :=
  (Z.of_nat (length (metadataBuffer track)) + 15) / 16.

(** [Buffer.alloc(metadataLength * 16)] with the text copied to its
    start. *)
Definition paddedMetadata (track : AudioItem) : list Z :=
  metadataBuffer track ++
  repeat 0 (Z.to_nat (metadataLength track * 16) - length (metadataBuffer track)).

(** The packet built by [sendICYMetadata]; [Buffer.from([n])] stores
    [n & 255]. *)
Definition icyPacket (track : AudioItem) : list Z :=
  Z.land (metadataLength track) 255 :: paddedMetadata track.

Definition sendICYMetadata (client : Client) (st : State) : State :=
  match currentTrack st with
  | None => st
  | Some track => with_trace st [Wrote (client_id client) (icyPacket track)]
  end.

Definition broadcastICYMetadata (st : State) : State :=
  match currentTrack st with
  | None => st
  | Some _ =>
      fold_left (fun s c => if destroyed c then s else sendICYMetadata c s)
                (clients st) st
  end.

Definition setupStreamPiping (p : nat) (st : State) : State :=
  with_trace st (StreamManager.pipeToClients p (clients st)).

Definition playFallbackAudio (track : AudioItem) (st : State) : State :=
  stopCurrentStream st.

Definition gaplessOptions : list string :=
  [ "-avoid_negative_ts"; "make_zero"; "-fflags"; "+genpts" ]%string.

Definition audioStreamArgs (track : AudioItem) (file : string) : list string :=
  app [ "-i"; file; "-f"; "mp3"; "-acodec"; "libmp3lame"; "-b:a"; "128k";
        "-ar"; "44100"; "-ac"; "2"; "-map_metadata"; "-1" ]%string
      (app (if needsReencoding track then gaplessOptions else [])
           [ "-"%string ]).

Definition concatStreamArgs (file : string) : list string :=
  app [ "-f"; "concat"; "-safe"; "0"; "-i"; file; "-f"; "mp3";
        "-acodec"; "libmp3lame"; "-b:a"; "128k"; "-ar"; "44100"; "-ac"; "2" ]%string
      (app gaplessOptions [ "-"%string ]).

(** [spawn] followed by the bookkeeping shared by [createAudioStream] and
    [createConcatStream]; the left result is the state when [spawn]
    throws. *)
Definition startPipeline (env : Env) (args : list string)
           (concat : option string) (st : State) : State + State :=
  let called := mkState (clients st) (currentStream st) (ffmpegProcess st)
                        (currentTrack st) (currentConcatFile st) (nextPid st)
                        (S (spawnCalls st)) (trace st) in
  if spawnThrows env (spawnCalls st) then inl called
  else
    let p := nextPid st in
    inr (setupStreamPiping p
           (mkState (clients st) (Some p) (Some p) (currentTrack st)
                    (match concat with
                     | Some f => Some f
                     | None => currentConcatFile st
                     end)
                    (S p) (S (spawnCalls st)) (trace st ++ [Spawned p args]))).

Definition createAudioStream (env : Env) (track : AudioItem) (file : string)
  : State -> State + State :=
  startPipeline env (audioStreamArgs track file) None.

Definition playTrack (env : Env) (track : AudioItem) (st : State) : State :=
  let st1 := with_currentTrack st track in
  match truthy (path track) with
  | None => playFallbackAudio track st1
  | Some file =>
      match createAudioStream env track file (stopCurrentStream st1) with
      | inr started => broadcastICYMetadata started
      | inl failed => playFallbackAudio track failed
      end
  end.

(** [s.replace(/'/g, "'\\''")]. *)
Fixpoint escapeQuotes (s : string) : string :=
  match s with
  | EmptyString => EmptyString
  | String c s' =>
      if Ascii.eqb c "'"%char
      then ("'\''" ++ escapeQuotes s')%string
      else String c (escapeQuotes s')
  end.

Definition concatContent (tracks : list AudioItem) : string :=
  fold_right (fun t acc =>
                match truthy (path t) with
                | Some p => ("file '" ++ escapeQuotes p ++ "'" ++
                             String (ascii_of_nat 10) acc)%string
                | None => acc
                end) EmptyString tracks.

Definition createConcatFile (env : Env) (tracks : list AudioItem) (st : State)
  : option (string * State) :=
  if writeFileRejects env then None
  else Some (concatFile env,
             with_trace st [FileWritten (concatFile env) (concatContent tracks)]).

Definition createConcatStream (env : Env) (file : string)
  : State -> State + State :=
  startPipeline env (concatStreamArgs file) (Some file).

Definition playGaplessSequence (env : Env) (tracks : list AudioItem) (st : State)
  : State :=
  match tracks with
  | [] => st
  | first :: _ =>
      let st2 := stopCurrentStream (with_currentTrack st first) in
      match createConcatFile env tracks st2 with
      | None => playTrack env first st2
      | Some (file, st3) =>
          match createConcatStream env file st3 with
          | inr started => broadcastICYMetadata started
          | inl failed => playTrack env first failed
          end
      end
  end.

(** The ['error'] handler registered by [setupFFmpegErrorHandling]:
    [this.playFallbackAudio(this.currentTrack)], whose argument is not
    read. *)
Definition onProcessError (st : State) : State :=
  stopCurrentStream st.

End EnhancedStreamManager.

(** ** Listeners of the two engines, and the process handlers *)

(** [Set.prototype.add] and [delete] on the listener set: a response
    object is identified by [client_id]; iteration is in insertion
    order. *)
Definition setHas (c : Client) (cs : list Client) : bool :=
  existsb (fun c' => (client_id c' =? client_id c)%nat) cs.

Definition setAdd (c : Client) (cs : list Client) : list Client :=
  if setHas c cs then cs else cs ++ [c].

Definition setDelete (c : Client) (cs : list Client) : list Client :=
  List.filter (fun c' => negb (client_id c' =? client_id c)%nat) cs.

Module StreamManagerClients.
Import StreamManager.

Definition addClient (response : Client) (st : State) : State :=
  let cs := setAdd response (clients st) in
  mkState cs (currentStream st) (ffmpegProcess st) (nextPid st) (spawnCalls st)
          (trace st ++ match currentStream st with
                       | Some p => [Piped p (client_id response)]
                       | None => []
                       end).

Definition removeClient (response : Client) (st : State) : State :=
  mkState (setDelete response (clients st)) (currentStream st)
          (ffmpegProcess st) (nextPid st) (spawnCalls st) (trace st).

Definition stop (st : State) : State :=
  let st1 := stopCurrentStream st in
  mkState [] (currentStream st1) (ffmpegProcess st1) (nextPid st1)
          (spawnCalls st1) (trace st1).

(** The ['close'] handler registered on every process:
    [this.currentStream = null], whichever process closed. *)
Definition onProcessClose (st : State) : State :=
  mkState (clients st) None (ffmpegProcess st) (nextPid st) (spawnCalls st)
          (trace st).

(** The calls the rest of the program makes on the engine. *)
Inductive Call : Type :=
  | CallAddClient (response : Client)
  | CallRemoveClient (response : Client)
  | CallPlayTrack (env : Env) (track : AudioItem)
  | CallPlayFallbackAudio (env : Env) (track : AudioItem)
  | CallProcessError (env : Env) (track : AudioItem)
  | CallProcessClose
  | CallStop.

Section Run.
Variable toneValue : nat -> Z.

(** [None] when the call ends in an exception. *)
Definition perform (c : Call) (st : State) : option State :=
  match c with
  | CallAddClient r => Some (addClient r st)
  | CallRemoveClient r => Some (removeClient r st)
  | CallPlayTrack env t => playTrack toneValue env t st
  | CallPlayFallbackAudio env t => playFallbackAudio toneValue env t st
  | CallProcessError env t => onProcessError toneValue env t st
  | CallProcessClose => Some (onProcessClose st)
  | CallStop => Some (stop st)
  end.

Fixpoint run (cs : list Call) (st : State) : option State :=
  match cs with
  | [] => Some st
  | c :: rest =>
      match perform c st with
      | Some st' => run rest st'
      | None => None
      end
  end.

End Run.

(** The processes started and not killed, oldest first. *)
Fixpoint alive (events : list Event) (acc : list nat) : list nat :=
  match events with
  | [] => acc
  | Spawned p _ :: rest => alive rest (acc ++ [p])
  | Killed p :: rest =>
      alive rest (List.filter (fun q => negb (q =? p)%nat) acc)
  | _ :: rest => alive rest acc
  end.

Definition constructed : State := mkState [] None None 0 0 [].

End StreamManagerClients.

Module EnhancedStreamManagerClients.
Import EnhancedStreamManager.

(** The headers of [response.writeHead(200, ...)], with the stream
    configuration the server passes ([bitrate: '128k']). *)
Definition icyHeaders : list (string * string) :=
  [ ("Content-Type", "audio/mpeg"); ("Cache-Control", "no-cache");
    ("Connection", "keep-alive"); ("Access-Control-Allow-Origin", "*");
    ("icy-name", "Custom Radio Station"); ("icy-genre", "Various");
    ("icy-br", "128"); ("icy-metaint", "8192") ]%string.

(** Returns the headers written to the response, then the state. *)
Definition addClient (response : Client) (st : State)
  : list (string * string) * State :=
  let st1 := mkState (setAdd response (clients st)) (currentStream st)
                     (ffmpegProcess st) (currentTrack st)
                     (currentConcatFile st) (nextPid st) (spawnCalls st)
                     (trace st) in
  let st2 := sendICYMetadata response st1 in
  (icyHeaders,
   with_trace st2 match currentStream st2 with
                  | Some p => [Piped p (client_id response)]
                  | None => []
                  end).

Definition removeClient (response : Client) (st : State) : State :=
  mkState (setDelete response (clients st)) (currentStream st)
          (ffmpegProcess st) (currentTrack st) (currentConcatFile st)
          (nextPid st) (spawnCalls st) (trace st).

(** The ['close'] handler of [setupFFmpegErrorHandling]: returns the
    list file it unlinks, if any, then the state. *)
Definition onProcessClose (st : State) : option string * State :=
  (truthy (currentConcatFile st),
   mkState (clients st) None (ffmpegProcess st) (currentTrack st)
           (match truthy (currentConcatFile st) with
            | Some _ => None
            | None => currentConcatFile st
            end)
           (nextPid st) (spawnCalls st) (trace st)).

Definition constructed : State := mkState [] None None None None 0 0 [].

End EnhancedStreamManagerClients.

(** ** RadioScheduler: the playback loop and the now-playing projection *)

Module RadioSchedulerLoop.
Import JS PlaylistGenerator RadioScheduler.

(** What a step of the loop asks of the engine. *)
Inductive Action : Type :=
  | PlayTrack (track : ref)
  | PlayGaplessSequence (tracks : list ref).

(** The function a [setTimeout] will call: [scheduleNext], or the arrow
    function of [playSequenceIndividually] with the array it captured. *)
Inductive Callback : Type :=
  | CallScheduleNext
  | CallRest (sequence : list ref).

Record Timeout : Type := mkTimeout {
  callback : Callback;
  delay : Z
}.

(** The scheduler after a step, the engine calls made during it and the
    timer it left. *)
Record Step : Type := mkStep {
  scheduler : Scheduler;
  played : list Action;
  pending : option Timeout
}.

(** The two methods the loop asks the engine for.  Neither engine class
    defines them; [None] is that case, where
    [this.streamManager.canPlayGapless] is [undefined]. *)
Record GaplessSupport : Type := mkGaplessSupport {
  canPlayGapless : list AudioItem -> bool;
  getSequenceDuration : list AudioItem -> Z
}.

Record NowPlaying : Type := mkNowPlaying {
  np_title : string;
  np_artist : string;
  np_type : string;
  np_startTime : Z;
  np_duration : Z
}.

Section Loop.
Variable w : World.
Variable lib : Library.
Variable support : option GaplessSupport.

Definition with_queue (s : Scheduler) (g : State) (q : list QueueEntry)
  : Scheduler :=
  mkScheduler g q (currentTrack s) (isPlaying s).

Definition with_current (s : Scheduler) (q : list QueueEntry)
           (track : option ref) : Scheduler :=
  mkScheduler (generator s) q track (isPlaying s).

(** [if (this.queue.length === 0) this.queue = generatePlaylist(20)]. *)
Definition refill (depth : nat) (s : Scheduler) : option Scheduler :=
  match queue s with
  | [] =>
      match generatePlaylist w lib depth 20 (generator s) with
      | Some (playlist, g) => Some (with_queue s g (map Track playlist))
      | None => None
      end
  | _ => Some s
  end.

Definition supportsGapless (hp : list AudioItem) (sequence : list ref) : bool :=
  match support with
  | Some e => canPlayGapless e (map (fun r => hp !!! r) sequence)
  | None => false
  end.

Definition sequenceDuration (hp : list AudioItem) (sequence : list ref) : Z :=
  match support with
  | Some e => getSequenceDuration e (map (fun r => hp !!! r) sequence)
  | None => 0
  end.

(** [scheduleNext], with [playSequenceIndividually] unfolded where it is
    called: an empty array makes it call [scheduleNext] again, which
    [depth] bounds. *)
Fixpoint scheduleNext (depth : nat) (s : Scheduler) : option Step :=
  match depth with
  | O => None
  | S depth' =>
      match refill depth' s with
      | None => None
      | Some s1 =>
          let hp := heap (generator s1) in
          match queue s1 with
          | [] => Some (mkStep (with_current s1 [] None) [] None)
          | Track nextItem :: q =>
              Some (mkStep (with_current s1 q (Some nextItem))
                           [PlayTrack nextItem]
                           (Some (mkTimeout CallScheduleNext
                                            (duration (hp !!! nextItem)))))
          | Sequence nextItem :: q =>
              let s2 := with_current s1 q (head nextItem) in
              if supportsGapless hp nextItem
              then Some (mkStep s2 [PlayGaplessSequence nextItem]
                                (Some (mkTimeout CallScheduleNext
                                                 (sequenceDuration hp nextItem))))
              else match nextItem with
                   | [] => scheduleNext depth' s2
                   | currentItem :: rest =>
                       Some (mkStep s2 [PlayTrack currentItem]
                                    (Some (mkTimeout (CallRest rest)
                                                     (duration (hp !!! currentItem)))))
                   end
          end
      end
  end.

Definition playSequenceIndividually (depth : nat) (sequence : list ref)
           (s : Scheduler) : option Step :=
  match sequence with
  | [] => scheduleNext depth s
  | currentItem :: rest =>
      Some (mkStep s [PlayTrack currentItem]
                   (Some (mkTimeout (CallRest rest)
                                    (duration (heap (generator s) !!! currentItem)))))
  end.

(** A timer fires. *)
Definition fire (depth : nat) (c : Callback) (s : Scheduler) : option Step :=
  match c with
  | CallScheduleNext => scheduleNext depth s
  | CallRest sequence =>
      if (0 <? length sequence)%nat
      then playSequenceIndividually depth sequence s
      else scheduleNext depth s
  end.

(** Lets [n] timers fire one after the other, collecting the engine
    calls and the delays waited. *)
Fixpoint elapse (depth n : nat) (st : Step) (waited : list Z)
  : option (Step * list Z) :=
  match n with
  | O => Some (st, waited)
  | S n' =>
      match pending st with
      | None => Some (st, waited)
      | Some t =>
          match fire depth (callback t) (scheduler st) with
          | Some st' =>
              elapse depth n'
                     (mkStep (scheduler st') (played st ++ played st') (pending st'))
                     (waited ++ [delay t])
          | None => None
          end
      end
  end.

(** [start] and the scheduler's part of [stop]. *)
Definition start (s : Scheduler) : Scheduler :=
  mkScheduler (generator s) (queue s) (currentTrack s) true.

Definition stop (s : Scheduler) : Scheduler :=
  mkScheduler (generator s) (queue s) (currentTrack s) false.

(** [x || Date.now()] on a start time: [null] and 0 are falsy, and the
    clock is read only then. *)
Definition getCurrentTrack (s : Scheduler) : NowPlaying * Scheduler :=
  let g := generator s in
  let o := option_map (fun r => heap g !!! r) (currentTrack s) in
  let started := match o with
                 | Some i => match startTime i with
                             | Some 0 | None => None
                             | Some t => Some t
                             end
                 | None => None
                 end in
  let '(startedAt, g') :=
    match started with
    | Some t => (t, g)
    | None => (dateNow w (dateCalls g),
               mkState (heap g) (lastPlayedMusic g) (randomCalls g)
                       (S (dateCalls g)))
    end in
  (mkNowPlaying
     (str_or (option_map title o) "Unknown")
     (str_or (match o with Some i => artist i | None => None end) "Unknown")
     (str_or (option_map type o) "music")
     startedAt
     (match o with Some i => duration i | None => 0 end),
   mkScheduler g' (queue s) (currentTrack s) (isPlaying s)).

End Loop.
End RadioSchedulerLoop.

(** ** AudioAnalyzer: probing with a cache, and the streaming hints *)

Module AudioAnalyzerProbe.
Import JS.

(** What [probeMetadata] resolves with; [None] is [null], and a bit rate
    that is not a number counts as [null]. *)
Record Metadata : Type := mkMetadata {
  meta_title : option string;
  meta_artist : option string;
  meta_album : option string;
  meta_duration : option Z;
  meta_bitrate : option Z
}.

(** The state of the outside world during one call: [fs.stat] (size and
    modification time in ms, [None] when it rejects) and the duration in
    seconds [ffprobe] reports ([None] when it fails or reports none). *)
Record Files : Type := mkFiles {
  fileStat : string -> option (Z * Z);
  ffprobeDuration : string -> option Q
}.

Record State : Type := mkState {
  durationCache : gmap (string * Z) Z;
  randomCalls : nat;
  dateCalls : nat
}.

Section Analyzer.
Variable extname : string -> string.
Variable w : World.

(** [getFileModTime]: the modification time, or the clock when [stat]
    rejects. *)
Definition getFileModTime (fs : Files) (filePath : string) (st : State)
  : Z * State :=
  match fileStat fs filePath with
  | Some (_, mtime) => (mtime, st)
  | None => (dateNow w (dateCalls st),
             mkState (durationCache st) (randomCalls st) (S (dateCalls st)))
  end.

(** [probeDuration]: rejects on an [ffprobe] error and on a duration
    that is missing or zero; resolves with [Math.floor(duration * 1000)],
    the duration being the number nearest to the reported value. *)
Definition probeDuration (fs : Files) (filePath : string) : option Z :=
  match ffprobeDuration fs filePath with
  | Some d =>
      let duration := Double.round d in
      if Qeq_bool duration 0 then None
      else Some (Qfloor (Double.mul duration 1000))
  | None => None
  end.

(** The cache key [`${filePath}_${mtime}`] as a pair. *)
Definition analyzeDuration (fs : Files) (filePath : string) (st : State)
  : Z * State :=
  let '(mtime, st1) := getFileModTime fs filePath st in
  let cacheKey := (filePath, mtime) in
  match durationCache st1 !! cacheKey with
  | Some cached => (cached, st1)
  | None =>
      match probeDuration fs filePath with
      | Some d =>
          (d, mkState (<[cacheKey := d]> (durationCache st1))
                      (randomCalls st1) (dateCalls st1))
      | None =>
          let '(estimate, calls) :=
            AudioAnalyzer.estimateDurationFromFileSize
              extname (fun p => option_map fst (fileStat fs p)) w
              (randomCalls st1) filePath in
          (estimate, mkState (durationCache st1) calls (dateCalls st1))
      end
  end.

Definition validateAudioFile (fs : Files) (filePath : string) : bool :=
  match probeDuration fs filePath with
  | Some _ => true
  | None => false
  end.

(** A number is truthy unless it is 0 (or not a number). *)
Definition truthyNumber (n : option Z) : option Z :=
  match n with
  | Some 0 | None => None
  | Some b => Some b
  end.

Definition needsReencoding (filePath : string) (metadata : Metadata) : bool :=
  let ext := toLowerCase (extname filePath) in
  match truthyNumber (meta_bitrate metadata) with
  | Some b =>
      if String.eqb ext ".mp3" && (96 <=? b) && (b <=? 320) then false else true
  | None => true
  end.

Definition getRecommendedBitrate (metadata : Metadata) : Z :=
  match truthyNumber (meta_bitrate metadata) with
  | None => 128
  | Some originalBitrate =>
      if originalBitrate <=? 96 then 96
      else if originalBitrate <=? 128 then 128
      else if originalBitrate <=? 192 then 192
      else 256
  end.

Definition hasCompatibleFormat (filePath : string) : bool :=
  let ext := toLowerCase (extname filePath) in
  existsb (String.eqb ext) [".mp3"; ".ogg"]%string.

(** The text [generateConcatFile] builds; [None] when an item has a
    null path and [item.path.replace] raises. *)
Fixpoint generateConcatContent (audioItems : list AudioItem) : option string :=
  match audioItems with
  | [] => Some EmptyString
  | item :: rest =>
      match path item, generateConcatContent rest with
      | Some p, Some acc =>
          Some ("file '" ++ EnhancedStreamManager.escapeQuotes p ++ "'" ++
                String (ascii_of_nat 10) acc)%string
      | _, _ => None
      end
  end.

Inductive ConcatError : Type :=
  | NullPath
  | WriteRejected.

(** [generateConcatFile]: builds the text, then awaits [fs.writeFile]
    and resolves with [outputPath].  It raises while building when an
    item has a null path, and otherwise when the write is rejected; the
    file is written only when the call resolves. *)
Definition generateConcatFile (env : Env) (audioItems : list AudioItem)
           (outputPath : string) : ConcatError + string * list Event :=
  match generateConcatContent audioItems with
  | None => inl NullPath
  | Some concatContent =>
      if writeFileRejects env then inl WriteRejected
      else inr (outputPath, [FileWritten outputPath concatContent])
  end.

End Analyzer.

Definition fresh : State := mkState ∅ 0 0.

End AudioAnalyzerProbe.

(** ** WeatherService *)

Module WeatherService.
Import JS.

(** The snapshot objects the service returns. *)
Record Snapshot : Type := mkSnapshot {
  snap_city : string;
  snap_country : string;
  snap_condition : string;
  snap_description : string;
  snap_temperature : Z;
  snap_humidity : Z;
  snap_windSpeed : Z;
  snap_timestamp : Z;
  snap_demo : bool;
  snap_fallback : bool
}.

Record State : Type := mkState {
  city : string;
  country : string;
  apiKey : string;
  cache : option Snapshot;
  cacheTime : Z;
  randomCalls : nat;
  dateCalls : nat;
  requests : nat
}.

Definition cacheExpiry : Z := 10 * 60 * 1000.

Definition constructed (key : string) : State :=
  mkState "Paris" "FR" key None 0 0 0 0.

Definition setLocation (newCity newCountry : string) (st : State) : State :=
  mkState newCity newCountry (apiKey st) None (cacheTime st)
          (randomCalls st) (dateCalls st) (requests st).

Definition conditions : list string :=
  ["Clear"; "Clouds"; "Rain"; "Wind"; "Fog"]%string.

Definition descriptions : list (string * string) :=
  [ ("Clear", "sunny skies"); ("Clouds", "partly cloudy");
    ("Rain", "light rain"); ("Wind", "windy conditions");
    ("Fog", "foggy weather") ]%string.

Fixpoint lookup_string {A} (table : list (string * A)) (k : string) : option A :=
  match table with
  | [] => None
  | (k', v) :: rest => if String.eqb k' k then Some v else lookup_string rest k
  end.

Section Service.
Variable w : World.
(** The answer to the n-th request, for the city, country and key in its
    URL, with the numbers already rounded; [None] when the request
    fails, times out or its answer lacks a field that is read. *)
Variable api : nat -> string -> string -> string -> option Snapshot.

Definition tick_date (st : State) : Z * State :=
  (dateNow w (dateCalls st),
   mkState (city st) (country st) (apiKey st) (cache st) (cacheTime st)
           (randomCalls st) (S (dateCalls st)) (requests st)).

Definition tick_random (st : State) : Draw * State :=
  (random w (randomCalls st),
   mkState (city st) (country st) (apiKey st) (cache st) (cacheTime st)
           (S (randomCalls st)) (dateCalls st) (requests st)).

Definition tick_request (st : State) : State :=
  mkState (city st) (country st) (apiKey st) (cache st) (cacheTime st)
          (randomCalls st) (dateCalls st) (S (requests st)).

Definition getDemoWeather (st : State) : Snapshot * State :=
  let '(r0, st0) := tick_random st in
  let condition :=
    nth (N.to_nat (floor_mul r0 (N.of_nat (length conditions)))) conditions
        "Clear"%string in
  let '(r1, st1) := tick_random st0 in
  let '(r2, st2) := tick_random st1 in
  let '(r3, st3) := tick_random st2 in
  let '(now, st4) := tick_date st3 in
  (mkSnapshot (city st) (country st) condition
              (match lookup_string descriptions condition with
               | Some d => d
               | None => EmptyString
               end)
              (Z.of_N (floor_mul r1 25) + 5)
              (Z.of_N (floor_mul r2 40) + 40)
              (Z.of_N (floor_mul r3 20) + 5)
              now true false,
   st4).

Definition getFallbackWeather (st : State) : Snapshot * State :=
  let '(now, st1) := tick_date st in
  (mkSnapshot (city st) (country st) "Clear" "pleasant weather" 20 60 10
              now false true,
   st1).

(** The second component is [None] when the request throws. *)
Definition fetchWeatherData (st : State) : option Snapshot * State :=
  if String.eqb (apiKey st) "demo_key" then
    let '(weather, st1) := getDemoWeather st in (Some weather, st1)
  else
    let st0 := tick_request st in
    match api (requests st) (city st) (country st) (apiKey st) with
    | Some data =>
        let '(now, st1) := tick_date st0 in
        (Some (mkSnapshot (snap_city data) (snap_country data)
                          (snap_condition data) (snap_description data)
                          (snap_temperature data) (snap_humidity data)
                          (snap_windSpeed data) now false false),
         st1)
    | None => (None, st0)
    end.

Definition getCurrentWeather (st : State) : Snapshot * State :=
  let fetch (st0 : State) :=
    match fetchWeatherData st0 with
    | (Some weather, st1) =>
        let '(now, st2) := tick_date st1 in
        (weather,
         mkState (city st2) (country st2) (apiKey st2) (Some weather) now
                 (randomCalls st2) (dateCalls st2) (requests st2))
    | (None, st1) => getFallbackWeather st1
    end in
  match cache st with
  | Some cached =>
      let '(now, st1) := tick_date st in
      if now - cacheTime st <? cacheExpiry then (cached, st1) else fetch st1
  | None => fetch st
  end.

End Service.

(** [conditionMap], and the member names every object inherits, for
    which the lookup yields a function instead of a code. *)
Definition conditionMap : list (string * WeatherType) :=
  [ ("Clear", SUN); ("Clouds", CLOUDY); ("Rain", RAIN); ("Drizzle", RAIN);
    ("Thunderstorm", RAIN); ("Snow", CLOUDY); ("Mist", FOG); ("Fog", FOG);
    ("Haze", FOG); ("Wind", WIND) ]%string.

Definition inheritedNames : list string :=
  [ "constructor"; "toString"; "toLocaleString"; "valueOf";
    "hasOwnProperty"; "isPrototypeOf"; "propertyIsEnumerable";
    "__proto__"; "__defineGetter__"; "__defineSetter__";
    "__lookupGetter__"; "__lookupSetter__" ]%string.

(** [conditionMap[condition] || 'CLOUDY']; [None] when the result is an
    inherited member and not a code. *)
Definition getWeatherConditionCode (condition : string) : option WeatherType :=
  match lookup_string conditionMap condition with
  | Some code => Some code
  | None =>
      if existsb (String.eqb condition) inheritedNames then None
      else Some CLOUDY
  end.

(** The part of a snapshot the generator reads. *)
Definition toWeatherData (s : Snapshot) : WeatherData :=
  mkWeather (snap_condition s) (snap_description s).

End WeatherService.

(** * Properties *)

(** ** Predicates used in the statements *)

Module Invariants.
Import PlaylistGenerator.

(** The members of a segment carry contiguous start times in store [hp]. *)
Definition contiguous (hp : list AudioItem) (members : list ref) : Prop :=
  forall i a b,
    members !! i = Some a -> members !! S i = Some b ->
    exists t, startTime (hp !!! a) = Some t /\
              startTime (hp !!! b) = Some (t + duration (hp !!! a)).

(** The first member carries the gapless-start flag and the last one the
    gapless-end flag. *)
Definition flagged (hp : list AudioItem) (members : list ref) : Prop :=
  (exists first, head members = Some first /\
                 isGaplessStart (hp !!! first) = true) /\
  (exists final, last members = Some final /\
                 isGaplessEnd (hp !!! final) = true).

(** Every reference of [members] points into the store. *)
Definition allocated (hp : list AudioItem) (members : list ref) : Prop :=
  Forall (fun r => (r < length hp)%nat) members.

(** Members collected so far by a segment builder: pairwise distinct and
    in the store. *)
Definition collected (st : State) (segment : list ref) : Prop :=
  NoDup segment /\ allocated (heap st) segment.

(** A computation that returns from every state. *)
Definition returns {A} (c : Gen A) : Prop :=
  forall st, exists a st', c st = Some (a, st').

End Invariants.

Module Pipeline.
Import EnhancedStreamManager.

(** Two engine states with the same track, pipeline and listeners. *)
Definition same_pipeline (a b : State) : Prop :=
  currentTrack a = currentTrack b /\
  currentStream a = currentStream b /\
  ffmpegProcess a = ffmpegProcess b /\
  clients a = clients b.

End Pipeline.

(** ** Concrete catalogs, oracles and states *)

Module Examples.
Import JS PlaylistGenerator.

Definition half : Draw := mkDraw 1 2 eq_refl.
Definition zero : Draw := mkDraw 0 1 eq_refl.

(** The draw [n / d], or 0 when that is not below 1. *)
Definition fraction (n d : N) : Draw :=
  match (n ?= d)%N as c return (n ?= d)%N = c -> Draw with
  | Lt => fun H => mkDraw n d H
  | _ => fun _ => zero
  end eq_refl.

(** An oracle that replays a list of draws, then answers 1/2. *)
Definition scripted (draws : list Draw) : World :=
  mkWorld (fun n => nth n draws half) (fun n => 1000 + Z.of_nat n).

(** The oracle whose every draw is 1/2. *)
Definition steady : World := scripted [].

(** Two successive draws: 0 and 1/2. *)
Definition twoDraws : World := scripted [zero; half].

Definition song (t : string) : AudioItem :=
  mkItem (Some ("/audio/" ++ t ++ ".mp3")%string) t (Some "Unknown Artist"%string)
         "music" 180000 None false false false None None false.

Definition stationIdent : AudioItem :=
  mkItem (Some "/audio/ID_main.mp3"%string) "ID_main" None "dj-id" 4000 None
         false false false None None false.

Definition rainReport : AudioItem :=
  mkItem (Some "/audio/RAIN_01.mp3"%string) "RAIN_01" None "dj-weather-rain"
         7000 None false false false None None false.

(** A catalog with a single song. *)
Definition oneSong : Library :=
  mkLibrary [song "A"] [] [] [] [] [] [] (fun _ => []) (fun _ => []) (fun _ => []).

(** Ten songs and a station ident. *)
Definition station : Library :=
  mkLibrary (map song ["s0"; "s1"; "s2"; "s3"; "s4";
                       "s5"; "s6"; "s7"; "s8"; "s9"]%string)
            [] [] [] [] [] [stationIdent]
            (fun _ => []) (fun _ => []) (fun _ => []).

(** A catalog whose only item is a rain announcement. *)
Definition forecasts : Library :=
  mkLibrary [] [] [] [] [] [] [] (fun _ => [])
            (fun t => match t with RAIN => [rainReport] | _ => [] end)
            (fun _ => []).

Definition lightRain : WeatherData := mkWeather "Rain" "light rain".

(** A catalog with a hand-over to the weather and a rain announcement,
    and the generator after it built the rain segment, every draw 1/2. *)
Definition toWeather : AudioItem :=
  mkItem (Some "/audio/TO_WEATHER_01.mp3"%string) "TO_WEATHER_01" None
         "dj-transition-weather" 3000 None false false false None None false.

Definition weatherDesk : Library :=
  mkLibrary [] [] [] [] [] [] [] (fun _ => [])
            (fun t => match t with RAIN => [rainReport] | _ => [] end)
            (fun t => match t with TO_WEATHER => [toWeather] | _ => [] end).

Definition afterWeatherDesk : PlaylistGenerator.State :=
  Eval vm_compute in
    match PlaylistGenerator.createWeatherSegment
            steady weatherDesk lightRain PlaylistGenerator.initial with
    | Some (_, st) => st
    | None => PlaylistGenerator.initial
    end.

(** Draws for ten positions: the weighted draw is 0.5 every time; the
    period draw makes the period 6 at position 5 and 5 elsewhere; the
    music draw at position [p] picks song [p]. *)
Definition dodging : World :=
  scripted ([half; fraction 0 10] ++
            flat_map (fun p => [half;
                                if (p =? 5)%nat then half else zero;
                                fraction (N.of_nat p) 10])
                     (seq 1 9)).

(** A store holding one object, and one holding two. *)
Definition oneObject : State := mkState [song "A"] [] 0 0.
Definition twoObjects : State := mkState [song "A"; song "B"] [] 0 0.

(** A file tree in which no file can be statted, and one with a single
    3 MiB file. *)
Definition unreadable : string -> option Z := fun _ => None.
Definition oneFile : string -> option Z :=
  fun p => if String.eqb p "/audio/track.mp3" then Some 3145728 else None.

(** A stand-in for [path.extname] on the example paths. *)
Definition mp3Ext : string -> string := fun _ => ".mp3"%string.

Fixpoint repeatChar (c : ascii) (n : nat) : string :=
  match n with
  | O => EmptyString
  | S n' => String c (repeatChar c n')
  end.

(** A music item whose title tag is 4096 characters long. *)
Definition longTitled : AudioItem :=
  mkItem (Some "/audio/long.mp3"%string) (repeatChar "a"%char 4096) None "music"
         180000 None false false false None None false.

(** An environment in which every [spawn] succeeds. *)
Definition calm : Env := mkEnv (fun _ => false) false "/temp/concat_1000.txt".

(** An engine with one live listener and a running pipeline. *)
Definition onAir : EnhancedStreamManager.State :=
  EnhancedStreamManager.mkState [mkClient 0 false] (Some 7%nat) (Some 7%nat)
                                (Some (song "A")) None 8 8 [].

End Examples.

(** ** Further predicates and scenarios *)

Module Bounds.
Import PlaylistGenerator.

(** The history holds at most [maxHistorySize] titles. *)
Definition history_bounded (st : State) : Prop :=
  (length (lastPlayedMusic st) <= maxHistorySize)%nat.

(** A computation that keeps a property of the state whenever it
    returns. *)
Definition keeps {A} (P : State -> Prop) (c : Gen A) : Prop :=
  forall st a st', c st = Some (a, st') -> P st -> P st'.

(** Every member carries the [isGapless] mark in store [hp]. *)
Definition all_gapless (hp : list AudioItem) (members : list ref) : Prop :=
  Forall (fun r => isGapless (hp !!! r) = true) members.

End Bounds.

Module EngineInvariants.
Import StreamManager StreamManagerClients.

(** Exactly the process in [ffmpegProcess] has been started and not
    killed, and the current stream, if any, is that process's output. *)
Definition single_pipeline (st : State) : Prop :=
  alive (trace st) [] = match ffmpegProcess st with
                        | Some p => [p]
                        | None => []
                        end /\
  (currentStream st = None \/ currentStream st = ffmpegProcess st).

(** The metadata writes of one broadcast: one packet per client that is
    not destroyed, in the order of the listener set. *)
Definition metadataWrites (track : AudioItem) (cs : list Client) : list Event :=
  map (fun c => Wrote (client_id c) (EnhancedStreamManager.icyPacket track))
      (List.filter (fun c => negb (destroyed c)) cs).

End EngineInvariants.

Module LoopSteps.
Import PlaylistGenerator RadioScheduler RadioSchedulerLoop.

(** The same step with the scheduler's [isPlaying] flag set to [b]. *)
Definition flagged_step (b : bool) (st : Step) : Step :=
  mkStep (mkScheduler (generator (scheduler st)) (queue (scheduler st))
                      (currentTrack (scheduler st)) b)
         (played st) (pending st).

Definition flagged_scheduler (b : bool) (s : Scheduler) : Scheduler :=
  mkScheduler (generator s) (queue s) (currentTrack s) b.

End LoopSteps.

Module Scenarios.
Import JS PlaylistGenerator.

(** The run of [generatePlaylist(10)] on ten songs with the draws of
    [Examples.dodging]: its playlist and final state. *)
Definition tenSongsRun : option (list ref * State) :=
  Eval vm_compute in
    generatePlaylist Examples.dodging Examples.station 1 10 initial.

Definition tenSongs : list ref :=
  match tenSongsRun with Some (playlist, _) => playlist | None => [] end.

Definition afterTenSongs : State :=
  match tenSongsRun with Some (_, st) => st | None => initial end.

(** The state after one [createMusic] on the one-song catalog. *)
Definition afterOneSong : State :=
  mkState [set_startTime 1000 (Examples.song "A")] ["A"%string] 1 1.

(** Two listeners, the second one destroyed. *)
Definition listener : Client := mkClient 1 false.
Definition goneListener : Client := mkClient 2 true.

(** A basic engine with one listener and nothing playing. *)
Definition idle : StreamManager.State :=
  StreamManager.mkState [listener] None None 0 0 [].

(** A constant tone, standing for the sine samples. *)
Definition flatTone : nat -> Z := fun _ => 0.

(** The server's engine with a live and a destroyed listener and a
    current track. *)
Definition twoListeners : EnhancedStreamManager.State :=
  EnhancedStreamManager.mkState [listener; goneListener] None None
                                (Some (Examples.song "A")) None 0 0 [].

(** The basic engine after it started a song for one listener. *)
Definition playingRun : option StreamManager.State :=
  Eval vm_compute in
    StreamManager.playTrack flatTone Examples.calm (Examples.song "A") idle.

Definition playing : StreamManager.State :=
  match playingRun with Some st => st | None => idle end.

(** An evening on the basic engine: a listener joins, a song plays, a
    second listener joins, the next song replaces the first, the killed
    process closes, a listener leaves. *)
Definition evening : list StreamManagerClients.Call :=
  [ StreamManagerClients.CallAddClient listener;
    StreamManagerClients.CallPlayTrack Examples.calm (Examples.song "A");
    StreamManagerClients.CallAddClient goneListener;
    StreamManagerClients.CallPlayTrack Examples.calm (Examples.song "B");
    StreamManagerClients.CallProcessClose;
    StreamManagerClients.CallRemoveClient listener ].

Definition eveningRun : option StreamManager.State :=
  Eval vm_compute in
    StreamManagerClients.run flatTone evening StreamManagerClients.constructed.

Definition afterEvening : StreamManager.State :=
  match eveningRun with
  | Some st => st
  | None => StreamManagerClients.constructed
  end.

(** The tags of an mp3 encoded at 128 kbit/s. *)
Definition goodMp3 : AudioAnalyzerProbe.Metadata :=
  AudioAnalyzerProbe.mkMetadata (Some "A"%string) None None (Some 201500)
                                (Some 128).

(** One file of 3 MiB last modified at time 500: once with a probe that
    reports 201.5 s, once with a probe that fails. *)
Definition probed : AudioAnalyzerProbe.Files :=
  AudioAnalyzerProbe.mkFiles
    (fun p => if String.eqb p "/audio/track.mp3" then Some (3145728, 500)
              else None)
    (fun p => if String.eqb p "/audio/track.mp3" then Some (403 # 2)%Q
              else None).

Definition probeBroken : AudioAnalyzerProbe.Files :=
  AudioAnalyzerProbe.mkFiles
    (fun p => if String.eqb p "/audio/track.mp3" then Some (3145728, 500)
              else None)
    (fun _ => None).

(** A FLAC file of 102912 bytes. *)
Definition flacExt : string -> string := fun _ => ".flac"%string.
Definition flacFile : string -> option Z := fun _ => Some 102912.

(** A weather API that never answers. *)
Definition offline : nat -> string -> string -> string
                     -> option WeatherService.Snapshot :=
  fun _ _ _ _ => None.

(** The demo service after its first call, with Paris in the cache. *)
Definition parisCached : WeatherService.State :=
  Eval vm_compute in
    snd (WeatherService.getCurrentWeather Examples.steady offline
           (WeatherService.constructed "demo_key")).

(** A listener that connects later. *)
Definition newcomer : Client := mkClient 3 false.

(** [generatePlaylist(20)] on the catalog without music, every draw
    1/2: its playlist and final state. *)
Definition refillRun : option (list PlaylistGenerator.ref * State) :=
  Eval vm_compute in
    generatePlaylist Examples.steady Examples.forecasts 1 20 initial.

Definition refillPlaylist : list PlaylistGenerator.ref :=
  match refillRun with Some (playlist, _) => playlist | None => [] end.

Definition afterRefill : State :=
  match refillRun with Some (_, st) => st | None => initial end.

End Scenarios.

(** ** Facts about the primitives *)

Module JSFacts.
Import JS.

Lemma floor_mul_lt (r : Draw) (n : N) : (0 < n)%N -> (floor_mul r n < n)%N.
Proof.
  intros Hn. unfold floor_mul. destruct r as [a b Hab]. cbn.
  apply N.Div0.div_lt_upper_bound. nia.
Qed.

(** The period drawn at a position is 5, 6 or 7. *)
Lemma period_range (r : Draw) :
  (5 <= 5 + N.to_nat (floor_mul r 3) <= 7)%nat.
Proof. pose proof (floor_mul_lt r 3). lia. Qed.

(** The number of ads drawn by [createAdSegment] is 1 or 2. *)
Lemma adCount_range (r : Draw) :
  (1 <= N.to_nat (floor_mul r 2) + 1 <= 2)%nat.
Proof. pose proof (floor_mul_lt r 2). lia. Qed.

End JSFacts.

(** ** Facts about the playlist generator *)

Module GeneratorFacts.
Import JS PlaylistGenerator Invariants JSFacts.

Lemma bind_Some {A B} (c : Gen A) (k : A -> Gen B) st a st' :
  c st = Some (a, st') -> bind c k st = k a st'.
Proof. intros H. unfold bind. now rewrite H. Qed.

Lemma bind_None {A B} (c : Gen A) (k : A -> Gen B) st :
  c st = None -> bind c k st = None.
Proof. intros H. unfold bind. now rewrite H. Qed.

Lemma bind_inv {A B} (c : Gen A) (k : A -> Gen B) st b st2 :
  bind c k st = Some (b, st2) ->
  exists a st1, c st = Some (a, st1) /\ k a st1 = Some (b, st2).
Proof.
  unfold bind. destruct (c st) as [[a st1]|]; [|discriminate].
  intros H. now exists a, st1.
Qed.

(** The object just allocated sits at the old end of the store. *)
Lemma lookup_total_fresh (hp : list AudioItem) (o : AudioItem) :
  (hp ++ [o]) !!! length hp = o.
Proof. rewrite lookup_total_app_r by lia. now rewrite Nat.sub_diag. Qed.

Lemma alter_keeps {B} (g : AudioItem -> B) f r r' (hp : list AudioItem) :
  (forall o, g (f o) = g o) -> g (alter f r hp !!! r') = g (hp !!! r').
Proof.
  intros Hf. rewrite list_lookup_total_alter.
  case_decide as Hd; [|reflexivity].
  destruct Hd as [<- _]. apply Hf.
Qed.

Lemma alter_hit f r (hp : list AudioItem) :
  (r < length hp)%nat -> alter f r hp !!! r = f (hp !!! r).
Proof. apply list_lookup_total_alter_eq. Qed.

(** The weather table of the specification. *)
Lemma mapWeatherToType_table :
  mapWeatherToType "light rain" = RAIN /\
  mapWeatherToType "foggy morning" = FOG /\
  mapWeatherToType "clear skies" = SUN /\
  mapWeatherToType "strong wind" = WIND /\
  mapWeatherToType "overcast" = CLOUDY /\
  mapWeatherToType "hail" = CLOUDY.
Proof. repeat split. Qed.

Section Facts.
Variable w : World.
Variable lib : Library.

(** A draw from a pool yields a fresh object that copies a pool member
    and leaves the history alone. *)
Lemma getRandomFrom_cons x xs st :
  exists o,
    In o (x :: xs) /\
    getRandomFrom w (x :: xs) st =
      Some (Some (length (heap st)),
            mkState (heap st ++ [o]) (lastPlayedMusic st)
                    (S (randomCalls st)) (dateCalls st)).
Proof.
  set (i := N.to_nat (floor_mul (random w (randomCalls st))
                                (N.of_nat (length (x :: xs))))).
  exists (nth i (x :: xs) x). split.
  - destruct (Nat.lt_ge_cases i (length (x :: xs))) as [Hlt|Hge].
    + now apply nth_In.
    + rewrite nth_overflow by exact Hge. now left.
  - reflexivity.
Qed.

Lemma getRandomFrom_nil st : getRandomFrom w [] st = Some (None, st).
Proof. reflexivity. Qed.

(** The history never grows beyond its capacity. *)
Lemma addToHistory_bounded t st st' :
  (length (lastPlayedMusic st) <= maxHistorySize)%nat ->
  addToHistory t st = Some (tt, st') ->
  (length (lastPlayedMusic st') <= maxHistorySize)%nat.
Proof.
  unfold addToHistory. intros Hlen [= <-]. cbn [lastPlayedMusic].
  destruct (maxHistorySize <? _)%nat eqn:Hover.
  - destruct (lastPlayedMusic st) as [|h hist]; cbn in *;
      rewrite ?length_app in *; cbn in *; lia.
  - now apply Nat.ltb_ge in Hover.
Qed.

(** *** The anti-repeat retry *)

(** When the pool is not empty and every title of it is in the history,
    no call depth is enough for [createMusic] to return. *)
Lemma createMusic_all_recent depth st :
  music lib <> [] ->
  (forall o, In o (music lib) ->
             array_includes (lastPlayedMusic st) (title o) = true) ->
  createMusic w lib depth st = None.
Proof.
  intros Hne Hall. revert st Hall.
  induction depth as [|depth IH]; intros st Hall; [reflexivity|].
  destruct (music lib) as [|x xs] eqn:Hpool; [congruence|].
  destruct (getRandomFrom_cons x xs st) as (o & Hin & Hdraw).
  cbn [createMusic]. unfold getRandomMusic. rewrite Hpool.
  rewrite (bind_Some _ _ _ _ _ Hdraw).
  unfold load at 1. unfold bind at 1. cbn [heap].
  rewrite lookup_total_fresh.
  unfold wasRecentlyPlayed at 1. unfold bind at 1. cbn [lastPlayedMusic].
  rewrite (Hall o Hin).
  apply IH. cbn [lastPlayedMusic]. exact Hall.
Qed.

(** *** The station-id override *)

(** [determineContentType] always returns; it returns [station_id]
    exactly when the position is positive and a multiple of the period
    drawn at this very call. *)
Lemma determineContentType_forced position st :
  exists ct st',
    determineContentType w position st = Some (ct, st') /\
    (ct = station_id <->
     (0 < position)%nat /\
     (position mod (5 + N.to_nat (floor_mul (random w (S (randomCalls st))) 3))
      = 0)%nat).
Proof.
  unfold determineContentType, bind, Math_random, ret.
  cbn [randomCalls heap lastPlayedMusic dateCalls].
  destruct (0 <? position)%nat eqn:Hpos.
  - apply Nat.ltb_lt in Hpos.
    cbn [randomCalls heap lastPlayedMusic dateCalls].
    destruct (position mod _ =? 0)%nat eqn:Hmod.
    + apply Nat.eqb_eq in Hmod. eexists _, _. split; [reflexivity|]. tauto.
    + apply Nat.eqb_neq in Hmod.
      repeat match goal with
             | |- context [if ?b then _ else _] => destruct b
             end;
        (eexists _, _; split; [reflexivity|]; split;
         [discriminate|intros [_ H]; contradiction]).
  - apply Nat.ltb_ge in Hpos.
    repeat match goal with
           | |- context [if ?b then _ else _] => destruct b
           end;
      (eexists _, _; split; [reflexivity|]; split;
       [discriminate|intros [H _]; lia]).
Qed.

(** Below position 5 no station-id is forced; at a positive multiple of
    210 one always is. *)
Lemma determineContentType_early position st ct st' :
  (position < 5)%nat ->
  determineContentType w position st = Some (ct, st') -> ct <> station_id.
Proof.
  intros Hlt Hrun.
  destruct (determineContentType_forced position st) as (ct0 & st0 & Heq & Hiff).
  rewrite Hrun in Heq. injection Heq as <- <-.
  intros Hct. apply Hiff in Hct as [Hpos Hmod].
  pose proof (period_range (random w (S (randomCalls st)))) as Hq.
  rewrite Nat.mod_small in Hmod by lia. lia.
Qed.

Lemma determineContentType_210 k st :
  exists st', determineContentType w (210 * S k) st = Some (station_id, st').
Proof.
  destruct (determineContentType_forced (210 * S k) st)
    as (ct & st' & Heq & Hiff).
  exists st'. rewrite Heq. f_equal. f_equal. apply Hiff.
  split; [lia|].
  pose proof (period_range (random w (S (randomCalls st)))) as Hq.
  set (q := (5 + N.to_nat (floor_mul (random w (S (randomCalls st))) 3))%nat) in *.
  assert (Hcases : q = 5%nat \/ q = 6%nat \/ q = 7%nat) by lia.
  destruct Hcases as [->|[->| ->]].
  - replace (210 * S k)%nat with (42 * S k * 5)%nat by lia.
    apply Nat.Div0.mod_mul.
  - replace (210 * S k)%nat with (35 * S k * 6)%nat by lia.
    apply Nat.Div0.mod_mul.
  - replace (210 * S k)%nat with (30 * S k * 7)%nat by lia.
    apply Nat.Div0.mod_mul.
Qed.

(** *** The ad segment *)

Lemma pushAds_no_ads adCount segment st :
  ads lib = [] ->
  pushAds w lib adCount segment st = Some (segment, st).
Proof.
  intros Hads. revert segment st.
  induction adCount as [|n IH]; intros segment st; [reflexivity|].
  cbn [pushAds]. unfold getRandomAd. rewrite Hads.
  rewrite (bind_Some _ _ _ _ _ (getRandomFrom_nil st)). apply IH.
Qed.

Lemma createAdSegment_no_ads st :
  ads lib = [] -> transitions lib TO_AD = [] ->
  createAdSegment w lib st =
    Some ([length (heap st)],
          mkState (heap st ++ [fallbackItem (dateNow w (dateCalls st))])
                  (lastPlayedMusic st) (S (randomCalls st)) (S (dateCalls st))).
Proof.
  intros Hads Htr. unfold createAdSegment, getRandomDJTransition.
  rewrite Htr. rewrite (bind_Some _ _ _ _ _ (getRandomFrom_nil st)).
  unfold bind at 1. unfold Math_random at 1.
  rewrite (bind_Some _ _ _ _ _ (pushAds_no_ads _ _ _ Hads)).
  reflexivity.
Qed.

(** *** Gapless sequences *)

(** What the [forEach] of [createGaplessSequence] leaves in the store. *)
Lemma setConsecutiveTiming_spec items : forall t st,
  exists hp',
    setConsecutiveTiming items t st =
      Some (tt, mkState hp' (lastPlayedMusic st) (randomCalls st) (dateCalls st)) /\
    length hp' = length (heap st) /\
    (forall r, duration (hp' !!! r) = duration (heap st !!! r) /\
               isGaplessStart (hp' !!! r) = isGaplessStart (heap st !!! r) /\
               isGaplessEnd (hp' !!! r) = isGaplessEnd (heap st !!! r)) /\
    (forall r, ~ In r items -> hp' !!! r = heap st !!! r) /\
    (NoDup items -> allocated (heap st) items ->
       (forall r0, head items = Some r0 -> startTime (hp' !!! r0) = Some t) /\
       contiguous hp' items).
Proof.
  induction items as [|item rest IH]; intros t st.
  - exists (heap st). destruct st as [hp hist rc dc]. cbn.
    split; [reflexivity|]. split; [reflexivity|].
    split; [intros r; auto|]. split; [reflexivity|].
    intros _ _. split.
    + intros r0 Hr0. discriminate.
    + intros i a b Ha. rewrite lookup_nil in Ha. discriminate.
  - set (hp1 := alter set_isGapless item (alter (set_startTime t) item (heap st))).
    set (st1 := mkState hp1 (lastPlayedMusic st) (randomCalls st) (dateCalls st)).
    destruct (IH (t + duration (hp1 !!! item)) st1)
      as (hp' & Hrun & Hlen & Hkeep & Hout & Hseq).
    exists hp'. split; [exact Hrun|].
    assert (Hlen1 : length hp1 = length (heap st))
      by (unfold hp1; now rewrite !length_alter).
    split; [cbn in Hlen; congruence|].
    split.
    { intros r. destruct (Hkeep r) as (Hd & Hs & He). cbn [heap st1] in *.
      rewrite Hd, Hs, He. unfold hp1.
      rewrite !(alter_keeps duration), !(alter_keeps isGaplessStart),
        !(alter_keeps isGaplessEnd) by reflexivity.
      auto. }
    split.
    { intros r Hr. rewrite Hout by (intros Hin; apply Hr; now right).
      cbn [heap st1]. unfold hp1.
      rewrite !list_lookup_total_alter_ne; [reflexivity| |];
        intros ->; apply Hr; now left. }
    intros Hnd Hall.
    apply NoDup_cons in Hnd as [Hfresh Hnd].
    apply Forall_cons in Hall as [Hitem Hall].
    assert (Hall1 : allocated (heap st1) rest).
    { unfold allocated. cbn [heap st1]. now rewrite Hlen1. }
    destruct (Hseq Hnd Hall1) as [Hhead Hcont].
    assert (Hself : hp' !!! item = hp1 !!! item).
    { apply Hout. intros Hin. apply Hfresh. now apply list_elem_of_In. }
    assert (Hstart : startTime (hp' !!! item) = Some t).
    { rewrite Hself. unfold hp1.
      rewrite (alter_keeps startTime) by reflexivity.
      now rewrite alter_hit. }
    split.
    { intros r0 Hr0. cbn in Hr0. now injection Hr0 as <-. }
    intros [|i] a b Ha Hb.
    + cbn in Ha. injection Ha as <-.
      exists t. split; [exact Hstart|].
      rewrite Hself. apply Hhead.
      destruct rest as [|b' rest']; [discriminate|].
      cbn in Hb. now injection Hb as ->.
    + apply (Hcont i a b Ha Hb).
Qed.

Lemma createGaplessSequence_spec items st :
  (2 <= length items)%nat -> NoDup items -> allocated (heap st) items ->
  exists st',
    createGaplessSequence w items st = Some (items, st') /\
    contiguous (heap st') items /\ flagged (heap st') items.
Proof.
  intros Hlen Hnd Hall.
  destruct items as [|first rest] eqn:Hitems; [cbn in Hlen; lia|].
  rewrite <- Hitems in *.
  assert (Hhead : head items = Some first) by now rewrite Hitems.
  destruct (last items) as [final|] eqn:Hlast;
    [|apply last_None in Hlast; congruence].
  assert (Hnth0 : nth 0 items 0%nat = first) by now rewrite Hitems.
  assert (HnthL : nth (length items - 1) items 0%nat = final).
  { rewrite nth_lookup. rewrite last_lookup in Hlast.
    replace (length items - 1)%nat with (pred (length items)) by lia.
    now rewrite Hlast. }
  assert (Hfirst : (first < length (heap st))%nat).
  { unfold allocated in Hall. rewrite Forall_forall in Hall.
    apply Hall. rewrite Hitems. now left. }
  assert (Hfinal : (final < length (heap st))%nat).
  { unfold allocated in Hall. rewrite Forall_forall in Hall.
    apply Hall. now apply last_Some_elem_of. }
  set (hp2 := alter set_isGaplessEnd final
                (alter set_isGaplessStart first (heap st))).
  set (st3 := mkState hp2 (lastPlayedMusic st) (randomCalls st)
                      (S (dateCalls st))).
  destruct (setConsecutiveTiming_spec items (dateNow w (dateCalls st)) st3)
    as (hp' & Hrun & _ & Hkeep & _ & Hseq).
  assert (Hall3 : allocated (heap st3) items).
  { unfold allocated. cbn [heap st3]. unfold hp2.
    now rewrite !length_alter. }
  destruct (Hseq Hnd Hall3) as [_ Hcont].
  exists (mkState hp' (lastPlayedMusic st3) (randomCalls st3) (dateCalls st3)).
  split; [|split; [exact Hcont|]].
  - unfold createGaplessSequence.
    replace (length items <=? 1)%nat with false
      by (symmetry; apply Nat.leb_gt; lia).
    rewrite Hnth0, HnthL.
    unfold bind at 1. unfold update at 1.
    unfold bind at 1. unfold update at 1.
    unfold bind at 1. unfold Date_now at 1.
    cbn [heap lastPlayedMusic randomCalls dateCalls].
    fold hp2. fold st3.
    rewrite (bind_Some _ _ _ _ _ Hrun). reflexivity.
  - split.
    + exists first. split; [exact Hhead|].
      cbn [heap].
      destruct (Hkeep first) as (_ & -> & _). cbn [heap st3]. unfold hp2.
      rewrite (alter_keeps isGaplessStart) by reflexivity.
      now rewrite alter_hit.
    + exists final. split; [exact Hlast|].
      cbn [heap].
      destruct (Hkeep final) as (_ & _ & ->). cbn [heap st3]. unfold hp2.
      rewrite alter_hit by now rewrite length_alter.
      reflexivity.
Qed.

(** *** Every position contributes one or two items *)

Lemma createGaplessSequence_same_array items st r st' :
  createGaplessSequence w items st = Some (r, st') -> r = items.
Proof.
  unfold createGaplessSequence.
  destruct (length items <=? 1)%nat; [now intros [= <- _]|].
  intros H.
  repeat (apply bind_inv in H as (? & ? & _ & H)).
  now injection H as <- _.
Qed.

Lemma createMusicWithIntro_length depth st l st' :
  createMusicWithIntro w lib depth st = Some (l, st') ->
  (1 <= length l <= 2)%nat.
Proof.
  unfold createMusicWithIntro. intros H.
  apply bind_inv in H as (intro & ? & _ & H).
  apply bind_inv in H as (m & ? & _ & H).
  destruct intro as [i|].
  - apply createGaplessSequence_same_array in H as ->. cbn. lia.
  - injection H as <- _. cbn. lia.
Qed.

Lemma createMusicWithOutro_length depth st l st' :
  createMusicWithOutro w lib depth st = Some (l, st') ->
  (1 <= length l <= 2)%nat.
Proof.
  unfold createMusicWithOutro. intros H.
  apply bind_inv in H as (m & ? & _ & H).
  apply bind_inv in H as (outro & ? & _ & H).
  destruct outro as [o|].
  - apply createGaplessSequence_same_array in H as ->. cbn. lia.
  - injection H as <- _. cbn. lia.
Qed.

Lemma single_length {A} (c : Gen A) st l st' :
  (x <~ c ;; ret [x]) st = Some (l, st') -> length l = 1%nat.
Proof.
  intros H. apply bind_inv in H as (x & ? & _ & H). now injection H as <- _.
Qed.

(** Whenever the loop returns, the playlist has between one and two items
    per position. *)
Lemma generateFrom_length depth remaining : forall i playlist st result st',
  generateFrom w lib depth remaining i playlist st = Some (result, st') ->
  (length playlist + remaining <= length result
   <= length playlist + 2 * remaining)%nat.
Proof.
  induction remaining as [|n IH]; intros i playlist st result st' H.
  - injection H as <- _. lia.
  - cbn [generateFrom] in H.
    apply bind_inv in H as (ct & st1 & _ & H).
    apply bind_inv in H as (pushed & st2 & Hpush & H).
    apply IH in H. rewrite length_app in H.
    assert (1 <= length pushed <= 2)%nat; [|lia].
    destruct ct.
    + eapply createMusicWithIntro_length; eauto.
    + eapply createMusicWithOutro_length; eauto.
    + apply single_length in Hpush. lia.
    + apply single_length in Hpush. lia.
    + apply single_length in Hpush. lia.
    + apply single_length in Hpush. lia.
Qed.

Lemma generatePlaylist_length depth count st playlist st' :
  generatePlaylist w lib depth count st = Some (playlist, st') ->
  (count <= length playlist <= 2 * count)%nat.
Proof. intros H. apply generateFrom_length in H. cbn in H. lia. Qed.

(** *** Builders that always return *)

Lemma returns_ret {A} (a : A) : returns (ret a).
Proof. intros st. now exists a, st. Qed.

Lemma returns_bind {A B} (c : Gen A) (k : A -> Gen B) :
  returns c -> (forall a, returns (k a)) -> returns (bind c k).
Proof.
  intros Hc Hk st. destruct (Hc st) as (a & st1 & Ha).
  destruct (Hk a st1) as (b & st2 & Hb).
  exists b, st2. now rewrite (bind_Some _ _ _ _ _ Ha).
Qed.

Lemma returns_Date_now : returns (Date_now w).
Proof. intros st. eexists _, _. reflexivity. Qed.

Lemma returns_alloc o : returns (alloc o).
Proof. intros st. eexists _, _. reflexivity. Qed.

Lemma returns_update r f : returns (update r f).
Proof. intros st. eexists _, _. reflexivity. Qed.

Lemma returns_getRandomFrom array : returns (getRandomFrom w array).
Proof.
  intros st. destruct array as [|x xs].
  - eexists _, _. apply getRandomFrom_nil.
  - destruct (getRandomFrom_cons x xs st) as (o & _ & H). eexists _, _. exact H.
Qed.

Lemma returns_createFallbackItem : returns (createFallbackItem w).
Proof.
  apply returns_bind; [apply returns_Date_now|]. intros now. apply returns_alloc.
Qed.

Lemma returns_setConsecutiveTiming items t : returns (setConsecutiveTiming items t).
Proof.
  intros st. destruct (setConsecutiveTiming_spec items t st) as (hp' & H & _).
  eexists _, _. exact H.
Qed.

Lemma returns_createGaplessSequence items : returns (createGaplessSequence w items).
Proof.
  unfold createGaplessSequence.
  destruct (length items <=? 1)%nat; [apply returns_ret|].
  repeat (apply returns_bind; [|intros ?]);
    auto using returns_update, returns_Date_now,
               returns_setConsecutiveTiming, returns_ret.
Qed.

Lemma returns_stamped (c : Gen (option ref)) :
  returns c ->
  returns (x <~ c ;;
           match x with
           | None => createFallbackItem w
           | Some s => now <~ Date_now w ;; update s (set_startTime now) ;;; ret s
           end).
Proof.
  intros Hc. apply returns_bind; [exact Hc|]. intros [s|].
  - repeat (apply returns_bind; [|intros ?]);
      auto using returns_update, returns_Date_now, returns_ret.
  - apply returns_createFallbackItem.
Qed.

(** With an empty music pool [createMusic] returns the filler item at
    once, so every builder and the whole loop return. *)
Lemma returns_createMusic_no_music depth :
  music lib = [] -> returns (createMusic w lib (S depth)).
Proof.
  intros Hm st. cbn [createMusic]. unfold getRandomMusic. rewrite Hm.
  rewrite (bind_Some _ _ _ _ _ (getRandomFrom_nil st)).
  apply returns_createFallbackItem.
Qed.

Lemma returns_generateFrom_no_music depth remaining :
  music lib = [] ->
  forall i playlist, returns (generateFrom w lib (S depth) remaining i playlist).
Proof.
  intros Hm. induction remaining as [|n IH]; intros i playlist.
  - apply returns_ret.
  - cbn [generateFrom].
    apply returns_bind.
    { intros st. destruct (determineContentType_forced i st) as (ct & st' & H & _).
      now exists ct, st'. }
    intros ct. apply returns_bind; [|intros pushed; apply IH].
    pose proof (returns_createMusic_no_music depth Hm) as Hmusic.
    destruct ct.
    + unfold createMusicWithIntro.
      apply returns_bind; [apply returns_getRandomFrom|]. intros intro.
      apply returns_bind; [exact Hmusic|]. intros m.
      destruct intro; [apply returns_createGaplessSequence|apply returns_ret].
    + unfold createMusicWithOutro.
      apply returns_bind; [exact Hmusic|]. intros m.
      apply returns_bind; [apply returns_getRandomFrom|]. intros outro.
      destruct outro; [apply returns_createGaplessSequence|apply returns_ret].
    + apply returns_bind; [exact Hmusic|]. intros x. apply returns_ret.
    + apply returns_bind; [|intros x; apply returns_ret].
      apply returns_stamped, returns_getRandomFrom.
    + apply returns_bind; [|intros x; apply returns_ret].
      apply returns_stamped, returns_getRandomFrom.
    + apply returns_bind; [|intros x; apply returns_ret].
      apply returns_stamped, returns_getRandomFrom.
Qed.

(** With an empty music pool, [generatePlaylist(count)] returns a
    playlist of at least [count] items at any positive call depth. *)
Lemma generatePlaylist_no_music depth count st :
  music lib = [] ->
  exists playlist st',
    generatePlaylist w lib (S depth) count st = Some (playlist, st') /\
    (count <= length playlist <= 2 * count)%nat.
Proof.
  intros Hm.
  destruct (returns_generateFrom_no_music depth count Hm 0%nat [] st)
    as (playlist & st' & H).
  exists playlist, st'. split; [exact H|].
  now apply generatePlaylist_length in H.
Qed.

End Facts.
End GeneratorFacts.

(** ** Segments built by the generator *)

Module SegmentFacts.
Import JS PlaylistGenerator Invariants JSFacts GeneratorFacts.

Section Built.
Variable w : World.
Variable lib : Library.

(** A draw either finds the pool empty or allocates one object at the
    end of the store. *)
Lemma getRandomFrom_inv array st r st' :
  getRandomFrom w array st = Some (r, st') ->
  (r = None /\ st' = st) \/
  (r = Some (length (heap st)) /\
   length (heap st') = S (length (heap st))).
Proof.
  destruct array as [|x xs].
  - rewrite getRandomFrom_nil. intros [= <- <-]. now left.
  - destruct (getRandomFrom_cons w x xs st) as (o & _ & ->).
    intros [= <- <-]. right. split; [reflexivity|].
    cbn [heap]. rewrite length_app. cbn. lia.
Qed.

Lemma createFallbackItem_inv st r st' :
  createFallbackItem w st = Some (r, st') ->
  r = length (heap st) /\ length (heap st') = S (length (heap st)).
Proof.
  intros [= <- <-]. split; [reflexivity|].
  cbn [heap]. rewrite length_app. cbn. lia.
Qed.

(** The item [createMusic] returns was allocated during the call. *)
Lemma createMusic_fresh depth : forall st m st',
  createMusic w lib depth st = Some (m, st') ->
  (length (heap st) <= m < length (heap st'))%nat.
Proof.
  induction depth as [|depth IH]; intros st m st' H; [discriminate|].
  cbn [createMusic] in H.
  apply bind_inv in H as (drawn & st1 & Hdraw & H).
  apply getRandomFrom_inv in Hdraw as [[-> ->]|[-> Hlen1]].
  - apply createFallbackItem_inv in H as [-> Hlen]. lia.
  - apply bind_inv in H as (o & st2 & [= <- <-] & H).
    apply bind_inv in H as (recent & st3 & [= <- <-] & H).
    destruct (array_includes _ _).
    + apply IH in H. lia.
    + injection H as <- <-. cbn [heap]. rewrite length_alter. lia.
Qed.

Lemma two_fresh_members a b (hp : list AudioItem) :
  (a < b < length hp)%nat ->
  (2 <= length [a; b])%nat /\ NoDup [a; b] /\ allocated hp [a; b].
Proof.
  intros Hab. split; [cbn; lia|]. split.
  - apply NoDup_cons. split; [|apply NoDup_singleton].
    intros Hin. apply list_elem_of_singleton in Hin. lia.
  - unfold allocated. repeat constructor; lia.
Qed.

(** The result of [createGaplessSequence] on fresh members. *)
Lemma createGaplessSequence_built items st seg st' :
  (2 <= length items)%nat -> NoDup items -> allocated (heap st) items ->
  createGaplessSequence w items st = Some (seg, st') ->
  seg = items /\ contiguous (heap st') seg /\ flagged (heap st') seg.
Proof.
  intros Hlen Hnd Hall Hrun.
  destruct (createGaplessSequence_spec w items st Hlen Hnd Hall)
    as (st2 & Heq & Hc & Hf).
  rewrite Hrun in Heq. injection Heq as -> ->. auto.
Qed.

(** A DJ intro followed by a song, and a song followed by a DJ outro,
    are gapless whenever two members are returned. *)
Lemma createMusicWithIntro_gapless depth st seg st' :
  createMusicWithIntro w lib depth st = Some (seg, st') ->
  (2 <= length seg)%nat ->
  contiguous (heap st') seg /\ flagged (heap st') seg.
Proof.
  unfold createMusicWithIntro. intros H Hlen.
  apply bind_inv in H as (intro & st1 & Hintro & H).
  apply bind_inv in H as (m & st2 & Hm & H).
  apply createMusic_fresh in Hm.
  apply getRandomFrom_inv in Hintro as [[-> ->]|[-> Hlen1]].
  - injection H as <- <-. cbn in Hlen. lia.
  - destruct (two_fresh_members (length (heap st)) m (heap st2)) as (H2 & Hnd & Hall);
      [lia|].
    now apply (createGaplessSequence_built _ _ _ _ H2 Hnd Hall) in H as (-> & ?).
Qed.

Lemma createMusicWithOutro_gapless depth st seg st' :
  createMusicWithOutro w lib depth st = Some (seg, st') ->
  (2 <= length seg)%nat ->
  contiguous (heap st') seg /\ flagged (heap st') seg.
Proof.
  unfold createMusicWithOutro. intros H Hlen.
  apply bind_inv in H as (m & st1 & Hm & H).
  apply bind_inv in H as (outro & st2 & Houtro & H).
  apply createMusic_fresh in Hm.
  apply getRandomFrom_inv in Houtro as [[-> ->]|[-> Hlen2]].
  - injection H as <- <-. cbn in Hlen. lia.
  - destruct (two_fresh_members m (length (heap st1)) (heap st2)) as (H2 & Hnd & Hall);
      [lia|].
    now apply (createGaplessSequence_built _ _ _ _ H2 Hnd Hall) in H as (-> & ?).
Qed.

Lemma collected_nil st : collected st [].
Proof. split; [apply NoDup_nil_2|constructor]. Qed.

Lemma collected_push st segment st' :
  collected st segment ->
  length (heap st') = S (length (heap st)) ->
  collected st' (segment ++ [length (heap st)]).
Proof.
  intros [Hnd Hall] Hlen. unfold collected, allocated in *.
  rewrite Forall_forall in Hall. split.
  - apply NoDup_app. split; [exact Hnd|]. split; [|apply NoDup_singleton].
    intros x Hx Hin. apply list_elem_of_singleton in Hin. subst x.
    apply Hall in Hx. lia.
  - apply Forall_app. split.
    + apply Forall_forall. intros x Hx. apply Hall in Hx. lia.
    + repeat constructor. lia.
Qed.

Lemma collected_optional st segment drawn st' :
  collected st segment ->
  (drawn = None /\ st' = st) \/
  (drawn = Some (length (heap st)) /\
   length (heap st') = S (length (heap st))) ->
  collected st' (match drawn with
                 | Some a => segment ++ [a]
                 | None => segment
                 end).
Proof.
  intros Hc [[-> ->]|[-> Hlen]]; [exact Hc|]. now apply collected_push.
Qed.

Lemma collected_same_store st st' segment :
  collected st segment -> length (heap st') = length (heap st) ->
  collected st' segment.
Proof. intros [Hnd Hall] Hlen. split; [exact Hnd|]. unfold allocated. now rewrite Hlen. Qed.

Lemma pushAds_collected adCount : forall segment st segment' st',
  pushAds w lib adCount segment st = Some (segment', st') ->
  collected st segment -> collected st' segment'.
Proof.
  induction adCount as [|n IH]; intros segment st segment' st' H Hc.
  - now injection H as <- <-.
  - cbn [pushAds] in H.
    apply bind_inv in H as (ad & st1 & Had & H).
    apply getRandomFrom_inv in Had.
    apply (IH _ _ _ _ H). now apply (collected_optional st).
Qed.

(** The tail shared by the weather and the ad builder. *)
Lemma wrap_segment_gapless segment st seg st' :
  collected st segment ->
  (if (1 <? length segment)%nat then createGaplessSequence w segment
   else if (0 <? length segment)%nat then ret segment
        else x <~ createFallbackItem w ;; ret [x]) st = Some (seg, st') ->
  (2 <= length seg)%nat ->
  contiguous (heap st') seg /\ flagged (heap st') seg.
Proof.
  intros [Hnd Hall] H Hlen.
  destruct (1 <? length segment)%nat eqn:Hmany.
  - apply Nat.ltb_lt in Hmany.
    now apply (createGaplessSequence_built _ _ _ _ Hmany Hnd Hall) in H as (-> & ?).
  - apply Nat.ltb_ge in Hmany.
    destruct (0 <? length segment)%nat.
    + injection H as <- <-. lia.
    + apply bind_inv in H as (x & st1 & _ & H). injection H as <- <-.
      cbn in Hlen. lia.
Qed.

(** Ad blocks and weather segments of two or more members are gapless
    for every catalog, oracle and state. *)
Lemma createAdSegment_gapless st seg st' :
  createAdSegment w lib st = Some (seg, st') ->
  (2 <= length seg)%nat ->
  contiguous (heap st') seg /\ flagged (heap st') seg.
Proof.
  unfold createAdSegment. intros H Hlen.
  apply bind_inv in H as (transition & st1 & Htr & H).
  apply getRandomFrom_inv in Htr.
  apply bind_inv in H as (r & st2 & [= <- <-] & H).
  apply bind_inv in H as (segment & st3 & Hads & H).
  apply (wrap_segment_gapless segment st3); [|exact H|exact Hlen].
  apply (pushAds_collected _ _ _ _ _ Hads).
  apply (collected_same_store st1); [|reflexivity].
  replace (match transition with Some t => [t] | None => [] end)
    with (match transition with Some t => [] ++ [t] | None => [] end)
    by now destruct transition.
  apply (collected_optional st); [apply collected_nil|exact Htr].
Qed.

Lemma createWeatherSegment_gapless weatherData st seg st' :
  createWeatherSegment w lib weatherData st = Some (seg, st') ->
  (2 <= length seg)%nat ->
  contiguous (heap st') seg /\ flagged (heap st') seg.
Proof.
  unfold createWeatherSegment. intros H Hlen.
  apply bind_inv in H as (transition & st1 & Htr & H).
  apply getRandomFrom_inv in Htr.
  apply bind_inv in H as (announcement & st2 & Hann & H).
  apply getRandomFrom_inv in Hann.
  apply bind_inv in H as (segment & st3 & Hseg & H).
  apply (wrap_segment_gapless segment st3); [|exact H|exact Hlen].
  assert (Hfirst : collected st1 (match transition with
                                  | Some t => [t]
                                  | None => []
                                  end)).
  { replace (match transition with Some t => [t] | None => [] end)
      with (match transition with Some t => [] ++ [t] | None => [] end)
      by now destruct transition.
    apply (collected_optional st); [apply collected_nil|exact Htr]. }
  pose proof (collected_optional _ _ _ _ Hfirst Hann) as Hboth.
  destruct announcement as [a|].
  - apply bind_inv in Hseg as (u & st4 & [= <- <-] & Hseg).
    injection Hseg as <- <-.
    apply (collected_same_store st2); [exact Hboth|].
    cbn [heap]. now rewrite length_alter.
  - now injection Hseg as <- <-.
Qed.

End Built.
End SegmentFacts.

(** ** Claims about the playlist generator *)

Module GeneratorClaims.
Import JS PlaylistGenerator Invariants GeneratorFacts.

(** C1, at a catalog with one song: the first call of [createMusic]
    returns the song and records its title in the history; from then on
    [createMusic] exhausts every call depth, whatever the draws.  It
    retries without bound and never falls back to the filler item. *)
Theorem createMusic_retries_without_bound (w : World) (depth : nat) :
  exists st,
    createMusic w Examples.oneSong 1 initial = Some (0%nat, st) /\
    lastPlayedMusic st = ["A"%string] /\
    createMusic w Examples.oneSong depth st = None.
Proof.
  destruct (getRandomFrom_cons w (Examples.song "A") [] initial)
    as (o & Hin & Hdraw).
  destruct Hin as [<-|[]].
  eexists. split; [|split].
  - cbn [createMusic]. unfold getRandomMusic. cbn [music Examples.oneSong].
    rewrite (bind_Some _ _ _ _ _ Hdraw). reflexivity.
  - reflexivity.
  - apply createMusic_all_recent; [discriminate|].
    intros o [<-|[]]. reflexivity.
Qed.

(** C4, at a catalog with one song and draws of 1/2: [generatePlaylist(2)]
    selects music-solo twice; the second [createMusic] never returns, so
    no playlist is returned at any call depth. *)
Theorem generatePlaylist_two_positions_one_song (depth : nat) :
  generatePlaylist Examples.steady Examples.oneSong depth 2 initial = None.
Proof.
  destruct depth as [|depth]; [reflexivity|].
  unfold generatePlaylist. cbn [generateFrom].
  set (first := determineContentType Examples.steady 0).
  assert (H0 : first initial = Some (music_solo, mkState [] [] 1 0))
    by reflexivity.
  rewrite (bind_Some _ _ _ _ _ H0).
  assert (H1 : createMusic Examples.steady Examples.oneSong (S depth)
                 (mkState [] [] 1 0)
               = Some (0%nat,
                       mkState [set_startTime 1000 (Examples.song "A")]
                               ["A"%string] 2 1))
    by reflexivity.
  rewrite (bind_Some _ _ _ _ _ (bind_Some _ _ _ _ _ H1)).
  unfold ret at 1.
  set (second := determineContentType Examples.steady 1).
  assert (H2 : second (mkState [set_startTime 1000 (Examples.song "A")]
                               ["A"%string] 2 1)
               = Some (music_solo,
                       mkState [set_startTime 1000 (Examples.song "A")]
                               ["A"%string] 4 1))
    by reflexivity.
  rewrite (bind_Some _ _ _ _ _ H2).
  apply bind_None. apply bind_None.
  apply createMusic_all_recent; [discriminate|].
  intros o [<-|[]]. reflexivity.
Qed.

(** C5: [createGaplessSequence] is called at four places, by
    [createMusicWithIntro], [createMusicWithOutro], [createWeatherSegment]
    and [createAdSegment], each time on objects made during that call
    (fresh copies drawn from the catalog and the song created for the
    segment), which are pairwise distinct.  On every list of two or more
    distinct objects it returns the list with contiguous start times on
    every adjacent pair, the gapless-start flag on the first member and
    the gapless-end flag on the last; and so every segment of two or more
    members that one of the four builders returns has these properties. *)
Theorem createGaplessSequence_contiguous_and_flagged
  (w : World) (lib : Library) :
  (forall (items : list ref) (st : State),
     (2 <= length items)%nat -> NoDup items -> allocated (heap st) items ->
     exists st',
       createGaplessSequence w items st = Some (items, st') /\
       contiguous (heap st') items /\ flagged (heap st') items) /\
  (forall depth st seg st',
     createMusicWithIntro w lib depth st = Some (seg, st') ->
     (2 <= length seg)%nat ->
     contiguous (heap st') seg /\ flagged (heap st') seg) /\
  (forall depth st seg st',
     createMusicWithOutro w lib depth st = Some (seg, st') ->
     (2 <= length seg)%nat ->
     contiguous (heap st') seg /\ flagged (heap st') seg) /\
  (forall weatherData st seg st',
     createWeatherSegment w lib weatherData st = Some (seg, st') ->
     (2 <= length seg)%nat ->
     contiguous (heap st') seg /\ flagged (heap st') seg) /\
  (forall st seg st',
     createAdSegment w lib st = Some (seg, st') ->
     (2 <= length seg)%nat ->
     contiguous (heap st') seg /\ flagged (heap st') seg).
Proof.
  split; [intros items st; apply createGaplessSequence_spec|].
  split; [apply SegmentFacts.createMusicWithIntro_gapless|].
  split; [apply SegmentFacts.createMusicWithOutro_gapless|].
  split; [intros weatherData; apply SegmentFacts.createWeatherSegment_gapless|].
  apply SegmentFacts.createAdSegment_gapless.
Qed.

Lemma createGaplessSequence_contiguous_and_flagged_witness :
  (exists st',
     createGaplessSequence Examples.steady [0%nat; 1%nat] Examples.twoObjects
       = Some ([0%nat; 1%nat], st') /\
     contiguous (heap st') [0%nat; 1%nat] /\
     flagged (heap st') [0%nat; 1%nat]) /\
  (createWeatherSegment Examples.steady Examples.weatherDesk Examples.lightRain
     initial = Some ([0%nat; 1%nat], Examples.afterWeatherDesk) /\
   contiguous (heap Examples.afterWeatherDesk) [0%nat; 1%nat] /\
   flagged (heap Examples.afterWeatherDesk) [0%nat; 1%nat]).
Proof.
  pose proof (createGaplessSequence_contiguous_and_flagged
                Examples.steady Examples.weatherDesk)
    as (Hlist & _ & _ & Hweather & _).
  assert (Hlen : (2 <= length [0%nat; 1%nat])%nat) by (simpl; lia).
  assert (Hnd : NoDup [0%nat; 1%nat]).
  { apply NoDup_cons. split; [|apply NoDup_singleton].
    intros H. apply list_elem_of_singleton in H. discriminate. }
  assert (Hall : allocated (heap Examples.twoObjects) [0%nat; 1%nat])
    by (repeat constructor).
  assert (Hrun : createWeatherSegment Examples.steady Examples.weatherDesk
                   Examples.lightRain initial
                 = Some ([0%nat; 1%nat], Examples.afterWeatherDesk))
    by reflexivity.
  split; [exact (Hlist [0%nat; 1%nat] Examples.twoObjects Hlen Hnd Hall)|].
  split; [exact Hrun|].
  exact (Hweather Examples.lightRain initial [0%nat; 1%nat]
           Examples.afterWeatherDesk Hrun Hlen).
Defined.

(** The distinctness matters: on a list that holds the same object
    twice, which none of the four callers builds, the second assignment
    of [startTime] overwrites the first and the pair is not contiguous. *)
Lemma createGaplessSequence_same_object_twice :
  match createGaplessSequence Examples.steady [0%nat; 0%nat] Examples.oneObject with
  | Some (members, st') =>
      members = [0%nat; 0%nat] /\ ~ contiguous (heap st') members
  | None => False
  end.
Proof.
  cbn. split; [reflexivity|].
  intros H. destruct (H 0%nat 0%nat 0%nat eq_refl eq_refl) as (t & Ha & Hb).
  cbn in Ha, Hb. injection Ha as <-. discriminate.
Qed.

(** C6, at a catalog with ten songs and a station ident: there are draws
    for which [generatePlaylist(10)] selects no station-id at any of its
    ten positions; every item of the playlist is a song. *)
Theorem generatePlaylist_ten_positions_no_station_id :
  exists playlist st,
    generatePlaylist Examples.dodging Examples.station 1 10 initial
      = Some (playlist, st) /\
    length playlist = 10%nat /\
    Forall (fun r => type (heap st !!! r) = "music"%string) playlist.
Proof.
  eexists _, _. split; [vm_compute; reflexivity|].
  split; [reflexivity|]. repeat constructor.
Qed.

(** C7: when the ad pool and the TO_AD transition pool are both empty,
    [createAdSegment] returns an array of exactly one item, the filler
    item with null path and duration 5000. *)
Theorem createAdSegment_empty_pools (w : World) (lib : Library) (st : State) :
  ads lib = [] -> transitions lib TO_AD = [] ->
  exists filler st',
    createAdSegment w lib st = Some ([filler], st') /\
    heap st' !!! filler = fallbackItem (dateNow w (dateCalls st)) /\
    path (heap st' !!! filler) = None /\
    duration (heap st' !!! filler) = 5000.
Proof.
  intros Hads Htr. eexists _, _.
  split; [now apply createAdSegment_no_ads|].
  cbn [heap]. rewrite lookup_total_fresh. now repeat split.
Qed.

Lemma createAdSegment_empty_pools_witness :
  (ads Examples.oneSong = [] /\ transitions Examples.oneSong TO_AD = []) /\
  exists filler st',
    createAdSegment Examples.steady Examples.oneSong initial
      = Some ([filler], st') /\
    heap st' !!! filler = fallbackItem 1000 /\
    path (heap st' !!! filler) = None /\
    duration (heap st' !!! filler) = 5000.
Proof.
  split; [split; reflexivity|].
  apply (createAdSegment_empty_pools Examples.steady Examples.oneSong initial);
    reflexivity.
Defined.

End GeneratorClaims.

(** ** The scheduler's projections *)

Module SchedulerFacts.
Import JS PlaylistGenerator RadioScheduler.

(** The projection of an array entry has no defined field. *)
Lemma project_Sequence hp rs :
  project hp (Sequence rs) = mkUpcoming None None None None.
Proof. reflexivity. Qed.

(** Both segment triggers put an array at the front of the queue. *)
Lemma scheduleWeatherSegment_front w lib weatherNow s s' :
  scheduleWeatherSegment w lib weatherNow s = Some s' ->
  exists rs, queue s' = Sequence rs :: queue s.
Proof.
  unfold scheduleWeatherSegment, withGenerator.
  destruct (createWeatherSegment w lib weatherNow (generator s)) as [[rs g]|];
    [|discriminate].
  intros [= <-]. now exists rs.
Qed.

Lemma scheduleAdBreak_front w lib s s' :
  scheduleAdBreak w lib s = Some s' ->
  exists rs, queue s' = Sequence rs :: queue s.
Proof.
  unfold scheduleAdBreak, withGenerator.
  destruct (createAdSegment w lib (generator s)) as [[rs g]|]; [|discriminate].
  intros [= <-]. now exists rs.
Qed.

(** So after either trigger the first upcoming entry is all
    [undefined]. *)
Lemma scheduleWeatherSegment_upcoming w lib weatherNow s s' :
  scheduleWeatherSegment w lib weatherNow s = Some s' ->
  head (getUpcoming s') = Some (mkUpcoming None None None None).
Proof.
  intros H. apply scheduleWeatherSegment_front in H as (rs & Hq).
  unfold getUpcoming. now rewrite Hq.
Qed.

Lemma scheduleAdBreak_upcoming w lib s s' :
  scheduleAdBreak w lib s = Some s' ->
  head (getUpcoming s') = Some (mkUpcoming None None None None).
Proof.
  intros H. apply scheduleAdBreak_front in H as (rs & Hq).
  unfold getUpcoming. now rewrite Hq.
Qed.

(** A single item in the queue is projected field by field. *)
Lemma getUpcoming_Track g r q cur playing :
  head (getUpcoming (mkScheduler g (Track r :: q) cur playing))
  = Some (mkUpcoming (Some (title (heap g !!! r))) (artist (heap g !!! r))
                     (Some (type (heap g !!! r)))
                     (Some (duration (heap g !!! r)))).
Proof. reflexivity. Qed.

Lemma getUpcoming_at_most_5 s : (length (getUpcoming s) <= 5)%nat.
Proof. unfold getUpcoming. rewrite length_map, length_take. lia. Qed.

End SchedulerFacts.

Module SchedulerClaims.
Import JS PlaylistGenerator RadioScheduler.

(** C3, at a catalog with one rain announcement: after the weather
    trigger the queue holds the one-member segment [RAIN_01], and
    [getUpcoming] represents it by a record whose four fields are all
    [undefined], neither flattened nor taken from the first member. *)
Theorem getUpcoming_after_weather_segment (w : World) :
  exists s,
    scheduleWeatherSegment w Examples.forecasts Examples.lightRain
                           RadioScheduler.initial = Some s /\
    (exists announcement,
        queue s = [Sequence [announcement]] /\
        title (heap (generator s) !!! announcement) = "RAIN_01"%string) /\
    getUpcoming s = [mkUpcoming None None None None].
Proof.
  destruct (GeneratorFacts.getRandomFrom_cons w Examples.rainReport []
              PlaylistGenerator.initial) as (o & Hin & Hdraw).
  destruct Hin as [<-|[]].
  eexists. split; [|split].
  - unfold scheduleWeatherSegment, withGenerator, createWeatherSegment.
    cbn [generator RadioScheduler.initial].
    unfold getRandomDJTransition. cbn [transitions Examples.forecasts].
    rewrite (GeneratorFacts.bind_Some _ _ _ _ _
               (GeneratorFacts.getRandomFrom_nil w _)).
    unfold getRandomDJWeather.
    replace (weather Examples.forecasts
               (mapWeatherToType (condition Examples.lightRain)))
      with [Examples.rainReport] by reflexivity.
    rewrite (GeneratorFacts.bind_Some _ _ _ _ _ Hdraw).
    reflexivity.
  - exists 0%nat. split; reflexivity.
  - reflexivity.
Qed.

End SchedulerClaims.

(** ** The duration estimate *)

Module AnalyzerClaims.
Import JS AudioAnalyzer.

(** C8, amended: for every file whose size can be read the estimate is
    deterministic; two runs on files of the same size and the same
    lower-cased extension return the same number of milliseconds, whatever
    the random oracle, and draw no random number. *)
Theorem estimate_readable_deterministic
  (extname : string -> string) (stat1 stat2 : string -> option Z)
  (w1 w2 : World) (n1 n2 : nat) (file1 file2 : string) (size : Z) :
  stat1 file1 = Some size -> stat2 file2 = Some size ->
  toLowerCase (extname file1) = toLowerCase (extname file2) ->
  fst (estimateDurationFromFileSize extname stat1 w1 n1 file1)
  = fst (estimateDurationFromFileSize extname stat2 w2 n2 file2) /\
  snd (estimateDurationFromFileSize extname stat1 w1 n1 file1) = n1.
Proof.
  intros H1 H2 Hext. unfold estimateDurationFromFileSize.
  rewrite H1, H2, Hext. split; reflexivity.
Qed.

Lemma estimate_readable_deterministic_witness :
  Examples.oneFile "/audio/track.mp3" = Some 3145728 /\
  fst (estimateDurationFromFileSize Examples.mp3Ext Examples.oneFile
         Examples.steady 0 "/audio/track.mp3")
  = fst (estimateDurationFromFileSize Examples.mp3Ext Examples.oneFile
           Examples.twoDraws 7 "/audio/track.mp3") /\
  snd (estimateDurationFromFileSize Examples.mp3Ext Examples.oneFile
         Examples.steady 0 "/audio/track.mp3") = 0%nat.
Proof.
  split; [reflexivity|].
  apply (estimate_readable_deterministic Examples.mp3Ext
           Examples.oneFile Examples.oneFile
           Examples.steady Examples.twoDraws 0 7
           "/audio/track.mp3" "/audio/track.mp3" 3145728);
    reflexivity.
Defined.

(** C8 as stated fails for a file whose size cannot be read: two runs on
    the same file, one after the other, return different estimates. *)
Lemma estimate_unreadable_differs :
  let first := estimateDurationFromFileSize Examples.mp3Ext Examples.unreadable
                 Examples.twoDraws 0 "/audio/gone.mp3" in
  let second := estimateDurationFromFileSize Examples.mp3Ext Examples.unreadable
                  Examples.twoDraws (snd first) "/audio/gone.mp3" in
  fst first <> fst second.
Proof. vm_compute. discriminate. Qed.

(** An unreadable file gets a random estimate of at least 60000 and
    less than 300000 ms. *)
Lemma estimate_unreadable_range extname w n file :
  60000 <= fst (estimateDurationFromFileSize extname Examples.unreadable w n file)
        < 300000.
Proof.
  unfold estimateDurationFromFileSize, Examples.unreadable. cbn [fst].
  pose proof (JSFacts.floor_mul_lt (random w n) 240000). lia.
Qed.

(** A 3 MiB mp3 is estimated at 192 seconds. *)
Lemma estimate_three_mebibytes :
  estimateDurationFromFileSize Examples.mp3Ext Examples.oneFile
    Examples.steady 0 "/audio/track.mp3" = (192000, 0%nat).
Proof. reflexivity. Qed.

End AnalyzerClaims.

(** ** The broadcast engines *)

Module EngineFacts.
Import Pipeline.

Section Tone.
Variable toneValue : nat -> Z.
Import StreamManager.

Lemma stereo_frames_length start n :
  length (flat_map (fun i => int16LE (toneValue i) ++ int16LE (toneValue i))
                   (seq start n)) = (4 * n)%nat.
Proof.
  revert start. induction n as [|n IH]; intros start; [reflexivity|].
  cbn [seq flat_map]. rewrite length_app, IH. cbn. lia.
Qed.

(** Four bytes per sample: 16-bit stereo. *)
Lemma fallbackBuffer_length track :
  length (fallbackBuffer toneValue track) = (4 * fallbackSamples track)%nat.
Proof. apply stereo_frames_length. Qed.

(** The tone of the basic engine lasts the requested time to within one
    sample (1/44100 s). *)
Lemma fallbackSamples_bounds track :
  0 <= fallbackDuration track ->
  1000 * Z.of_nat (fallbackSamples track) <= fallbackDuration track * 44100
  < 1000 * (Z.of_nat (fallbackSamples track) + 1).
Proof.
  intros Hd. unfold fallbackSamples, sampleRate.
  rewrite Z2Nat.id by (apply Z.div_pos; lia).
  pose proof (Z.mul_div_le (fallbackDuration track * 44100) 1000 ltac:(lia)).
  pose proof (Z.mul_succ_div_gt (fallbackDuration track * 44100) 1000 ltac:(lia)).
  lia.
Qed.

(** Its content depends on the duration only. *)
Lemma fallbackBuffer_by_duration t1 t2 :
  fallbackDuration t1 = fallbackDuration t2 ->
  fallbackBuffer toneValue t1 = fallbackBuffer toneValue t2.
Proof. intros H. unfold fallbackBuffer, fallbackSamples. now rewrite H. Qed.

(** The basic engine starts a pipeline, connects every live client and
    feeds it the tone. *)
Lemma playFallbackAudio_broadcasts env track st :
  spawnThrows env (spawnCalls st) = false ->
  exists st',
    playFallbackAudio toneValue env track st = Some st' /\
    currentStream st' = Some (nextPid st) /\
    ffmpegProcess st' = Some (nextPid st) /\
    clients st' = clients st /\
    trace st' = trace (stopCurrentStream st)
                ++ [Spawned (nextPid st) fallbackArgs]
                ++ pipeToClients (nextPid st) (clients st)
                ++ [StdinWrite (nextPid st) (fallbackBuffer toneValue track);
                    StdinEnd (nextPid st)].
Proof.
  intros Hok. unfold playFallbackAudio, spawnProcess, stopCurrentStream.
  destruct (ffmpegProcess st); cbn; rewrite Hok; cbn;
    eexists; (split; [reflexivity|]); cbn; repeat split;
    now rewrite <- !app_assoc.
Qed.

End Tone.

Import EnhancedStreamManager.

(** The engine the server runs synthesizes nothing: its fallback only
    tears the pipeline down. *)
Lemma playFallbackAudio_silent track st :
  let st' := playFallbackAudio track st in
  currentStream st' = None /\
  ffmpegProcess st' = None /\
  trace st' = trace st ++ match ffmpegProcess st with
                          | Some p => [Killed p]
                          | None => []
                          end.
Proof. repeat split. Qed.

Lemma metadataLength_blocks track :
  let n := Z.of_nat (length (metadataBuffer track)) in
  n <= 16 * metadataLength track < n + 16.
Proof.
  cbn zeta. unfold metadataLength.
  pose proof (Z.mul_div_le (Z.of_nat (length (metadataBuffer track)) + 15) 16
                ltac:(lia)).
  pose proof (Z.mul_succ_div_gt (Z.of_nat (length (metadataBuffer track)) + 15) 16
                ltac:(lia)).
  lia.
Qed.

(** The packet is one byte followed by [metadataLength] blocks of 16
    bytes: the text, then zeros; the first byte is the block count
    modulo 256. *)
Lemma icyPacket_shape track :
  Z.of_nat (length (icyPacket track)) = 1 + 16 * metadataLength track /\
  head (icyPacket track) = Some (metadataLength track mod 256) /\
  tail (icyPacket track)
  = metadataBuffer track ++
    repeat 0 (Z.to_nat (16 * metadataLength track)
              - length (metadataBuffer track)).
Proof.
  pose proof (metadataLength_blocks track) as Hk. cbn zeta in Hk.
  unfold icyPacket, paddedMetadata. cbn [length head tail].
  rewrite length_app, repeat_length.
  replace (metadataLength track * 16) with (16 * metadataLength track) by lia.
  repeat split.
  - lia.
  - f_equal. change 255 with (Z.ones 8). rewrite Z.land_ones by lia.
    reflexivity.
Qed.

(** While the text takes at most 4080 bytes the first byte is the block
    count itself. *)
Lemma icyPacket_first_byte_short track :
  (length (metadataBuffer track) <= 4080)%nat ->
  head (icyPacket track) = Some (metadataLength track).
Proof.
  intros Hlen. destruct (icyPacket_shape track) as (_ & -> & _).
  pose proof (metadataLength_blocks track) as Hk. cbn zeta in Hk.
  f_equal. apply Z.mod_small. lia.
Qed.

Lemma sendICYMetadata_keeps c st : same_pipeline (sendICYMetadata c st) st.
Proof.
  unfold sendICYMetadata, same_pipeline.
  destruct (currentTrack st) eqn:Ht; cbn; now rewrite ?Ht.
Qed.

Lemma send_to_all_keeps cs : forall st,
  same_pipeline
    (fold_left (fun s c => if destroyed c then s else sendICYMetadata c s) cs st)
    st.
Proof.
  induction cs as [|c cs IH]; intros st; [now repeat split|].
  cbn [fold_left].
  destruct (IH (if destroyed c then st else sendICYMetadata c st))
    as (H1 & H2 & H3 & H4).
  unfold same_pipeline. rewrite H1, H2, H3, H4.
  destruct (destroyed c); [now repeat split|].
  apply sendICYMetadata_keeps.
Qed.

(** Sending metadata only writes to clients. *)
Lemma broadcastICYMetadata_keeps st :
  same_pipeline (broadcastICYMetadata st) st.
Proof.
  unfold broadcastICYMetadata.
  destruct (currentTrack st); [apply send_to_all_keeps|now repeat split].
Qed.

Lemma startPipeline_current env args concat st :
  match startPipeline env args concat st with
  | inl st' | inr st' => currentTrack st' = currentTrack st
  end.
Proof. unfold startPipeline. now destruct (spawnThrows env (spawnCalls st)). Qed.

Lemma playTrack_current env track st :
  currentTrack (playTrack env track st) = Some track.
Proof.
  unfold playTrack. destruct (truthy (path track)) as [file|]; [|reflexivity].
  unfold createAudioStream.
  pose proof (startPipeline_current env (audioStreamArgs track file) None
                (stopCurrentStream (with_currentTrack st track))) as H.
  destruct (startPipeline _ _ _ _) as [failed|started].
  - cbn. exact H.
  - destruct (broadcastICYMetadata_keeps started) as (-> & _). exact H.
Qed.

(** A non-empty sequence does change the engine: its first member
    becomes the current track. *)
Lemma playGaplessSequence_first env first rest st :
  currentTrack (playGaplessSequence env (first :: rest) st) = Some first.
Proof.
  unfold playGaplessSequence, createConcatFile.
  destruct (writeFileRejects env); [apply playTrack_current|].
  unfold createConcatStream.
  match goal with
  | |- context [startPipeline ?e ?a ?c ?s] =>
      pose proof (startPipeline_current e a c s) as H;
      destruct (startPipeline e a c s) as [failed|started]
  end.
  - apply playTrack_current.
  - destruct (broadcastICYMetadata_keeps started) as (-> & _). exact H.
Qed.

(** On the air, a two-member sequence kills the running pipeline, writes
    the list file, starts one pipeline over it and sends one metadata
    record to the listener. *)
Lemma playGaplessSequence_on_air :
  trace (playGaplessSequence Examples.calm
           [Examples.stationIdent; Examples.song "B"] Examples.onAir)
  = [ Killed 7;
      FileWritten "/temp/concat_1000.txt"
        (concatContent [Examples.stationIdent; Examples.song "B"]);
      Spawned 8 (concatStreamArgs "/temp/concat_1000.txt");
      Piped 8 0;
      Wrote 0 (icyPacket Examples.stationIdent) ].
Proof. reflexivity. Qed.

End EngineFacts.

Module EngineClaims.
Import EnhancedStreamManager.

(** C2, at the filler item (null path): [playTrack] of the engine the
    server runs ends with no stream and no process, and the only thing it
    does is kill the pipeline that was running.  No tone is synthesized,
    no pipeline is started and nothing is sent to the listeners. *)
Theorem playTrack_filler_goes_silent (env : Env) (now : Z) (st : State) :
  let st' := playTrack env (PlaylistGenerator.fallbackItem now) st in
  currentStream st' = None /\
  ffmpegProcess st' = None /\
  trace st' = trace st ++ match ffmpegProcess st with
                          | Some p => [Killed p]
                          | None => []
                          end.
Proof. repeat split. Qed.

(** C9, at a track whose title is 4096 bytes long: the text needs 257
    blocks and the packet is 1 + 16 * 257 bytes long, but its first byte
    is 1, not 257. *)
Theorem icyPacket_long_title :
  metadataLength Examples.longTitled = 257 /\
  length (icyPacket Examples.longTitled) = 4113%nat /\
  head (icyPacket Examples.longTitled) = Some 1.
Proof. vm_compute. repeat split. Qed.

(** C10: [playGaplessSequence] with an empty member list returns the
    engine state it was given: the pipeline, the stream, the current
    track, the listener set and the trace of outside effects (no kill, no
    spawn, no metadata write) are unchanged. *)
Theorem playGaplessSequence_empty (env : Env) (st : State) :
  playGaplessSequence env [] st = st.
Proof. reflexivity. Qed.

End EngineClaims.

(** ** The play history *)

Module HistoryFacts.
Import JS PlaylistGenerator Invariants Bounds GeneratorFacts.

Lemma keeps_ret {A} P (a : A) : keeps P (ret a).
Proof. intros st a' st' [= <- <-] H. exact H. Qed.

Lemma keeps_bind {A B} P (c : Gen A) (k : A -> Gen B) :
  keeps P c -> (forall a, keeps P (k a)) -> keeps P (bind c k).
Proof.
  intros Hc Hk st b st' H HP.
  apply bind_inv in H as (a & st1 & Ha & Hb).
  eapply Hk; [exact Hb|]. eapply Hc; eauto.
Qed.

Section History.
Variable w : World.
Variable lib : Library.

Lemma keeps_Math_random : keeps history_bounded (Math_random w).
Proof. intros st a st' [= <- <-] H. exact H. Qed.

Lemma keeps_Date_now : keeps history_bounded (Date_now w).
Proof. intros st a st' [= <- <-] H. exact H. Qed.

Lemma keeps_alloc o : keeps history_bounded (alloc o).
Proof. intros st a st' [= <- <-] H. exact H. Qed.

Lemma keeps_load r : keeps history_bounded (load r).
Proof. intros st a st' [= <- <-] H. exact H. Qed.

Lemma keeps_update r f : keeps history_bounded (update r f).
Proof. intros st a st' [= <- <-] H. exact H. Qed.

Lemma keeps_wasRecentlyPlayed t : keeps history_bounded (wasRecentlyPlayed t).
Proof. intros st a st' [= <- <-] H. exact H. Qed.

Lemma keeps_addToHistory t : keeps history_bounded (addToHistory t).
Proof.
  intros st [] st' H Hb. now apply (addToHistory_bounded t st st').
Qed.

Lemma keeps_getRandomFrom array : keeps history_bounded (getRandomFrom w array).
Proof.
  destruct array as [|x xs]; [apply keeps_ret|].
  unfold getRandomFrom.
  apply keeps_bind; [apply keeps_Math_random|]. intros r.
  apply keeps_bind; [apply keeps_alloc|]. intros c. apply keeps_ret.
Qed.

Lemma keeps_createFallbackItem : keeps history_bounded (createFallbackItem w).
Proof.
  apply keeps_bind; [apply keeps_Date_now|]. intros now. apply keeps_alloc.
Qed.

Lemma keeps_createMusic depth : keeps history_bounded (createMusic w lib depth).
Proof.
  induction depth as [|depth IH]; [intros st a st' H; discriminate|].
  cbn [createMusic].
  apply keeps_bind; [apply keeps_getRandomFrom|]. intros [m|];
    [|apply keeps_createFallbackItem].
  apply keeps_bind; [apply keeps_load|]. intros o.
  apply keeps_bind; [apply keeps_wasRecentlyPlayed|]. intros [|]; [exact IH|].
  apply keeps_bind; [apply keeps_addToHistory|]. intros _.
  apply keeps_bind; [apply keeps_Date_now|]. intros now.
  apply keeps_bind; [apply keeps_update|]. intros _. apply keeps_ret.
Qed.

Lemma keeps_setConsecutiveTiming items :
  forall t, keeps history_bounded (setConsecutiveTiming items t).
Proof.
  induction items as [|item rest IH]; intros t; [apply keeps_ret|].
  cbn [setConsecutiveTiming].
  apply keeps_bind; [apply keeps_update|]. intros _.
  apply keeps_bind; [apply keeps_update|]. intros _.
  apply keeps_bind; [apply keeps_load|]. intros o. apply IH.
Qed.

Lemma keeps_createGaplessSequence items :
  keeps history_bounded (createGaplessSequence w items).
Proof.
  unfold createGaplessSequence.
  destruct (length items <=? 1)%nat; [apply keeps_ret|].
  apply keeps_bind; [apply keeps_update|]. intros _.
  apply keeps_bind; [apply keeps_update|]. intros _.
  apply keeps_bind; [apply keeps_Date_now|]. intros now.
  apply keeps_bind; [apply keeps_setConsecutiveTiming|]. intros _.
  apply keeps_ret.
Qed.

Lemma keeps_stamped (c : Gen (option ref)) :
  keeps history_bounded c ->
  keeps history_bounded
    (x <~ c ;;
     match x with
     | None => createFallbackItem w
     | Some s => now <~ Date_now w ;; update s (set_startTime now) ;;; ret s
     end).
Proof.
  intros Hc. apply keeps_bind; [exact Hc|]. intros [s|];
    [|apply keeps_createFallbackItem].
  apply keeps_bind; [apply keeps_Date_now|]. intros now.
  apply keeps_bind; [apply keeps_update|]. intros _. apply keeps_ret.
Qed.

Lemma keeps_determineContentType position :
  keeps history_bounded (determineContentType w position).
Proof.
  intros st ct st' H Hb.
  unfold determineContentType, bind, Math_random, ret in H.
  cbn [randomCalls heap lastPlayedMusic dateCalls] in H.
  unfold history_bounded in *.
  repeat match type of H with
         | context [if ?b then _ else _] => destruct b
         end;
    cbn in H; injection H as _ <-; exact Hb.
Qed.

Lemma keeps_generateFrom depth remaining :
  forall i playlist,
    keeps history_bounded (generateFrom w lib depth remaining i playlist).
Proof.
  induction remaining as [|n IH]; intros i playlist; [apply keeps_ret|].
  cbn [generateFrom].
  apply keeps_bind; [apply keeps_determineContentType|]. intros ct.
  apply keeps_bind; [|intros pushed; apply IH].
  destruct ct.
  - unfold createMusicWithIntro.
    apply keeps_bind; [apply keeps_getRandomFrom|]. intros intro.
    apply keeps_bind; [apply keeps_createMusic|]. intros m.
    destruct intro; [apply keeps_createGaplessSequence|apply keeps_ret].
  - unfold createMusicWithOutro.
    apply keeps_bind; [apply keeps_createMusic|]. intros m.
    apply keeps_bind; [apply keeps_getRandomFrom|]. intros outro.
    destruct outro; [apply keeps_createGaplessSequence|apply keeps_ret].
  - apply keeps_bind; [apply keeps_createMusic|]. intros x. apply keeps_ret.
  - apply keeps_bind; [|intros x; apply keeps_ret].
    apply keeps_stamped, keeps_getRandomFrom.
  - apply keeps_bind; [|intros x; apply keeps_ret].
    apply keeps_stamped, keeps_getRandomFrom.
  - apply keeps_bind; [|intros x; apply keeps_ret].
    apply keeps_stamped, keeps_getRandomFrom.
Qed.

(** What [createMusic] returns: the filler when the pool is empty,
    otherwise a song whose title was not in the history, now its newest
    entry, with its start time set. *)
Lemma createMusic_result depth : forall st r st',
  createMusic w lib depth st = Some (r, st') ->
  (music lib = [] /\
   lastPlayedMusic st' = lastPlayedMusic st /\
   exists now, heap st' !!! r = fallbackItem now) \/
  (exists o now,
      In o (music lib) /\
      heap st' !!! r = set_startTime now o /\
      array_includes (lastPlayedMusic st) (title o) = false /\
      last (lastPlayedMusic st') = Some (title o)).
Proof.
  induction depth as [|depth IH]; intros st r st' H; [discriminate|].
  cbn [createMusic] in H. unfold getRandomMusic in H.
  destruct (music lib) as [|x xs] eqn:Hpool.
  - rewrite (bind_Some _ _ _ _ _ (getRandomFrom_nil w st)) in H.
    left. split; [reflexivity|].
    injection H as <- <-. cbn [lastPlayedMusic heap].
    split; [reflexivity|]. eexists. apply lookup_total_fresh.
  - destruct (getRandomFrom_cons w x xs st) as (o & Hin & Hdraw).
    rewrite (bind_Some _ _ _ _ _ Hdraw) in H.
    unfold load at 1 in H. unfold bind at 1 in H. cbn [heap] in H.
    rewrite lookup_total_fresh in H.
    unfold wasRecentlyPlayed at 1 in H. unfold bind at 1 in H.
    cbn [lastPlayedMusic] in H.
    destruct (array_includes (lastPlayedMusic st) (title o)) eqn:Hrecent.
    + apply IH in H. cbn [lastPlayedMusic] in H.
      destruct H as [(Hnil & _)|H]; [discriminate|]. right. exact H.
    + right. injection H as <- <-. cbn [heap lastPlayedMusic].
      exists o, (dateNow w (dateCalls st)).
      split; [exact Hin|]. split.
      * rewrite alter_hit by (rewrite length_app; cbn; lia).
        now rewrite lookup_total_fresh.
      * split; [exact Hrecent|].
        destruct (lastPlayedMusic st) as [|h hist]; [reflexivity|].
        destruct (maxHistorySize <? _)%nat.
        -- cbn [app tail]. apply last_snoc.
        -- apply last_snoc.
Qed.

End History.
End HistoryFacts.

(** ** Segment builders: they return, and how long the result is *)

Module BuilderFacts.
Import JS PlaylistGenerator Invariants JSFacts GeneratorFacts SegmentFacts.

Section Builders.
Variable w : World.
Variable lib : Library.

Lemma returns_pushAds adCount : forall segment,
  returns (pushAds w lib adCount segment).
Proof.
  induction adCount as [|n IH]; intros segment; [apply returns_ret|].
  cbn [pushAds]. apply returns_bind; [apply returns_getRandomFrom|].
  intros ad. apply IH.
Qed.

Lemma pushAds_length adCount : forall segment st segment' st',
  pushAds w lib adCount segment st = Some (segment', st') ->
  (length segment <= length segment' <= length segment + adCount)%nat.
Proof.
  induction adCount as [|n IH]; intros segment st segment' st' H.
  - injection H as <- _. lia.
  - cbn [pushAds] in H.
    apply bind_inv in H as (ad & st1 & _ & H).
    apply IH in H. destruct ad; rewrite ?length_app in H; cbn in H; lia.
Qed.

(** The tail shared by the weather and the ad builder returns, and
    returns the collected members or one filler. *)
Lemma wrap_segment_returns segment :
  returns (if (1 <? length segment)%nat then createGaplessSequence w segment
           else if (0 <? length segment)%nat then ret segment
                else x <~ createFallbackItem w ;; ret [x]).
Proof.
  destruct (1 <? length segment)%nat; [apply returns_createGaplessSequence|].
  destruct (0 <? length segment)%nat; [apply returns_ret|].
  apply returns_bind; [apply returns_createFallbackItem|].
  intros x. apply returns_ret.
Qed.

Lemma wrap_segment_length segment st seg st' :
  (if (1 <? length segment)%nat then createGaplessSequence w segment
   else if (0 <? length segment)%nat then ret segment
        else x <~ createFallbackItem w ;; ret [x]) st = Some (seg, st') ->
  length seg = Nat.max 1 (length segment).
Proof.
  intros H. destruct (1 <? length segment)%nat eqn:Hmany.
  - apply Nat.ltb_lt in Hmany.
    apply createGaplessSequence_same_array in H as ->. lia.
  - apply Nat.ltb_ge in Hmany.
    destruct (0 <? length segment)%nat eqn:Hsome.
    + apply Nat.ltb_lt in Hsome. injection H as <- _. lia.
    + apply Nat.ltb_ge in Hsome.
      apply bind_inv in H as (x & st1 & _ & H). injection H as <- _.
      cbn. lia.
Qed.

Lemma returns_createAdSegment : returns (createAdSegment w lib).
Proof.
  unfold createAdSegment.
  apply returns_bind; [apply returns_getRandomFrom|]. intros transition.
  apply returns_bind; [intros st; eexists _, _; reflexivity|]. intros r.
  apply returns_bind; [apply returns_pushAds|]. intros segment.
  apply wrap_segment_returns.
Qed.

Lemma createAdSegment_length st seg st' :
  createAdSegment w lib st = Some (seg, st') ->
  (1 <= length seg <= 3)%nat.
Proof.
  unfold createAdSegment. intros H.
  apply bind_inv in H as (transition & st1 & _ & H).
  apply bind_inv in H as (r & st2 & [= <- <-] & H).
  apply bind_inv in H as (segment & st3 & Hads & H).
  apply pushAds_length in Hads.
  apply wrap_segment_length in H.
  pose proof (adCount_range (random w (randomCalls st1))) as Hcount.
  destruct transition; cbn in Hads; lia.
Qed.

Lemma returns_createWeatherSegment weatherData :
  returns (createWeatherSegment w lib weatherData).
Proof.
  unfold createWeatherSegment.
  apply returns_bind; [apply returns_getRandomFrom|]. intros transition.
  apply returns_bind; [apply returns_getRandomFrom|]. intros announcement.
  apply returns_bind; [|intros segment; apply wrap_segment_returns].
  destruct announcement; [|apply returns_ret].
  apply returns_bind; [apply returns_update|]. intros _. apply returns_ret.
Qed.

Lemma createWeatherSegment_length weatherData st seg st' :
  createWeatherSegment w lib weatherData st = Some (seg, st') ->
  (1 <= length seg <= 2)%nat.
Proof.
  unfold createWeatherSegment. intros H.
  apply bind_inv in H as (transition & st1 & _ & H).
  apply bind_inv in H as (announcement & st2 & _ & H).
  apply bind_inv in H as (segment & st3 & Hseg & H).
  apply wrap_segment_length in H.
  destruct announcement as [a|].
  - apply bind_inv in Hseg as (u & st4 & _ & Hseg). injection Hseg as <- _.
    destruct transition; cbn in H; lia.
  - injection Hseg as <- _. destruct transition; cbn in H; lia.
Qed.

End Builders.
End BuilderFacts.

(** ** Further properties of the playlist generator *)

(** ** The mark on every member of a sequence *)

Module MarkFacts.
Import JS PlaylistGenerator Invariants Bounds GeneratorFacts SegmentFacts.

Lemma marked_alter f r r' (hp : list AudioItem) :
  (forall o, isGapless o = true -> isGapless (f o) = true) ->
  isGapless (hp !!! r') = true -> isGapless (alter f r hp !!! r') = true.
Proof.
  intros Hf H. rewrite list_lookup_total_alter.
  case_decide as Hd; [|exact H]. destruct Hd as [<- _]. now apply Hf.
Qed.

(** The [forEach] marks every item of the list and unmarks none. *)
Lemma setConsecutiveTiming_marks items : forall t st st',
  setConsecutiveTiming items t st = Some (tt, st') ->
  allocated (heap st) items ->
  length (heap st') = length (heap st) /\
  (forall r, isGapless (heap st !!! r) = true ->
             isGapless (heap st' !!! r) = true) /\
  (forall r, In r items -> isGapless (heap st' !!! r) = true).
Proof.
  induction items as [|item rest IH]; intros t st st' H Hall.
  - injection H as <-. split; [reflexivity|]. split; [auto|]. intros r [].
  - apply Forall_cons in Hall as [Hitem Hrest].
    cbn [setConsecutiveTiming] in H.
    apply bind_inv in H as (u1 & st1 & [= <- <-] & H).
    apply bind_inv in H as (u2 & st2 & [= <- <-] & H).
    apply bind_inv in H as (o & st3 & [= <- <-] & H).
    cbn [heap] in H.
    set (hp2 := alter set_isGapless item
                      (alter (set_startTime t) item (heap st))) in *.
    assert (Hlen2 : length hp2 = length (heap st))
      by (unfold hp2; now rewrite !length_alter).
    apply IH in H as (Hlen & Hkeep & Hin);
      [|cbn [heap]; unfold allocated; now rewrite Hlen2].
    cbn [heap] in Hlen, Hkeep.
    assert (Hkeep2 : forall r, isGapless (heap st !!! r) = true ->
                               isGapless (hp2 !!! r) = true).
    { intros r Hr. unfold hp2.
      apply marked_alter; [reflexivity|].
      apply marked_alter; [intros o Ho; exact Ho|exact Hr]. }
    split; [lia|]. split; [intros r Hr; apply Hkeep, Hkeep2, Hr|].
    intros r [<-|Hr]; [|now apply Hin].
    apply Hkeep. unfold hp2.
    rewrite alter_hit by now rewrite length_alter.
    reflexivity.
Qed.

Section Marks.
Variable w : World.
Variable lib : Library.

Lemma createGaplessSequence_marks items st seg st' :
  (2 <= length items)%nat -> allocated (heap st) items ->
  createGaplessSequence w items st = Some (seg, st') ->
  seg = items /\ all_gapless (heap st') seg.
Proof.
  intros Hlen Hall H. unfold createGaplessSequence in H.
  assert (Hmany : (length items <=? 1)%nat = false) by (apply Nat.leb_gt; lia).
  rewrite Hmany in H.
  apply bind_inv in H as (u1 & st1 & [= <- <-] & H).
  apply bind_inv in H as (u2 & st2 & [= <- <-] & H).
  apply bind_inv in H as (now & st3 & [= <- <-] & H).
  apply bind_inv in H as ([] & st4 & Htiming & [= <- <-]).
  split; [reflexivity|].
  apply setConsecutiveTiming_marks in Htiming as (_ & _ & Hin).
  - apply Forall_forall. intros r Hr. apply Hin.
    now apply list_elem_of_In.
  - cbn [heap]. unfold allocated. now rewrite !length_alter.
Qed.

Lemma wrap_segment_marked segment st seg st' :
  collected st segment ->
  (if (1 <? length segment)%nat then createGaplessSequence w segment
   else if (0 <? length segment)%nat then ret segment
        else x <~ createFallbackItem w ;; ret [x]) st = Some (seg, st') ->
  (2 <= length seg)%nat ->
  all_gapless (heap st') seg.
Proof.
  intros [_ Hall] H Hlen.
  destruct (1 <? length segment)%nat eqn:Hmany.
  - apply Nat.ltb_lt in Hmany.
    now apply (createGaplessSequence_marks _ _ _ _ Hmany Hall) in H as (-> & ?).
  - apply Nat.ltb_ge in Hmany.
    destruct (0 <? length segment)%nat.
    + injection H as <- <-. lia.
    + apply bind_inv in H as (x & st1 & _ & H). injection H as <- <-.
      cbn in Hlen. lia.
Qed.

Lemma createAdSegment_marked st seg st' :
  createAdSegment w lib st = Some (seg, st') ->
  (2 <= length seg)%nat ->
  all_gapless (heap st') seg.
Proof.
  unfold createAdSegment. intros H Hlen.
  apply bind_inv in H as (transition & st1 & Htr & H).
  apply getRandomFrom_inv in Htr.
  apply bind_inv in H as (r & st2 & [= <- <-] & H).
  apply bind_inv in H as (segment & st3 & Hads & H).
  apply (wrap_segment_marked segment st3); [|exact H|exact Hlen].
  apply (pushAds_collected _ _ _ _ _ _ _ Hads).
  apply (collected_same_store st1); [|reflexivity].
  replace (match transition with Some t => [t] | None => [] end)
    with (match transition with Some t => [] ++ [t] | None => [] end)
    by now destruct transition.
  apply (collected_optional st); [apply collected_nil|exact Htr].
Qed.

End Marks.
End MarkFacts.

Module GeneratorExtras.
Import JS PlaylistGenerator Invariants Bounds JSFacts GeneratorFacts
       SegmentFacts HistoryFacts BuilderFacts MarkFacts.

(** X1: whenever [generatePlaylist(count)] returns, the playlist holds at
    least [count] and at most [2 * count] items: every position pushes
    one item or a two-member sequence. *)
Theorem generatePlaylist_item_count
  (w : World) (lib : Library) (depth count : nat) (st : State)
  (playlist : list ref) (st' : State) :
  generatePlaylist w lib depth count st = Some (playlist, st') ->
  (count <= length playlist <= 2 * count)%nat.
Proof. apply generatePlaylist_length. Qed.

Lemma generatePlaylist_item_count_witness :
  generatePlaylist Examples.dodging Examples.station 1 10 initial
    = Some (Scenarios.tenSongs, Scenarios.afterTenSongs) /\
  (10 <= length Scenarios.tenSongs <= 2 * 10)%nat.
Proof.
  assert (H : generatePlaylist Examples.dodging Examples.station 1 10 initial
              = Some (Scenarios.tenSongs, Scenarios.afterTenSongs))
    by (vm_compute; reflexivity).
  split; [exact H|].
  apply (generatePlaylist_item_count Examples.dodging Examples.station 1 10
           initial Scenarios.tenSongs Scenarios.afterTenSongs H).
Defined.

(** X2: with an empty music pool every [createMusic] is the filler item,
    so [generatePlaylist(count)] returns at any positive call depth, for
    every oracle and state, with between [count] and [2 * count] items. *)
Theorem generatePlaylist_returns_without_music
  (w : World) (lib : Library) (depth count : nat) (st : State) :
  music lib = [] ->
  exists playlist st',
    generatePlaylist w lib (S depth) count st = Some (playlist, st') /\
    (count <= length playlist <= 2 * count)%nat.
Proof. apply generatePlaylist_no_music. Qed.

Lemma generatePlaylist_returns_without_music_witness :
  music Examples.forecasts = [] /\
  exists playlist st',
    generatePlaylist Examples.steady Examples.forecasts 1 5 initial
      = Some (playlist, st') /\
    (5 <= length playlist <= 2 * 5)%nat.
Proof.
  split; [reflexivity|].
  apply (generatePlaylist_returns_without_music
           Examples.steady Examples.forecasts 0 5 initial).
  reflexivity.
Defined.

(** X3: [determineContentType] always returns, and it selects station-id
    exactly when the position is positive and a multiple of the period
    5, 6 or 7 drawn by the second [Math.random()] of that same call; the
    weighted draw alone never selects it.  So, whatever the draws, no
    station-id is selected at positions 0 to 4, and one is selected at
    every positive multiple of 210, the least common multiple of 5, 6
    and 7. *)
Theorem station_id_iff_multiple_of_drawn_period
  (w : World) (position : nat) (st : State) :
  exists ct st',
    determineContentType w position st = Some (ct, st') /\
    (5 <= 5 + N.to_nat (floor_mul (random w (S (randomCalls st))) 3) <= 7)%nat /\
    (ct = station_id <->
     (0 < position)%nat /\
     (position mod (5 + N.to_nat (floor_mul (random w (S (randomCalls st))) 3))
      = 0)%nat) /\
    ((position < 5)%nat -> ct <> station_id) /\
    ((0 < position)%nat -> (position mod 210 = 0)%nat -> ct = station_id).
Proof.
  destruct (determineContentType_forced w position st) as (ct & st' & H & Hiff).
  exists ct, st'. split; [exact H|]. split; [apply period_range|].
  split; [exact Hiff|]. split.
  - intros Hlt. now apply (determineContentType_early w position st ct st').
  - intros Hpos Hmod.
    apply Nat.Div0.mod_divides in Hmod as [k ->].
    destruct k as [|k]; [lia|].
    destruct (determineContentType_210 w k st) as (st2 & H2).
    rewrite H2 in H. now injection H as <- _.
Qed.

(** X4: when the music pool is not empty and every title in it is in
    the history, [createMusic] does not return at any call depth: each
    draw is rejected and the method calls itself again. *)
Theorem createMusic_never_returns_when_all_recent
  (w : World) (lib : Library) (depth : nat) (st : State) :
  music lib <> [] ->
  (forall o, In o (music lib) ->
             array_includes (lastPlayedMusic st) (title o) = true) ->
  createMusic w lib depth st = None.
Proof. apply createMusic_all_recent. Qed.

Lemma createMusic_never_returns_when_all_recent_witness :
  createMusic Examples.steady Examples.oneSong 50
    (mkState [] ["A"%string] 0 0) = None.
Proof.
  apply (createMusic_never_returns_when_all_recent
           Examples.steady Examples.oneSong 50 (mkState [] ["A"%string] 0 0)).
  - discriminate.
  - intros o [<-|[]]. reflexivity.
Defined.

(** X5: the item [createMusic] returns is the filler when the music pool
    is empty (the history is then unchanged); otherwise it is a copy of a
    pool song whose title was not in the history before the call and is
    its newest entry after it, with the start time set. *)
Theorem createMusic_returns_unplayed_song
  (w : World) (lib : Library) (depth : nat) (st : State)
  (r : ref) (st' : State) :
  createMusic w lib depth st = Some (r, st') ->
  (music lib = [] /\
   lastPlayedMusic st' = lastPlayedMusic st /\
   exists now, heap st' !!! r = fallbackItem now) \/
  (exists o now,
      In o (music lib) /\
      heap st' !!! r = set_startTime now o /\
      array_includes (lastPlayedMusic st) (title o) = false /\
      last (lastPlayedMusic st') = Some (title o)).
Proof. apply createMusic_result. Qed.

Lemma createMusic_returns_unplayed_song_witness :
  (music Examples.oneSong = [] /\
   lastPlayedMusic Scenarios.afterOneSong = lastPlayedMusic initial /\
   exists now, heap Scenarios.afterOneSong !!! 0%nat = fallbackItem now) \/
  (exists o now,
      In o (music Examples.oneSong) /\
      heap Scenarios.afterOneSong !!! 0%nat = set_startTime now o /\
      array_includes (lastPlayedMusic initial) (title o) = false /\
      last (lastPlayedMusic Scenarios.afterOneSong) = Some (title o)).
Proof.
  apply (createMusic_returns_unplayed_song
           Examples.steady Examples.oneSong 1 initial 0%nat
           Scenarios.afterOneSong).
  reflexivity.
Defined.

(** X6: [generatePlaylist] keeps the history within its capacity of 20
    titles: if it holds at most 20 before the call, it holds at most 20
    whenever the call returns. *)
Theorem generatePlaylist_keeps_history_bounded
  (w : World) (lib : Library) (depth count : nat) (st : State)
  (playlist : list ref) (st' : State) :
  history_bounded st ->
  generatePlaylist w lib depth count st = Some (playlist, st') ->
  history_bounded st'.
Proof.
  intros Hb H.
  exact (keeps_generateFrom w lib depth count 0%nat [] st playlist st' H Hb).
Qed.

Lemma generatePlaylist_keeps_history_bounded_witness :
  history_bounded initial /\
  history_bounded Scenarios.afterTenSongs.
Proof.
  assert (Hb : history_bounded initial) by (unfold history_bounded; simpl; lia).
  split; [exact Hb|].
  apply (generatePlaylist_keeps_history_bounded
           Examples.dodging Examples.station 1 10 initial
           Scenarios.tenSongs Scenarios.afterTenSongs Hb).
  vm_compute. reflexivity.
Defined.

(** X7: [createAdSegment] always returns, with one to three members (an
    optional transition and up to two ads, or one filler), and a result
    of two or more members has contiguous start times, the gapless flags
    on its first and last member and [isGapless] on every member. *)
Theorem createAdSegment_returns_gapless
  (w : World) (lib : Library) (st : State) :
  exists seg st',
    createAdSegment w lib st = Some (seg, st') /\
    (1 <= length seg <= 3)%nat /\
    ((2 <= length seg)%nat ->
     contiguous (heap st') seg /\ flagged (heap st') seg /\
     all_gapless (heap st') seg).
Proof.
  destruct (returns_createAdSegment w lib st) as (seg & st' & H).
  exists seg, st'. split; [exact H|]. split.
  - now apply (createAdSegment_length w lib st seg st').
  - intros Hlen.
    destruct (createAdSegment_gapless w lib st seg st' H Hlen) as [Hc Hf].
    split; [exact Hc|]. split; [exact Hf|].
    now apply (createAdSegment_marked w lib st seg st').
Qed.

(** X8: [createWeatherSegment] always returns, with one or two members,
    and a two-member result (transition, announcement) has contiguous
    start times and the gapless flags on its first and last member. *)
Theorem createWeatherSegment_returns_gapless
  (w : World) (lib : Library) (weatherData : WeatherData) (st : State) :
  exists seg st',
    createWeatherSegment w lib weatherData st = Some (seg, st') /\
    (1 <= length seg <= 2)%nat /\
    ((2 <= length seg)%nat ->
     contiguous (heap st') seg /\ flagged (heap st') seg).
Proof.
  destruct (returns_createWeatherSegment w lib weatherData st)
    as (seg & st' & H).
  exists seg, st'. split; [exact H|]. split.
  - now apply (createWeatherSegment_length w lib weatherData st seg st').
  - now apply (createWeatherSegment_gapless w lib weatherData st seg st').
Qed.

End GeneratorExtras.

(** ** Further properties of the broadcast engines *)

Module ListenerFacts.
Import EngineInvariants.

Lemma setDelete_fresh c cs :
  setHas c cs = false -> setDelete c cs = cs.
Proof.
  unfold setHas, setDelete. induction cs as [|c' cs IH]; [reflexivity|].
  cbn. destruct (client_id c' =? client_id c)%nat; [discriminate|].
  cbn. intros H. now rewrite IH.
Qed.

Lemma setDelete_setAdd c cs :
  setHas c cs = false -> setDelete c (setAdd c cs) = cs.
Proof.
  intros H. unfold setAdd. rewrite H. unfold setDelete.
  rewrite List.filter_app. fold (setDelete c cs).
  rewrite (setDelete_fresh _ _ H). cbn.
  rewrite Nat.eqb_refl. cbn. apply app_nil_r.
Qed.

Lemma setHas_setAdd c cs : setHas c (setAdd c cs) = true.
Proof.
  unfold setAdd. destruct (setHas c cs) eqn:H; [exact H|].
  unfold setHas. rewrite existsb_app. cbn. rewrite Nat.eqb_refl.
  now rewrite orb_true_r.
Qed.

Lemma setAdd_idem c cs : setAdd c (setAdd c cs) = setAdd c cs.
Proof. unfold setAdd at 1. now rewrite setHas_setAdd. Qed.

Lemma setHas_setDelete c cs : setHas c (setDelete c cs) = false.
Proof.
  unfold setHas, setDelete. induction cs as [|c' cs IH]; [reflexivity|].
  cbn. destruct (client_id c' =? client_id c)%nat eqn:E; cbn; [exact IH|].
  now rewrite E.
Qed.

Section Basic.
Import StreamManager StreamManagerClients.
Variable toneValue : nat -> Z.

Lemma alive_app a : forall b acc, alive (a ++ b) acc = alive b (alive a acc).
Proof.
  induction a as [|e a IH]; intros b acc; [reflexivity|].
  destruct e; cbn; apply IH.
Qed.

Lemma alive_pipes p cs acc : alive (pipeToClients p cs) acc = acc.
Proof.
  unfold pipeToClients.
  induction (List.filter (fun c => negb (destroyed c)) cs) as [|c l IH];
    [reflexivity|exact IH].
Qed.

Lemma stopCurrentStream_single st :
  single_pipeline st ->
  alive (trace (stopCurrentStream st)) [] = [] /\
  ffmpegProcess (stopCurrentStream st) = None /\
  currentStream (stopCurrentStream st) = None.
Proof.
  intros [Halive _]. unfold stopCurrentStream.
  destruct (ffmpegProcess st) as [p|]; cbn; [|auto].
  rewrite alive_app, Halive. cbn. now rewrite Nat.eqb_refl.
Qed.

Lemma playFallbackAudio_single env track st st' :
  alive (trace st) [] = match ffmpegProcess st with
                        | Some p => [p]
                        | None => []
                        end ->
  playFallbackAudio toneValue env track st = Some st' ->
  single_pipeline st'.
Proof.
  intros Halive. unfold playFallbackAudio, spawnProcess.
  assert (Hstop : alive (trace (stopCurrentStream st)) [] = []).
  { unfold stopCurrentStream. destruct (ffmpegProcess st) as [p|]; cbn;
      [|exact Halive].
    rewrite alive_app, Halive. cbn. now rewrite Nat.eqb_refl. }
  destruct (spawnThrows env (spawnCalls (stopCurrentStream st)));
    [discriminate|].
  intros [= <-]. split; [|now right].
  cbn [trace with_trace connectClients ffmpegProcess].
  rewrite !alive_app, Hstop. cbn [alive app]. now rewrite alive_pipes.
Qed.

Lemma playTrack_single env track st st' :
  single_pipeline st -> playTrack toneValue env track st = Some st' ->
  single_pipeline st'.
Proof.
  intros Hs. unfold playTrack.
  destruct (truthy (path track)) as [file|];
    [|apply playFallbackAudio_single; apply Hs].
  destruct (stopCurrentStream_single st Hs) as (Hstop & Hproc & _).
  unfold spawnProcess.
  destruct (spawnThrows env (spawnCalls (stopCurrentStream st))).
  - apply playFallbackAudio_single. cbn. now rewrite Hproc.
  - intros [= <-]. split; [|now right].
    cbn [trace connectClients ffmpegProcess].
    rewrite !alive_app, Hstop. cbn [alive app]. now rewrite alive_pipes.
Qed.

Lemma perform_single c st st' :
  single_pipeline st -> perform toneValue c st = Some st' ->
  single_pipeline st'.
Proof.
  intros Hs. destruct c; cbn [perform].
  - intros [= <-]. destruct Hs as [Ha Hc]. split; [|exact Hc].
    cbn. rewrite alive_app, Ha.
    destruct (currentStream st); reflexivity.
  - intros [= <-]. exact Hs.
  - now apply playTrack_single.
  - apply playFallbackAudio_single. apply Hs.
  - apply playFallbackAudio_single. apply Hs.
  - intros [= <-]. destruct Hs as [Ha _]. split; [exact Ha|now left].
  - intros [= <-].
    destruct (stopCurrentStream_single st Hs) as (Hstop & Hproc & Hstream).
    split; cbn; [now rewrite Hproc|now left].
Qed.

Lemma run_single calls : forall st st',
  single_pipeline st -> run toneValue calls st = Some st' ->
  single_pipeline st'.
Proof.
  induction calls as [|c calls IH]; intros st st' Hs H.
  - now injection H as <-.
  - cbn [run] in H. destruct (perform toneValue c st) as [st1|] eqn:Hc;
      [|discriminate].
    apply (IH st1); [|exact H]. now apply (perform_single c st).
Qed.

(** Whenever [playTrack] returns, a process is running and its output is
    the current stream. *)
Lemma playTrack_running env track st st' :
  playTrack toneValue env track st = Some st' ->
  exists p, ffmpegProcess st' = Some p /\ currentStream st' = Some p /\
            clients st' = clients st.
Proof.
  assert (Hfb : forall s s', playFallbackAudio toneValue env track s = Some s' ->
                exists p, ffmpegProcess s' = Some p /\ currentStream s' = Some p /\
                          clients s' = clients s).
  { intros s s'. unfold playFallbackAudio, spawnProcess.
    destruct (spawnThrows env _); [discriminate|].
    intros [= <-]. eexists. cbn. repeat split.
    unfold stopCurrentStream. now destruct (ffmpegProcess s). }
  unfold playTrack. destruct (truthy (path track)) as [file|]; [|apply Hfb].
  unfold spawnProcess.
  destruct (spawnThrows env (spawnCalls (stopCurrentStream st))).
  - intros H. apply Hfb in H as (p & ? & ? & Hc). exists p.
    repeat split; try assumption. rewrite Hc. cbn.
    unfold stopCurrentStream. now destruct (ffmpegProcess st).
  - intros [= <-]. eexists. cbn. repeat split.
    unfold stopCurrentStream. now destruct (ffmpegProcess st).
Qed.

End Basic.

Section Enhanced.
Import EnhancedStreamManager EnhancedStreamManagerClients.

Lemma with_trace_nil st : with_trace st [] = st.
Proof. destruct st. unfold with_trace. cbn. now rewrite app_nil_r. Qed.

Lemma with_trace_trace st a b :
  with_trace (with_trace st a) b = with_trace st (a ++ b).
Proof. unfold with_trace. cbn. now rewrite app_assoc. Qed.

Lemma send_to_all_writes cs : forall st track,
  currentTrack st = Some track ->
  fold_left (fun s c => if destroyed c then s else sendICYMetadata c s) cs st
  = with_trace st (metadataWrites track cs).
Proof.
  induction cs as [|c cs IH]; intros st track Ht.
  - cbn. symmetry. apply with_trace_nil.
  - cbn [fold_left]. unfold metadataWrites. cbn [List.filter].
    destruct (destroyed c); cbn [negb].
    + now apply IH.
    + rewrite (IH _ track).
      * unfold sendICYMetadata. rewrite Ht. now rewrite with_trace_trace.
      * unfold sendICYMetadata. now rewrite Ht.
Qed.

Lemma broadcastICYMetadata_writes st track :
  currentTrack st = Some track ->
  broadcastICYMetadata st = with_trace st (metadataWrites track (clients st)).
Proof.
  intros Ht. unfold broadcastICYMetadata. rewrite Ht.
  now apply send_to_all_writes.
Qed.

End Enhanced.
End ListenerFacts.

Module EngineExtras.
Import EngineInvariants Pipeline EngineFacts ListenerFacts.

Section Enhanced.
Import EnhancedStreamManager EnhancedStreamManagerClients.

Lemma playTrack_started env track file st :
  truthy (path track) = Some file ->
  spawnThrows env (spawnCalls st) = false ->
  playTrack env track st
  = mkState (clients st) (Some (nextPid st)) (Some (nextPid st)) (Some track)
            (currentConcatFile st) (S (nextPid st)) (S (spawnCalls st))
            (trace st ++ match ffmpegProcess st with
                         | Some p => [Killed p]
                         | None => []
                         end
                      ++ [Spawned (nextPid st) (audioStreamArgs track file)]
                      ++ StreamManager.pipeToClients (nextPid st) (clients st)
                      ++ metadataWrites track (clients st)).
Proof.
  intros Hpath Hok. unfold playTrack, createAudioStream, startPipeline.
  rewrite Hpath. cbn [spawnCalls stopCurrentStream with_currentTrack].
  rewrite Hok. unfold setupStreamPiping.
  rewrite (broadcastICYMetadata_writes _ track) by reflexivity.
  unfold with_trace. cbn. now rewrite <- !app_assoc.
Qed.

(** X9: for every track the metadata packet is one byte followed by
    [k = ceil(length / 16)] blocks of 16 bytes holding the text
    [StreamTitle='...';] and then zeros.  The first byte is [k mod 256]:
    it is the number of blocks that follow while the text takes at most
    4080 bytes. *)
Theorem icyPacket_layout (track : AudioItem) :
  Z.of_nat (length (icyPacket track)) = 1 + 16 * metadataLength track /\
  head (icyPacket track) = Some (metadataLength track mod 256) /\
  tail (icyPacket track)
  = metadataBuffer track ++
    repeat 0 (Z.to_nat (16 * metadataLength track)
              - length (metadataBuffer track)) /\
  Z.of_nat (length (metadataBuffer track)) <= 16 * metadataLength track
    < Z.of_nat (length (metadataBuffer track)) + 16 /\
  ((length (metadataBuffer track) <= 4080)%nat ->
   head (icyPacket track) = Some (metadataLength track)).
Proof.
  destruct (icyPacket_shape track) as (H1 & H2 & H3).
  pose proof (metadataLength_blocks track) as Hk. cbn zeta in Hk.
  repeat split; try assumption; try apply Hk.
  intros Hlen. now apply icyPacket_first_byte_short.
Qed.

(** X10: with a current track, [broadcastICYMetadata] writes exactly one
    packet of that track to every client that is not destroyed, in the
    order of the listener set, writes nothing to destroyed clients, and
    leaves the track, the pipeline and the listener set as they were. *)
Theorem broadcastICYMetadata_one_packet_per_live_client
  (st : State) (track : AudioItem) :
  currentTrack st = Some track ->
  trace (broadcastICYMetadata st)
    = trace st ++ metadataWrites track (clients st) /\
  same_pipeline (broadcastICYMetadata st) st.
Proof.
  intros Ht. split; [|apply broadcastICYMetadata_keeps].
  now rewrite (broadcastICYMetadata_writes st track Ht).
Qed.

Lemma broadcastICYMetadata_one_packet_per_live_client_witness :
  currentTrack Scenarios.twoListeners = Some (Examples.song "A") /\
  trace (broadcastICYMetadata Scenarios.twoListeners)
    = [Wrote 1 (icyPacket (Examples.song "A"))] /\
  same_pipeline (broadcastICYMetadata Scenarios.twoListeners)
                Scenarios.twoListeners.
Proof.
  split; [reflexivity|].
  apply (broadcastICYMetadata_one_packet_per_live_client
           Scenarios.twoListeners (Examples.song "A")).
  reflexivity.
Defined.

(** X11: when the list file can be written and [spawn] succeeds,
    [playGaplessSequence] of a non-empty sequence kills the running
    process, writes one list file naming the members that have a path,
    starts exactly one process over it, pipes it to the live clients and
    sends them one metadata packet of the first member; the first member
    is the current track and the list file is remembered. *)
Theorem playGaplessSequence_one_pipeline
  (env : Env) (first : AudioItem) (rest : list AudioItem) (st : State) :
  writeFileRejects env = false ->
  spawnThrows env (spawnCalls st) = false ->
  let st' := playGaplessSequence env (first :: rest) st in
  trace st'
    = trace st ++ match ffmpegProcess st with
                  | Some p => [Killed p]
                  | None => []
                  end
               ++ [FileWritten (concatFile env) (concatContent (first :: rest));
                   Spawned (nextPid st) (concatStreamArgs (concatFile env))]
               ++ StreamManager.pipeToClients (nextPid st) (clients st)
               ++ metadataWrites first (clients st) /\
  ffmpegProcess st' = Some (nextPid st) /\
  currentStream st' = Some (nextPid st) /\
  currentTrack st' = Some first /\
  currentConcatFile st' = Some (concatFile env).
Proof.
  intros Hwrite Hspawn. cbn zeta.
  unfold playGaplessSequence, createConcatFile, createConcatStream,
    startPipeline.
  rewrite Hwrite.
  cbn [spawnCalls stopCurrentStream with_currentTrack with_trace].
  rewrite Hspawn. unfold setupStreamPiping.
  rewrite (broadcastICYMetadata_writes _ first) by reflexivity.
  unfold with_trace. cbn. repeat split. now rewrite <- !app_assoc.
Qed.

Lemma playGaplessSequence_one_pipeline_witness :
  (writeFileRejects Examples.calm = false /\
   spawnThrows Examples.calm (spawnCalls Examples.onAir) = false) /\
  let st' := playGaplessSequence Examples.calm
               [Examples.stationIdent; Examples.song "B"] Examples.onAir in
  trace st'
    = trace Examples.onAir
      ++ match ffmpegProcess Examples.onAir with
         | Some p => [Killed p]
         | None => []
         end
      ++ [FileWritten (concatFile Examples.calm)
            (concatContent [Examples.stationIdent; Examples.song "B"]);
          Spawned (nextPid Examples.onAir)
            (concatStreamArgs (concatFile Examples.calm))]
      ++ StreamManager.pipeToClients (nextPid Examples.onAir)
           (clients Examples.onAir)
      ++ metadataWrites Examples.stationIdent (clients Examples.onAir) /\
  ffmpegProcess st' = Some (nextPid Examples.onAir) /\
  currentStream st' = Some (nextPid Examples.onAir) /\
  currentTrack st' = Some Examples.stationIdent /\
  currentConcatFile st' = Some (concatFile Examples.calm).
Proof.
  split; [split; reflexivity|].
  apply (playGaplessSequence_one_pipeline Examples.calm Examples.stationIdent
           [Examples.song "B"] Examples.onAir); reflexivity.
Defined.

(** X12: a listener added after a track was started is written the icy
    headers, then one metadata packet of that track, then is piped to
    the running process; the process is neither killed nor restarted. *)
Theorem addClient_joins_running_track
  (env : Env) (track : AudioItem) (file : string) (st : State)
  (response : Client) :
  truthy (path track) = Some file ->
  spawnThrows env (spawnCalls st) = false ->
  let st1 := playTrack env track st in
  let result := addClient response st1 in
  fst result = icyHeaders /\
  trace (snd result)
    = trace st1 ++ [Wrote (client_id response) (icyPacket track);
                    Piped (nextPid st) (client_id response)] /\
  ffmpegProcess (snd result) = Some (nextPid st) /\
  currentStream (snd result) = Some (nextPid st) /\
  clients (snd result) = setAdd response (clients st).
Proof.
  intros Hpath Hok. cbn zeta.
  rewrite (playTrack_started env track file st Hpath Hok).
  unfold addClient, sendICYMetadata, with_trace. cbn.
  repeat split. now rewrite <- !app_assoc.
Qed.

Lemma addClient_joins_running_track_witness :
  (truthy (path (Examples.song "B")) = Some "/audio/B.mp3"%string /\
   spawnThrows Examples.calm (spawnCalls Examples.onAir) = false) /\
  let st1 := playTrack Examples.calm (Examples.song "B") Examples.onAir in
  let result := addClient Scenarios.listener st1 in
  fst result = icyHeaders /\
  trace (snd result)
    = trace st1 ++ [Wrote 1 (icyPacket (Examples.song "B"));
                    Piped (nextPid Examples.onAir) 1] /\
  ffmpegProcess (snd result) = Some (nextPid Examples.onAir) /\
  currentStream (snd result) = Some (nextPid Examples.onAir) /\
  clients (snd result) = setAdd Scenarios.listener (clients Examples.onAir).
Proof.
  split; [split; reflexivity|].
  apply (addClient_joins_running_track Examples.calm (Examples.song "B")
           "/audio/B.mp3" Examples.onAir Scenarios.listener); reflexivity.
Defined.

End Enhanced.

Section Basic.
Import StreamManager StreamManagerClients.

(** X13: the fallback buffer of the basic engine is 16-bit stereo at
    44100 Hz: four bytes per sample and [floor(D * 44.1)] samples, where
    [D] is the item's duration in ms, or 30000 when that is 0; its play
    length is within one sample of [D]. *)
Theorem fallback_tone_length (toneValue : nat -> Z) (track : AudioItem) :
  0 <= duration track ->
  length (fallbackBuffer toneValue track) = (4 * fallbackSamples track)%nat /\
  1000 * Z.of_nat (fallbackSamples track) <= fallbackDuration track * 44100
    < 1000 * (Z.of_nat (fallbackSamples track) + 1) /\
  fallbackDuration track = (if duration track =? 0 then 30000
                            else duration track).
Proof.
  intros Hd. split; [apply fallbackBuffer_length|]. split; [|reflexivity].
  apply fallbackSamples_bounds. unfold fallbackDuration.
  destruct (duration track =? 0); lia.
Qed.

Lemma fallback_tone_length_witness :
  0 <= duration (PlaylistGenerator.fallbackItem 1000) /\
  length (fallbackBuffer Scenarios.flatTone (PlaylistGenerator.fallbackItem 1000))
    = (4 * fallbackSamples (PlaylistGenerator.fallbackItem 1000))%nat /\
  1000 * Z.of_nat (fallbackSamples (PlaylistGenerator.fallbackItem 1000))
    <= fallbackDuration (PlaylistGenerator.fallbackItem 1000) * 44100
    < 1000 * (Z.of_nat (fallbackSamples (PlaylistGenerator.fallbackItem 1000)) + 1) /\
  fallbackDuration (PlaylistGenerator.fallbackItem 1000)
    = (if duration (PlaylistGenerator.fallbackItem 1000) =? 0 then 30000
       else duration (PlaylistGenerator.fallbackItem 1000)).
Proof.
  assert (H : 0 <= duration (PlaylistGenerator.fallbackItem 1000))
    by (simpl; lia).
  split; [exact H|].
  apply (fallback_tone_length Scenarios.flatTone
           (PlaylistGenerator.fallbackItem 1000) H).
Defined.

(** X14: through any sequence of calls on the basic engine that raises
    no exception (listeners added and removed, tracks and fallback
    audio played, process events, stop), at most one process is started
    and not killed, it is the one in [ffmpegProcess], and the current
    stream, when there is one, is its output. *)
Theorem run_keeps_single_pipeline
  (toneValue : nat -> Z) (calls : list Call) (st st' : State) :
  single_pipeline st -> run toneValue calls st = Some st' ->
  single_pipeline st'.
Proof. apply run_single. Qed.

Lemma run_keeps_single_pipeline_witness :
  single_pipeline constructed /\
  single_pipeline Scenarios.afterEvening.
Proof.
  assert (H : single_pipeline constructed) by (split; [reflexivity|now left]).
  split; [exact H|].
  apply (run_keeps_single_pipeline Scenarios.flatTone Scenarios.evening
           constructed Scenarios.afterEvening H).
  vm_compute. reflexivity.
Defined.

(** X15: a listener added right after [playTrack] returned is piped to
    the running process; once a ['close'] event has been handled (that
    of the process the call killed), the current stream is null although
    the new process runs, and a listener added then joins the set
    without being piped to anything. *)
Theorem addClient_after_close_is_not_piped
  (toneValue : nat -> Z) (env : Env) (track : AudioItem)
  (st st1 : State) (response : Client) :
  playTrack toneValue env track st = Some st1 ->
  exists p,
    ffmpegProcess st1 = Some p /\
    trace (addClient response st1)
      = trace st1 ++ [Piped p (client_id response)] /\
    ffmpegProcess (addClient response (onProcessClose st1)) = Some p /\
    trace (addClient response (onProcessClose st1)) = trace st1 /\
    clients (addClient response (onProcessClose st1))
      = setAdd response (clients st).
Proof.
  intros H. apply playTrack_running in H as (p & Hp & Hs & Hc).
  exists p. unfold addClient, onProcessClose. cbn.
  rewrite Hs, Hc, app_nil_r. auto.
Qed.

Lemma addClient_after_close_is_not_piped_witness :
  exists p,
    ffmpegProcess Scenarios.playing = Some p /\
    trace (addClient Scenarios.newcomer Scenarios.playing)
      = trace Scenarios.playing ++ [Piped p 3] /\
    ffmpegProcess (addClient Scenarios.newcomer
                     (onProcessClose Scenarios.playing)) = Some p /\
    trace (addClient Scenarios.newcomer
             (onProcessClose Scenarios.playing)) = trace Scenarios.playing /\
    clients (addClient Scenarios.newcomer
               (onProcessClose Scenarios.playing))
      = setAdd Scenarios.newcomer (clients Scenarios.idle).
Proof.
  apply (addClient_after_close_is_not_piped Scenarios.flatTone Examples.calm
           (Examples.song "A") Scenarios.idle Scenarios.playing
           Scenarios.newcomer).
  vm_compute. reflexivity.
Defined.

(** X16: adding a response that is not in the listener set and removing
    it again gives back the listener set, and neither call touches the
    process or the stream.  Adding a response that is already in the set
    leaves the set as it is, but pipes the current stream to it once
    more. *)
Theorem removeClient_undoes_addClient (response : Client) (st : State) :
  setHas response (clients st) = false ->
  let added := addClient response st in
  let removed := removeClient response added in
  let again := addClient response added in
  clients removed = clients st /\
  ffmpegProcess removed = ffmpegProcess st /\
  currentStream removed = currentStream st /\
  trace removed = trace added /\
  clients again = clients added /\
  trace again = trace added ++ match currentStream st with
                               | Some p => [Piped p (client_id response)]
                               | None => []
                               end.
Proof.
  intros Hnew. cbn zeta. unfold removeClient, addClient.
  cbn [clients ffmpegProcess currentStream trace].
  split; [now apply setDelete_setAdd|]. repeat split.
  apply setAdd_idem.
Qed.

Lemma removeClient_undoes_addClient_witness :
  setHas Scenarios.newcomer (clients Scenarios.playing) = false /\
  let added := addClient Scenarios.newcomer Scenarios.playing in
  let removed := removeClient Scenarios.newcomer added in
  let again := addClient Scenarios.newcomer added in
  clients removed = clients Scenarios.playing /\
  ffmpegProcess removed = ffmpegProcess Scenarios.playing /\
  currentStream removed = currentStream Scenarios.playing /\
  trace removed = trace added /\
  clients again = clients added /\
  trace again = trace added ++ match currentStream Scenarios.playing with
                               | Some p => [Piped p (client_id Scenarios.newcomer)]
                               | None => []
                               end.
Proof.
  split; [reflexivity|].
  apply (removeClient_undoes_addClient Scenarios.newcomer Scenarios.playing).
  reflexivity.
Defined.

End Basic.
End EngineExtras.

(** ** The playback loop *)

Module LoopFacts.
Import JS PlaylistGenerator RadioScheduler RadioSchedulerLoop LoopSteps
       Invariants GeneratorFacts BuilderFacts.

Section Loop.
Variable w : World.
Variable lib : Library.

(** Playing the rest of a sequence member by member: each timer plays
    the next member and waits its duration. *)
Lemma elapse_rest depth rest : forall s current playedSoFar waited,
  exists waited' lastDelay,
    elapse w lib None depth (length rest)
      (mkStep s playedSoFar
              (Some (mkTimeout (CallRest rest)
                               (duration (heap (generator s) !!! current)))))
      waited
    = Some (mkStep s (playedSoFar ++ map PlayTrack rest)
                   (Some (mkTimeout (CallRest []) lastDelay)),
            waited') /\
    waited' ++ [lastDelay]
    = waited ++ map (fun r => duration (heap (generator s) !!! r))
                    (current :: rest).
Proof.
  induction rest as [|r rest IH]; intros s current playedSoFar waited.
  - exists waited, (duration (heap (generator s) !!! current)).
    cbn. now rewrite app_nil_r.
  - destruct (IH s r (playedSoFar ++ [PlayTrack r])
                (waited ++ [duration (heap (generator s) !!! current)]))
      as (waited' & lastDelay & Hrun & Hsum).
    exists waited', lastDelay. split.
    + cbn [length elapse pending callback fire delay].
      cbn [Nat.ltb Nat.leb playSequenceIndividually scheduler played pending].
      rewrite Hrun. cbn [map]. now rewrite <- app_assoc.
    + rewrite Hsum. cbn [map]. now rewrite <- app_assoc.
Qed.

Lemma scheduleNext_flag b depth : forall support s,
  scheduleNext w lib support depth (flagged_scheduler b s)
  = option_map (flagged_step b) (scheduleNext w lib support depth s).
Proof.
  induction depth as [|depth IH]; intros support s; [reflexivity|].
  destruct s as [g q0 cur playing].
  cbn [scheduleNext]. unfold refill, flagged_scheduler.
  cbn [queue generator currentTrack isPlaying].
  destruct q0 as [|entry q].
  - destruct (generatePlaylist w lib depth 20 g) as [[pl g']|];
      [|reflexivity].
    cbn [with_queue queue generator currentTrack isPlaying].
    destruct pl as [|first pl]; reflexivity.
  - cbn [queue generator].
    destruct entry as [r|rs]; [reflexivity|].
    destruct (supportsGapless support (heap g) rs); [reflexivity|].
    destruct rs as [|c rest]; [|reflexivity].
    apply (IH support (mkScheduler g q None playing)).
Qed.

End Loop.

Lemma str_or_nonempty a b : b <> EmptyString -> str_or a b <> EmptyString.
Proof.
  intros Hb. unfold str_or, truthy.
  destruct a as [[|c s]|]; try exact Hb. discriminate.
Qed.

End LoopFacts.

Module SchedulerExtras.
Import JS PlaylistGenerator RadioScheduler RadioSchedulerLoop LoopSteps
       Invariants GeneratorFacts BuilderFacts LoopFacts.

(** X17: with an engine that has no [canPlayGapless], a sequence at the
    front of the queue is played member by member and in order: the
    first member at once, each following member when the timer of the
    one before fires, after that member's own duration.  Meanwhile the
    current track stays the first member, and the rest of the queue and
    the generator are not touched. *)
Theorem sequence_is_played_member_by_member
  (w : World) (lib : Library) (depth : nat) (g : State)
  (first : ref) (rest : list ref) (q : list QueueEntry)
  (cur : option ref) (playing : bool) :
  exists step,
    scheduleNext w lib None (S depth)
      (mkScheduler g (Sequence (first :: rest) :: q) cur playing)
    = Some step /\
    played step = [PlayTrack first] /\
    exists waited lastDelay,
      elapse w lib None depth (length rest) step []
      = Some (mkStep (mkScheduler g q (Some first) playing)
                     (map PlayTrack (first :: rest))
                     (Some (mkTimeout (CallRest []) lastDelay)),
              waited) /\
      waited ++ [lastDelay]
      = map (fun r => duration (heap g !!! r)) (first :: rest).
Proof.
  eexists. split; [reflexivity|]. split; [reflexivity|].
  destruct (elapse_rest w lib depth rest
              (mkScheduler g q (Some first) playing) first
              [PlayTrack first] [])
    as (waited & lastDelay & Hrun & Hsum).
  exists waited, lastDelay. split; [exact Hrun|exact Hsum].
Qed.

(** X18: an ad break goes first: after [scheduleAdBreak], the next
    [scheduleNext] plays the first member of the new ad segment, keeps
    its remaining members for the following timers and leaves what was
    queued before in the queue, unchanged and in order. *)
Theorem ad_break_plays_next
  (w : World) (lib : Library) (depth : nat) (s : Scheduler) :
  exists s1 first rest,
    scheduleAdBreak w lib s = Some s1 /\
    queue s1 = Sequence (first :: rest) :: queue s /\
    scheduleNext w lib None (S depth) s1
    = Some (mkStep (mkScheduler (generator s1) (queue s) (Some first)
                                (isPlaying s))
                   [PlayTrack first]
                   (Some (mkTimeout (CallRest rest)
                                    (duration (heap (generator s1) !!! first))))).
Proof.
  destruct (returns_createAdSegment w lib (generator s)) as (seg & g & Hseg).
  pose proof (createAdSegment_length w lib _ _ _ Hseg) as Hlen.
  destruct seg as [|first rest]; [cbn in Hlen; lia|].
  exists (mkScheduler g (Sequence (first :: rest) :: queue s)
                      (currentTrack s) (isPlaying s)), first, rest.
  split; [|split; reflexivity].
  unfold scheduleAdBreak, withGenerator. now rewrite Hseg.
Qed.

(** X19: on an empty queue [scheduleNext] asks the generator for 20
    positions; when that returns, the first item of the new playlist is
    played and becomes the current track, the timer is set to its
    duration, and the other items, at least 19, are queued as single
    tracks in playlist order. *)
Theorem scheduleNext_refills_empty_queue
  (w : World) (lib : Library) (support : option GaplessSupport)
  (depth : nat) (s : Scheduler) (playlist : list ref) (g : State) :
  queue s = [] ->
  generatePlaylist w lib depth 20 (generator s) = Some (playlist, g) ->
  exists first rest,
    playlist = first :: rest /\
    (19 <= length rest)%nat /\
    scheduleNext w lib support (S depth) s
    = Some (mkStep (mkScheduler g (map Track rest) (Some first) (isPlaying s))
                   [PlayTrack first]
                   (Some (mkTimeout CallScheduleNext
                                    (duration (heap g !!! first))))).
Proof.
  intros Hq Hgen.
  pose proof (generatePlaylist_length w lib _ _ _ _ _ Hgen) as Hlen.
  destruct playlist as [|first rest]; [cbn in Hlen; lia|].
  exists first, rest. split; [reflexivity|]. split; [cbn in Hlen; lia|].
  cbn [scheduleNext]. unfold refill. rewrite Hq, Hgen. reflexivity.
Qed.

Lemma scheduleNext_refills_empty_queue_witness :
  exists first rest,
    Scenarios.refillPlaylist = first :: rest /\
    (19 <= length rest)%nat /\
    scheduleNext Examples.steady Examples.forecasts None 2
                 RadioScheduler.initial
    = Some (mkStep (mkScheduler Scenarios.afterRefill (map Track rest)
                                (Some first) false)
                   [PlayTrack first]
                   (Some (mkTimeout CallScheduleNext
                            (duration (heap Scenarios.afterRefill !!! first))))).
Proof.
  apply (scheduleNext_refills_empty_queue Examples.steady Examples.forecasts
           None 1 RadioScheduler.initial Scenarios.refillPlaylist
           Scenarios.afterRefill).
  - reflexivity.
  - vm_compute. reflexivity.
Defined.

(** X20: the loop does not read [isPlaying]: on a scheduler whose flag
    was cleared by [stop], [scheduleNext] plays the same item, sets the
    same timer and leaves the same queue as on the running scheduler. *)
Theorem scheduleNext_ignores_isPlaying
  (w : World) (lib : Library) (support : option GaplessSupport)
  (depth : nat) (s : Scheduler) :
  scheduleNext w lib support depth (stop s)
  = option_map (flagged_step false) (scheduleNext w lib support depth s).
Proof. apply (scheduleNext_flag w lib false depth support s). Qed.

End SchedulerExtras.

(** ** Rounding to the nearest binary64 value *)

Module DoubleFacts.
Import Double.
Local Open Scope Z_scope.

Lemma two_power_pos (k : Z) : (0 < 2 ^ k)%Q.
Proof. apply Qpower_0_lt. reflexivity. Qed.

Lemma two_power_succ (k : Z) : (2 ^ (k + 1) == 2 * 2 ^ k)%Q.
Proof. rewrite Qpower_plus by discriminate. rewrite Qpower_1_r. ring. Qed.

Lemma two_power_pred (k : Z) : (2 ^ (k - 1) == 2 ^ k / 2)%Q.
Proof. rewrite Qpower_minus by discriminate. rewrite Qpower_1_r. reflexivity. Qed.

Lemma two_power_Z (a : Z) : 0 <= a -> (2 ^ a == inject_Z (2 ^ a))%Q.
Proof. intros Ha. now rewrite Zpower_Qpower. Qed.

Lemma frac_le (A C N D : Q) :
  (0 < C)%Q -> (0 < D)%Q -> (A * D <= N * C)%Q -> (A / C <= N / D)%Q.
Proof.
  intros HC HD H. apply Qle_shift_div_l; [exact HD|].
  setoid_replace (A / C * D)%Q with (A * D / C)%Q using relation Qeq
    by (field; lra).
  apply Qle_shift_div_r; [exact HC|exact H].
Qed.

Lemma frac_lt (A C N D : Q) :
  (0 < C)%Q -> (0 < D)%Q -> (A * D < N * C)%Q -> (A / C < N / D)%Q.
Proof.
  intros HC HD H. apply Qlt_shift_div_l; [exact HD|].
  setoid_replace (A / C * D)%Q with (A * D / C)%Q using relation Qeq
    by (field; lra).
  apply Qlt_shift_div_r; [exact HC|exact H].
Qed.

(** [floor_log2 x] is the integer part of the binary logarithm. *)
Lemma floor_log2_spec (x : Q) :
  (0 < x)%Q -> (2 ^ floor_log2 x <= x < 2 ^ (floor_log2 x + 1))%Q.
Proof.
  intros Hx. unfold floor_log2.
  destruct (Qle_bool (2 ^ (Z.log2 (Qnum x) - Z.log2 (Z.pos (Qden x)))) x)
    eqn:Hcmp.
  - apply Qle_bool_iff in Hcmp. split; [exact Hcmp|].
    destruct x as [n d]. cbn [Qnum Qden] in *.
    assert (Hn : 0 < n) by (unfold Qlt in Hx; cbn in Hx; lia).
    pose proof (Z.log2_spec n Hn) as [_ Hn2].
    pose proof (Z.log2_spec (Z.pos d) (Pos2Z.is_pos d)) as [Hd1 _].
    pose proof (Z.log2_nonneg n) as Ha.
    pose proof (Z.log2_nonneg (Z.pos d)) as Hc.
    set (a := Z.log2 n) in *. set (c := Z.log2 (Z.pos d)) in *.
    replace (a - c + 1) with (Z.succ a - c) by lia.
    rewrite Qpower_minus by discriminate.
    rewrite !two_power_Z by lia. rewrite (Qmake_Qdiv n d).
    assert (H2c : 0 < 2 ^ c) by (apply Z.pow_pos_nonneg; lia).
    apply frac_lt.
    + reflexivity.
    + change 0%Q with (inject_Z 0). now rewrite <- Zlt_Qlt.
    + rewrite <- !inject_Z_mult, <- Zlt_Qlt. nia.
  - assert (Hlt : (x < 2 ^ (Z.log2 (Qnum x) - Z.log2 (Z.pos (Qden x))))%Q).
    { apply Qnot_le_lt. intros H. apply Qle_bool_iff in H. congruence. }
    split.
    + destruct x as [n d]. cbn [Qnum Qden] in *.
      assert (Hn : 0 < n) by (unfold Qlt in Hx; cbn in Hx; lia).
      pose proof (Z.log2_spec n Hn) as [Hn1 _].
      pose proof (Z.log2_spec (Z.pos d) (Pos2Z.is_pos d)) as [_ Hd2].
      pose proof (Z.log2_nonneg n) as Ha.
      pose proof (Z.log2_nonneg (Z.pos d)) as Hc.
      set (a := Z.log2 n) in *. set (c := Z.log2 (Z.pos d)) in *.
      replace (a - c - 1) with (a - Z.succ c) by lia.
      rewrite Qpower_minus by discriminate.
      rewrite !two_power_Z by lia. rewrite (Qmake_Qdiv n d).
      assert (H2c : 0 < 2 ^ Z.succ c) by (apply Z.pow_pos_nonneg; lia).
      apply frac_le.
      * change 0%Q with (inject_Z 0). now rewrite <- Zlt_Qlt.
      * reflexivity.
      * rewrite <- !inject_Z_mult, <- Zle_Qle. nia.
    + now replace (Z.log2 (Qnum x) - Z.log2 (Z.pos (Qden x)) - 1 + 1)
        with (Z.log2 (Qnum x) - Z.log2 (Z.pos (Qden x))) by lia.
Qed.

(** Between two consecutive powers of two there is one exponent. *)
Lemma two_power_unique (x : Q) (a b : Z) :
  (2 ^ a <= x < 2 ^ (a + 1))%Q -> (2 ^ b <= x < 2 ^ (b + 1))%Q -> a = b.
Proof.
  intros [Ha1 Ha2] [Hb1 Hb2].
  assert (H1 : a < b + 1).
  { apply (Qpower_lt_compat_l_inv 2); [|reflexivity]. lra. }
  assert (H2 : b < a + 1).
  { apply (Qpower_lt_compat_l_inv 2); [|reflexivity]. lra. }
  lia.
Qed.

Lemma floor_log2_unique (x : Q) (a : Z) :
  (2 ^ a <= x < 2 ^ (a + 1))%Q -> floor_log2 x = a.
Proof.
  intros H. assert (Hx : (0 < x)%Q) by (pose proof (two_power_pos a); lra).
  apply (two_power_unique x); [now apply floor_log2_spec|exact H].
Qed.

Lemma floor_log2_comp (x y : Q) :
  (0 < x)%Q -> (x == y)%Q -> floor_log2 x = floor_log2 y.
Proof.
  intros Hx Hxy. apply floor_log2_unique. rewrite Hxy.
  apply floor_log2_spec. now rewrite <- Hxy.
Qed.

Lemma round_half_even_comp (x y : Q) :
  (x == y)%Q -> round_half_even x = round_half_even y.
Proof.
  intros H. unfold round_half_even.
  rewrite (Qfloor_comp _ _ H).
  assert (Hc : (x - inject_Z (Qfloor y) ?= 1 # 2)%Q
               = (y - inject_Z (Qfloor y) ?= 1 # 2)%Q) by now rewrite H.
  now rewrite Hc.
Qed.

Lemma round_half_even_error (x : Q) :
  (Qabs (inject_Z (round_half_even x) - x) <= 1 # 2)%Q.
Proof.
  unfold round_half_even.
  pose proof (Qfloor_le x) as Hlo. pose proof (Qlt_floor x) as Hhi.
  rewrite inject_Z_plus in Hhi. change (inject_Z 1) with 1%Q in Hhi.
  destruct (x - inject_Z (Qfloor x) ?= 1 # 2)%Q eqn:Hc.
  - apply Qeq_alt in Hc.
    destruct (Z.even (Qfloor x)); [|rewrite inject_Z_plus];
      apply Qabs_Qle_condition; change (inject_Z 1) with 1%Q; lra.
  - apply Qlt_alt in Hc. apply Qabs_Qle_condition. lra.
  - apply Qgt_alt in Hc. rewrite inject_Z_plus.
    apply Qabs_Qle_condition. change (inject_Z 1) with 1%Q. lra.
Qed.

Lemma round_half_even_Z (x : Q) (m : Z) :
  (x == inject_Z m)%Q -> round_half_even x = m.
Proof.
  intros H. rewrite (round_half_even_comp _ _ H). unfold round_half_even.
  rewrite Qfloor_Z.
  assert (Hc : (inject_Z m - inject_Z m ?= 1 # 2)%Q = Lt)
    by (apply (proj1 (Qlt_alt _ _)); lra).
  now rewrite Hc.
Qed.

Lemma ulp_exponent_comp (x y : Q) :
  ~ (x == 0)%Q -> (x == y)%Q -> ulp_exponent x = ulp_exponent y.
Proof.
  intros Hx H. unfold ulp_exponent. f_equal. f_equal.
  apply floor_log2_comp; [|now rewrite H].
  pose proof (Qabs_nonneg x) as Hn.
  apply Qle_lteq in Hn as [Hn|Hn]; [exact Hn|].
  exfalso. apply Hx.
  pose proof (Qle_Qabs x). pose proof (Qle_Qabs (- x)) as Hneg.
  rewrite Qabs_opp in Hneg. lra.
Qed.

Lemma round_comp (x y : Q) : (x == y)%Q -> round x = round y.
Proof.
  intros H. unfold round.
  destruct (Qeq_bool x 0) eqn:Hx.
  - apply Qeq_bool_iff in Hx.
    assert (Hy : Qeq_bool y 0 = true) by (apply Qeq_bool_iff; now rewrite <- H).
    now rewrite Hy.
  - assert (Hx' : ~ (x == 0)%Q) by now apply Qeq_bool_neq.
    assert (Hy : Qeq_bool y 0 = false).
    { destruct (Qeq_bool y 0) eqn:Hy; [|reflexivity].
      apply Qeq_bool_iff in Hy. exfalso. apply Hx'. now rewrite H. }
    rewrite Hy. cbn zeta.
    rewrite (ulp_exponent_comp x y Hx' H).
    apply Qred_complete.
    erewrite round_half_even_comp; [reflexivity|]. now rewrite H.
Qed.

(** In the normal range the last place is 52 bits below the leading one. *)
Lemma ulp_exponent_normal (x : Q) :
  (2 ^ (-1022) <= x)%Q ->
  ulp_exponent x = floor_log2 x - 52 /\
  (2 ^ (ulp_exponent x + 52) <= x < 2 ^ (ulp_exponent x + 53))%Q.
Proof.
  intros Hx.
  assert (Hpos : (0 < x)%Q) by (pose proof (two_power_pos (-1022)); lra).
  assert (Habs : (Qabs x == x)%Q) by (apply Qabs_pos; lra).
  pose proof (floor_log2_spec x Hpos) as [Hlo Hhi].
  assert (Hl : -1022 < floor_log2 x + 1).
  { apply (Qpower_lt_compat_l_inv 2); [|reflexivity]. lra. }
  unfold ulp_exponent.
  rewrite (floor_log2_comp (Qabs x) x) by (rewrite ?Habs; first [assumption|reflexivity]).
  assert (He : Z.max (floor_log2 x - 52) (-1074) = floor_log2 x - 52) by lia.
  rewrite He. split; [reflexivity|].
  replace (floor_log2 x - 52 + 52) with (floor_log2 x) by lia.
  replace (floor_log2 x - 52 + 53) with (floor_log2 x + 1) by lia.
  now split.
Qed.

Lemma round_pos (x : Q) :
  (0 < x)%Q ->
  (round x == inject_Z (round_half_even (x / 2 ^ ulp_exponent x))
              * 2 ^ ulp_exponent x)%Q.
Proof.
  intros Hx. unfold round.
  assert (H0 : Qeq_bool x 0 = false).
  { destruct (Qeq_bool x 0) eqn:H; [|reflexivity].
    apply Qeq_bool_iff in H. lra. }
  rewrite H0. cbn zeta. apply Qred_correct.
Qed.

(** The relative error of rounding is at most [2 ^ -53]. *)
Lemma round_error (x : Q) :
  (2 ^ (-1022) <= x)%Q ->
  (Qabs (round x - x) <= x * 2 ^ (-53))%Q.
Proof.
  intros Hx.
  assert (Hpos : (0 < x)%Q) by (pose proof (two_power_pos (-1022)); lra).
  destruct (ulp_exponent_normal x Hx) as [_ [Hlo _]].
  rewrite (round_pos x Hpos).
  set (e := ulp_exponent x) in *.
  pose proof (two_power_pos e) as He.
  pose proof (round_half_even_error (x / 2 ^ e)) as Herr.
  set (m := inject_Z (round_half_even (x / 2 ^ e))) in *.
  assert (Hsplit : (m * 2 ^ e - x == (m - x / 2 ^ e) * 2 ^ e)%Q)
    by (field; lra).
  rewrite Hsplit, Qabs_Qmult, (Qabs_pos (2 ^ e)) by lra.
  assert (H53 : (2 ^ (e + 52) == 2 ^ e * 2 ^ 52)%Q)
    by (rewrite Qpower_plus by discriminate; reflexivity).
  rewrite H53 in Hlo.
  assert (Hu : (2 ^ (-53) * 2 ^ 52 == 1 # 2)%Q) by reflexivity.
  apply Qle_trans with ((1 # 2) * 2 ^ e)%Q.
  - apply Qmult_le_compat_r; [exact Herr|lra].
  - rewrite <- Hu. nra.
Qed.

(** A number of at most 53 significant bits is not changed. *)
Lemma round_exact (x : Q) (m k : Z) :
  0 < m < 2 ^ 53 -> -1074 <= k ->
  (x == inject_Z m * 2 ^ k)%Q -> (round x == x)%Q.
Proof.
  intros [Hm1 Hm2] Hk Hx.
  pose proof (two_power_pos k) as Hpk.
  assert (Hm1q : (1 <= inject_Z m)%Q)
    by (change 1%Q with (inject_Z 1); rewrite <- Zle_Qle; lia).
  assert (Hm2q : (inject_Z m < 2 ^ 53)%Q).
  { rewrite two_power_Z by lia. now rewrite <- Zlt_Qlt. }
  assert (Hpos : (0 < x)%Q) by (rewrite Hx; nra).
  assert (Habs : (Qabs x == x)%Q) by (apply Qabs_pos; lra).
  pose proof (floor_log2_spec x Hpos) as [Hlo Hhi].
  assert (Hl : floor_log2 x < k + 53).
  { apply (Qpower_lt_compat_l_inv 2); [|reflexivity].
    rewrite (Qpower_plus 2 k 53) by discriminate.
    apply Qle_lt_trans with x; [exact Hlo|]. rewrite Hx. nra. }
  assert (He : ulp_exponent x <= k).
  { unfold ulp_exponent.
    rewrite (floor_log2_comp (Qabs x) x) by (rewrite ?Habs; first [assumption|reflexivity]).
    lia. }
  rewrite (round_pos x Hpos).
  set (e := ulp_exponent x) in *.
  pose proof (two_power_pos e) as Hpe.
  assert (Hy : (x / 2 ^ e == inject_Z (m * 2 ^ (k - e)))%Q).
  { rewrite inject_Z_mult, <- two_power_Z by lia.
    rewrite Qpower_minus by discriminate. rewrite Hx. field. lra. }
  rewrite (round_half_even_Z _ _ Hy).
  rewrite inject_Z_mult, <- two_power_Z by lia.
  rewrite Qpower_minus by discriminate. rewrite Hx. field. lra.
Qed.

End DoubleFacts.

(** ** The analyzer *)

Module AnalyzerFacts.
Import JS AudioAnalyzer AudioAnalyzerProbe Double DoubleFacts.

(** The arithmetic of the estimate on a file of [size] bytes at [b]
    kbit/s. *)
Local Abbreviation estimate size b :=
  (Qfloor (Double.mul
             (Double.div (Double.mul (Double.div (Double.of_Z size) 1024) 8)
                         (inject_Z b))
             1000)).

Lemma Qfloor_unique (x : Q) (n : Z) :
  (inject_Z n <= x < inject_Z (n + 1))%Q -> Qfloor x = n.
Proof.
  intros [Hlo Hhi].
  pose proof (Qfloor_le x) as H1. pose proof (Qlt_floor x) as H2.
  assert (Ha : (inject_Z n < inject_Z (Qfloor x + 1))%Q) by lra.
  assert (Hb : (inject_Z (Qfloor x) < inject_Z (n + 1))%Q) by lra.
  rewrite <- Zlt_Qlt in Ha, Hb. lia.
Qed.

Lemma round_zero (x : Q) : (x == 0)%Q -> round x = 0%Q.
Proof. intros H. now rewrite (round_comp x 0 H). Qed.

(** Sizes below [2 ^ 53] bytes divided by 128: no rounding yet. *)
Lemma kilobits_exact (size : Z) :
  0 < size < 2 ^ 53 ->
  (mul (div (of_Z size) 1024) 8 == inject_Z size / 128)%Q.
Proof.
  intros Hs. unfold mul, div, of_Z.
  assert (H0 : (round (inject_Z size) == inject_Z size)%Q).
  { apply (round_exact _ size 0); [exact Hs|lia|]. cbn. ring. }
  assert (H1 : (round (round (inject_Z size) / 1024) == inject_Z size / 1024)%Q).
  { rewrite <- H0 at 2. apply (round_exact _ size (-10)); [exact Hs|lia|].
    rewrite H0. reflexivity. }
  rewrite (round_exact _ size (-7)); [|exact Hs|lia|].
  - rewrite H1. field.
  - rewrite H1. change (2 ^ (-7))%Q with (1 # 128)%Q. field.
Qed.

Lemma normal_above (x : Q) : (1 # 1000000000 <= x)%Q -> (2 ^ (-1022) <= x)%Q.
Proof.
  intros H. apply Qle_trans with (2 ^ (-30))%Q; [|].
  - apply Qpower_le_compat_l; [lia|discriminate].
  - change (2 ^ (-30))%Q with (1 # 1073741824)%Q. lra.
Qed.

(** The two rounded operations move the exact quotient [v] by less than
    [w], when [v * 2 ^ -52 * (1 + 2 ^ -54) < w]. *)
Lemma two_roundings (q : Q) :
  (1 # 1000000 <= q)%Q ->
  (Qabs (mul (round q) 1000 - q * 1000)
   <= q * 1000 * (2 * 2 ^ (-53) + 2 ^ (-53) * 2 ^ (-53)))%Q.
Proof.
  intros Hq.
  assert (Hn1 : (1 # 1000000000 <= q)%Q) by lra.
  pose proof (round_error q (normal_above q Hn1)) as H1.
  apply Qabs_Qle_condition in H1.
  change (2 ^ (-53))%Q with (1 # 9007199254740992)%Q in *.
  assert (Hr : (1 # 2000000 <= round q)%Q) by lra.
  unfold mul.
  assert (Hn2 : (1 # 1000000000 <= round q * 1000)%Q) by lra.
  pose proof (round_error (round q * 1000) (normal_above _ Hn2)) as H2.
  apply Qabs_Qle_condition in H2.
  change (2 ^ (-53))%Q with (1 # 9007199254740992)%Q in *.
  apply Qabs_Qle_condition. lra.
Qed.

Lemma inject_Z_sub (a c : Z) : (inject_Z (a - c) == inject_Z a - inject_Z c)%Q.
Proof. unfold Z.sub. rewrite inject_Z_plus, inject_Z_opp. reflexivity. Qed.

(** A number closer than [1 / D] to the fraction [N / D] has the integer
    part of the fraction, or one less when the fraction is an integer. *)
Lemma Qfloor_near (x : Q) (N D : Z) :
  0 < D ->
  (Qabs (x - inject_Z N / inject_Z D) < 1 / inject_Z D)%Q ->
  Qfloor x = N / D \/ (Qfloor x = N / D - 1 /\ N mod D = 0).
Proof.
  intros HD Hnear.
  assert (HDq : (1 <= inject_Z D)%Q)
    by (change 1%Q with (inject_Z 1); rewrite <- Zle_Qle; lia).
  pose proof (Z.div_mod N D ltac:(lia)) as Hdm.
  pose proof (Z.mod_pos_bound N D HD) as Hr.
  set (n := N / D) in *. set (r := N mod D) in *.
  set (w := (1 / inject_Z D)%Q) in *.
  assert (Hw : (0 < w <= 1)%Q).
  { unfold w. split.
    - apply Qlt_shift_div_l; lra.
    - apply Qle_shift_div_r; lra. }
  assert (HwD : (w * inject_Z D == 1)%Q) by (unfold w; field; lra).
  assert (Hfrac : (inject_Z N / inject_Z D == inject_Z n + inject_Z r * w)%Q).
  { rewrite Hdm, inject_Z_plus, inject_Z_mult. unfold w. field. lra. }
  rewrite Hfrac in Hnear.
  assert (Habs : (- w < x - (inject_Z n + inject_Z r * w) < w)%Q).
  { split.
    - apply Qlt_le_trans with (- Qabs (x - (inject_Z n + inject_Z r * w)))%Q;
        [lra|].
      pose proof (Qle_Qabs (- (x - (inject_Z n + inject_Z r * w)))) as H.
      rewrite Qabs_opp in H. lra.
    - pose proof (Qle_Qabs (x - (inject_Z n + inject_Z r * w))). lra. }
  destruct (Z.eq_dec r 0) as [Hr0|Hr0].
  - rewrite Hr0 in Habs. change (inject_Z 0) with 0%Q in Habs.
    destruct (Qlt_le_dec x (inject_Z n)) as [Hlt|Hge].
    + right. split; [|exact Hr0]. apply Qfloor_unique.
      replace (n - 1 + 1) with n by lia.
      rewrite inject_Z_sub. change (inject_Z 1) with 1%Q. lra.
    + left. apply Qfloor_unique.
      rewrite inject_Z_plus. change (inject_Z 1) with 1%Q. lra.
  - left. apply Qfloor_unique.
    assert (Hr1 : (1 <= inject_Z r)%Q)
      by (change 1%Q with (inject_Z 1); rewrite <- Zle_Qle; lia).
    assert (Hr2 : (inject_Z r <= inject_Z D - 1)%Q).
    { change 1%Q with (inject_Z 1). rewrite <- inject_Z_sub, <- Zle_Qle. lia. }
    rewrite inject_Z_plus. change (inject_Z 1) with 1%Q.
    assert (Hp1 : (w <= inject_Z r * w)%Q) by nra.
    assert (Hp2 : (inject_Z r * w <= 1 - w)%Q) by nra.
    lra.
Qed.

Section Estimate.
Variables size b : Z.
Hypothesis size_pos : 0 < size.
Hypothesis size_small : 1000 * size < 2 ^ 52.
Hypothesis b_range : 0 < b <= 1411.

Let N := 1000 * size.
Let D := 128 * b.

Lemma estimate_near :
  exists x : Q,
    estimate size b = Qfloor x /\
    (Qabs (x - inject_Z N / inject_Z D) < 1 / inject_Z D)%Q /\
    (0 <= x)%Q.
Proof.
  set (q := (mul (div (of_Z size) 1024) 8 / inject_Z b)%Q).
  exists (mul (round q) 1000).
  split; [reflexivity|].
  assert (Hs : 0 < size < 2 ^ 53) by lia.
  pose proof (kilobits_exact size Hs) as Hk.
  assert (Hbq : (0 < inject_Z b)%Q)
    by (change 0%Q with (inject_Z 0); rewrite <- Zlt_Qlt; lia).
  assert (Hb2 : (inject_Z b <= 1411)%Q)
    by (change 1411%Q with (inject_Z 1411); rewrite <- Zle_Qle; lia).
  assert (Hsq : (1 <= inject_Z size)%Q)
    by (change 1%Q with (inject_Z 1); rewrite <- Zle_Qle; lia).
  assert (HD : (inject_Z D == 128 * inject_Z b)%Q)
    by (unfold D; rewrite inject_Z_mult; reflexivity).
  assert (HN : (inject_Z N == 1000 * inject_Z size)%Q)
    by (unfold N; rewrite inject_Z_mult; reflexivity).
  assert (Hq : (q == inject_Z size / inject_Z D)%Q).
  { unfold q. rewrite Hk, HD. field. lra. }
  assert (HDpos : (0 < inject_Z D)%Q) by lra.
  assert (Hv : (inject_Z N / inject_Z D == q * 1000)%Q).
  { rewrite Hq, HN. field. lra. }
  assert (Hqlow : (1 # 1000000 <= q)%Q).
  { rewrite Hq. apply Qle_shift_div_l; [exact HDpos|]. lra. }
  pose proof (two_roundings q Hqlow) as Herr.
  rewrite Hv.
  assert (HNs : (inject_Z N <= 4503599627370495)%Q).
  { change 4503599627370495%Q with (inject_Z 4503599627370495).
    rewrite <- Zle_Qle. unfold N. lia. }
  change (2 ^ (-53))%Q with (1 # 9007199254740992)%Q in Herr.
  (* the bound, scaled by the denominator *)
  assert (Hw : (q * 1000 * (2 * (1 # 9007199254740992)
                            + (1 # 9007199254740992) * (1 # 9007199254740992))
                < 1 / inject_Z D)%Q).
  { rewrite <- Hv.
    apply Qlt_shift_div_l; [exact HDpos|].
    setoid_replace (inject_Z N / inject_Z D *
                    (2 * (1 # 9007199254740992)
                     + (1 # 9007199254740992) * (1 # 9007199254740992))
                    * inject_Z D)%Q
      with (inject_Z N * (2 * (1 # 9007199254740992)
                     + (1 # 9007199254740992) * (1 # 9007199254740992)))%Q
      using relation Qeq by (field; lra).
    lra. }
  split; [lra|].
  apply Qabs_Qle_condition in Herr.
  assert (H1D : (1 / inject_Z D <= q * 1000)%Q).
  { rewrite <- Hv. apply Qle_shift_div_l; [exact HDpos|].
    setoid_replace (1 / inject_Z D * inject_Z D)%Q with 1%Q
      using relation Qeq by (field; lra).
    lra. }
  lra.
Qed.

(** The estimate is the integer part of the exact quotient, or one less
    when the quotient is an integer. *)
Lemma estimate_closed :
  estimate size b = size * 8000 / (1024 * b) \/
  (estimate size b = size * 8000 / (1024 * b) - 1 /\
   (size * 8000) mod (1024 * b) = 0).
Proof.
  destruct estimate_near as (x & -> & Hnear & _).
  assert (HD : 0 < D) by (unfold D; lia).
  replace (size * 8000) with (8 * N) by (unfold N; lia).
  replace (1024 * b) with (8 * D) by (unfold D; lia).
  rewrite Z.div_mul_cancel_l by lia.
  rewrite Z.mul_mod_distr_l by lia.
  destruct (Qfloor_near x N D HD Hnear) as [H|[H1 H2]].
  - now left.
  - right. split; [exact H1|]. lia.
Qed.

End Estimate.

(** At 128 kbit/s every step is exact. *)
Lemma estimate_exact_128 (size : Z) :
  0 <= size -> 1000 * size < 2 ^ 52 ->
  estimate size 128 = size * 8000 / (1024 * 128).
Proof.
  intros H0 Hsmall.
  destruct (Z.eq_dec size 0) as [->|Hne]; [reflexivity|].
  assert (Hs : 0 < size < 2 ^ 53) by lia.
  pose proof (kilobits_exact size Hs) as Hk.
  assert (H1 : (div (mul (div (of_Z size) 1024) 8) (inject_Z 128)
                == inject_Z size * 2 ^ (-14))%Q).
  { unfold div at 1. rewrite (round_exact _ size (-14)); [|exact Hs|lia|].
    - rewrite Hk. change (2 ^ (-14))%Q with (1 # 16384)%Q.
      change (inject_Z 128) with 128%Q. field.
    - rewrite Hk. change (2 ^ (-14))%Q with (1 # 16384)%Q.
      change (inject_Z 128) with 128%Q. field. }
  assert (H2 : (mul (div (mul (div (of_Z size) 1024) 8) (inject_Z 128)) 1000
                == inject_Z (1000 * size) / inject_Z 16384)%Q).
  { unfold mul at 1. rewrite (round_exact _ (1000 * size) (-14)); [|lia|lia|].
    - rewrite H1, inject_Z_mult. change (2 ^ (-14))%Q with (1 # 16384)%Q.
      change (inject_Z 16384) with 16384%Q. change (inject_Z 1000) with 1000%Q.
      field.
    - rewrite H1, inject_Z_mult. change (2 ^ (-14))%Q with (1 # 16384)%Q.
      change (inject_Z 1000) with 1000%Q. ring. }
  rewrite (Qfloor_comp _ _ H2), <- Zdiv_Qdiv.
  replace (size * 8000) with (8 * (1000 * size)) by lia.
  change (1024 * 128) with (8 * 16384).
  now rewrite Z.div_mul_cancel_l by lia.
Qed.


Lemma bitrateEstimates_range ext b :
  lookupExt bitrateEstimates ext = Some b -> 0 < b <= 1411.
Proof.
  unfold bitrateEstimates. cbn [lookupExt].
  repeat match goal with
         | |- context [String.eqb ?a ?b] => destruct (String.eqb a b)
         end;
    intros [= <-]; lia.
Qed.

Lemma bitrateEstimates_128 ext b :
  lookupExt bitrateEstimates ext = Some b ->
  ext <> ".wav"%string -> ext <> ".flac"%string -> b = 128.
Proof.
  unfold bitrateEstimates. cbn [lookupExt].
  repeat match goal with
         | |- context [String.eqb ?a ?b] =>
             destruct (String.eqb_spec a b); subst
         end;
    intros [= <-] Hwav Hflac; congruence.
Qed.

(** The rounding shows on a FLAC file of 102912 bytes: the quotient is
    1005 and the estimate 1004. *)
Lemma estimate_flac_rounds_down :
  estimateDurationFromFileSize Scenarios.flacExt Scenarios.flacFile
    Examples.steady 0 "/audio/take.flac" = (1004, 0%nat) /\
  102912 * 8000 / (1024 * 800) = 1005.
Proof. split; vm_compute; reflexivity. Qed.

Lemma generateConcatContent_None (audioItems : list AudioItem) :
  generateConcatContent audioItems = None <->
  Exists (fun item => path item = None) audioItems.
Proof.
  induction audioItems as [|item rest IH]; cbn [generateConcatContent].
  - split; [discriminate|]. intros H. inversion H.
  - destruct (path item) as [p|] eqn:Hp.
    + destruct (generateConcatContent rest) as [acc|].
      * split; [discriminate|]. intros H.
        apply Exists_cons in H as [H|H]; [congruence|].
        apply IH in H. discriminate.
      * split; [|reflexivity]. intros _. apply Exists_cons. right.
        now apply IH.
    + split; [|reflexivity]. intros _. apply Exists_cons. now left.
Qed.

Lemma generateConcatContent_truthy (audioItems : list AudioItem) :
  Forall (fun item => truthy (path item) <> None) audioItems ->
  generateConcatContent audioItems
  = Some (EnhancedStreamManager.concatContent audioItems).
Proof.
  induction audioItems as [|item rest IH]; intros Hall; [reflexivity|].
  apply Forall_cons in Hall as [Hitem Hrest].
  cbn [generateConcatContent EnhancedStreamManager.concatContent fold_right].
  rewrite (IH Hrest).
  fold (EnhancedStreamManager.concatContent rest).
  destruct (path item) as [[|c p]|]; cbn in Hitem; try congruence.
  reflexivity.
Qed.

Section Cache.
Variable extname : string -> string.
Variable w : World.

(** A call that finds the file and has its duration cached or probed
    leaves the duration in the cache under the file's modification
    time. *)
Lemma analyzeDuration_caches fs filePath st size mtime d :
  fileStat fs filePath = Some (size, mtime) ->
  probeDuration fs filePath = Some d ->
  let result := analyzeDuration extname w fs filePath st in
  durationCache (snd result) !! (filePath, mtime) = Some (fst result) /\
  (durationCache st !! (filePath, mtime) = None -> fst result = d).
Proof.
  intros Hstat Hprobe. cbn zeta.
  unfold analyzeDuration, getFileModTime. rewrite Hstat.
  destruct (durationCache st !! (filePath, mtime)) as [c|] eqn:Hc.
  - cbn. split; [exact Hc|discriminate].
  - rewrite Hprobe. cbn. split; [apply lookup_insert_eq|reflexivity].
Qed.

Lemma analyzeDuration_hit fs filePath st size mtime c :
  fileStat fs filePath = Some (size, mtime) ->
  durationCache st !! (filePath, mtime) = Some c ->
  analyzeDuration extname w fs filePath st = (c, st).
Proof.
  intros Hstat Hc. unfold analyzeDuration, getFileModTime.
  now rewrite Hstat, Hc.
Qed.

Lemma analyzeDuration_miss fs filePath st size mtime :
  fileStat fs filePath = Some (size, mtime) ->
  durationCache st !! (filePath, mtime) = None ->
  probeDuration fs filePath = None ->
  analyzeDuration extname w fs filePath st
  = (let '(estimate, calls) :=
       estimateDurationFromFileSize
         extname (fun p => option_map fst (fileStat fs p)) w
         (randomCalls st) filePath in
     (estimate, mkState (durationCache st) calls (dateCalls st))).
Proof.
  intros Hstat Hmiss Hfail. unfold analyzeDuration, getFileModTime.
  now rewrite Hstat, Hmiss, Hfail.
Qed.

End Cache.
End AnalyzerFacts.

Module AnalyzerExtras.
Import JS AudioAnalyzer AudioAnalyzerProbe AnalyzerFacts.

(** X21: [getRecommendedBitrate] returns 96, 128, 192 or 256; it is 128
    when the bit rate is missing or 0, and otherwise the lowest of these
    steps that is not below the original bit rate, capped at 256: the
    result is never less than an original of at most 256. *)
Theorem getRecommendedBitrate_steps (metadata : Metadata) :
  let r := getRecommendedBitrate metadata in
  In r [96; 128; 192; 256] /\
  (truthyNumber (meta_bitrate metadata) = None -> r = 128) /\
  (forall b, truthyNumber (meta_bitrate metadata) = Some b ->
     (b <= 256 -> b <= r) /\
     (256 < b -> r = 256) /\
     (forall step, In step [96; 128; 192; 256] -> b <= step -> r <= step)).
Proof.
  cbn zeta. unfold getRecommendedBitrate.
  destruct (truthyNumber (meta_bitrate metadata)) as [b|].
  - split.
    + repeat match goal with
             | |- context [if ?c then _ else _] => destruct c
             end; cbn; auto.
    + split; [discriminate|]. intros b' [= <-].
      destruct (b <=? 96) eqn:H1; [apply Z.leb_le in H1|apply Z.leb_gt in H1];
        [repeat split; try lia;
         intros step [<-|[<-|[<-|[<-|[]]]]] Hs; lia|].
      destruct (b <=? 128) eqn:H2; [apply Z.leb_le in H2|apply Z.leb_gt in H2];
        [repeat split; try lia;
         intros step [<-|[<-|[<-|[<-|[]]]]] Hs; lia|].
      destruct (b <=? 192) eqn:H3; [apply Z.leb_le in H3|apply Z.leb_gt in H3];
        repeat split; try lia;
        intros step [<-|[<-|[<-|[<-|[]]]]] Hs; lia.
  - split; [cbn; auto|]. split; [reflexivity|]. intros b H. discriminate.
Qed.

(** X22: a file that [needsReencoding] reports as not needing it is an
    mp3 with a bit rate between 96 and 320, so [hasCompatibleFormat]
    holds for it and its recommended bit rate is within 96 and 256. *)
Theorem no_reencoding_implies_compatible
  (extname : string -> string) (filePath : string) (metadata : Metadata) :
  needsReencoding extname filePath metadata = false ->
  hasCompatibleFormat extname filePath = true /\
  toLowerCase (extname filePath) = ".mp3"%string /\
  exists b, meta_bitrate metadata = Some b /\ 96 <= b <= 320 /\
            96 <= getRecommendedBitrate metadata <= 256.
Proof.
  unfold needsReencoding, hasCompatibleFormat, getRecommendedBitrate.
  destruct (meta_bitrate metadata) as [b|]; cbn [truthyNumber];
    [|discriminate].
  destruct b as [|b|b]; [discriminate| |].
  - destruct (String.eqb_spec (toLowerCase (extname filePath)) ".mp3") as [->|];
      [|discriminate].
    cbn [andb].
    destruct (96 <=? Z.pos b) eqn:H1; [|discriminate].
    destruct (Z.pos b <=? 320) eqn:H2; [|discriminate].
    intros _. apply Z.leb_le in H1, H2.
    split; [reflexivity|]. split; [reflexivity|].
    exists (Z.pos b). split; [reflexivity|]. split; [lia|].
    repeat match goal with
           | |- context [if ?c then _ else _] => destruct c
           end; lia.
  - destruct (String.eqb _ _); cbn; discriminate.
Qed.

Lemma no_reencoding_implies_compatible_witness :
  needsReencoding Examples.mp3Ext "/audio/track.mp3" Scenarios.goodMp3 = false /\
  hasCompatibleFormat Examples.mp3Ext "/audio/track.mp3" = true /\
  toLowerCase (Examples.mp3Ext "/audio/track.mp3") = ".mp3"%string /\
  exists b, meta_bitrate Scenarios.goodMp3 = Some b /\ 96 <= b <= 320 /\
            96 <= getRecommendedBitrate Scenarios.goodMp3 <= 256.
Proof.
  split; [reflexivity|].
  apply (no_reencoding_implies_compatible Examples.mp3Ext "/audio/track.mp3"
           Scenarios.goodMp3).
  reflexivity.
Defined.

(** X23: for a file whose size can be read and is below [2 ^ 52 / 1000]
    bytes (about 4.5 terabytes), the estimate draws no random number and
    is [floor (size * 8000 / (1024 * bitrate))] milliseconds, where the
    bit rate is the table entry of the lower-cased extension, or 128 for
    an extension that is not in the table; or it is one millisecond less,
    which the rounding of the division and of the last product can cause
    only when that quotient is an integer.  For every extension but
    [.wav] and [.flac] no operation rounds and the estimate is the
    integer part of the quotient. *)
Theorem estimate_is_size_over_bitrate
  (extname : string -> string) (stat : string -> option Z) (w : World)
  (n : nat) (filePath : string) (size : Z) :
  stat filePath = Some size ->
  0 <= size -> 1000 * size < 2 ^ 52 ->
  let ext := toLowerCase (extname filePath) in
  let bitrate := match lookupExt bitrateEstimates ext with
                 | Some b => b
                 | None => 128
                 end in
  let quotient := size * 8000 / (1024 * bitrate) in
  let result := estimateDurationFromFileSize extname stat w n filePath in
  snd result = n /\
  (fst result = quotient \/
   (fst result = quotient - 1 /\ (size * 8000) mod (1024 * bitrate) = 0)) /\
  (ext <> ".wav"%string -> ext <> ".flac"%string -> fst result = quotient).
Proof.
  intros Hstat H0 Hsmall. cbn zeta.
  unfold estimateDurationFromFileSize. rewrite Hstat. cbn [fst snd].
  split; [reflexivity|].
  destruct (lookupExt bitrateEstimates (toLowerCase (extname filePath)))
    as [b|] eqn:Hb.
  - split.
    + destruct (Z.eq_dec size 0) as [->|Hne]; [left; reflexivity|].
      apply estimate_closed; [lia|exact Hsmall|].
      exact (bitrateEstimates_range _ _ Hb).
    + intros Hwav Hflac.
      rewrite (bitrateEstimates_128 _ _ Hb Hwav Hflac).
      now apply estimate_exact_128.
  - split; [left|intros _ _]; now apply estimate_exact_128.
Qed.

Lemma estimate_is_size_over_bitrate_witness :
  (Scenarios.flacFile "/audio/take.flac" = Some 102912 /\
   0 <= 102912 /\ 1000 * 102912 < 2 ^ 52) /\
  let ext := toLowerCase (Scenarios.flacExt "/audio/take.flac") in
  let bitrate := match lookupExt bitrateEstimates ext with
                 | Some b => b
                 | None => 128
                 end in
  let quotient := 102912 * 8000 / (1024 * bitrate) in
  let result := estimateDurationFromFileSize Scenarios.flacExt
                  Scenarios.flacFile Examples.steady 0 "/audio/take.flac" in
  snd result = 0%nat /\
  (fst result = quotient \/
   (fst result = quotient - 1 /\ (102912 * 8000) mod (1024 * bitrate) = 0)) /\
  (ext <> ".wav"%string -> ext <> ".flac"%string -> fst result = quotient).
Proof.
  assert (H1 : Scenarios.flacFile "/audio/take.flac" = Some 102912)
    by reflexivity.
  assert (H2 : 0 <= 102912) by lia.
  assert (H3 : 1000 * 102912 < 2 ^ 52) by (vm_compute; reflexivity).
  split; [auto|].
  apply (estimate_is_size_over_bitrate Scenarios.flacExt Scenarios.flacFile
           Examples.steady 0 "/audio/take.flac" 102912 H1 H2 H3).
Defined.

(** X24: for a file whose size cannot be read, the estimate consumes
    one random draw and lies between 60000 ms and 299999 ms. *)
Theorem estimate_of_unreadable_file
  (extname : string -> string) (stat : string -> option Z) (w : World)
  (n : nat) (filePath : string) :
  stat filePath = None ->
  60000 <= fst (estimateDurationFromFileSize extname stat w n filePath)
        <= 299999 /\
  snd (estimateDurationFromFileSize extname stat w n filePath) = S n.
Proof.
  intros Hstat. unfold estimateDurationFromFileSize. rewrite Hstat.
  cbn [fst snd]. pose proof (JSFacts.floor_mul_lt (random w n) 240000).
  split; [lia|reflexivity].
Qed.

Lemma estimate_of_unreadable_file_witness :
  Examples.unreadable "/audio/gone.mp3" = None /\
  60000 <= fst (estimateDurationFromFileSize Examples.mp3Ext
                  Examples.unreadable Examples.steady 0 "/audio/gone.mp3")
        <= 299999 /\
  snd (estimateDurationFromFileSize Examples.mp3Ext Examples.unreadable
         Examples.steady 0 "/audio/gone.mp3") = 1%nat.
Proof.
  split; [reflexivity|].
  apply (estimate_of_unreadable_file Examples.mp3Ext Examples.unreadable
           Examples.steady 0 "/audio/gone.mp3").
  reflexivity.
Defined.

(** X25: once a file's duration has been probed, a second
    [analyzeDuration] of the same file with the same modification time
    returns the same duration from the cache and changes nothing, even
    if the probe would now fail or report another duration. *)
Theorem analyzeDuration_second_call_is_cached
  (extname : string -> string) (w : World) (fs1 fs2 : Files)
  (filePath : string) (st : State) (size1 size2 mtime d : Z) :
  fileStat fs1 filePath = Some (size1, mtime) ->
  fileStat fs2 filePath = Some (size2, mtime) ->
  probeDuration fs1 filePath = Some d ->
  let first := analyzeDuration extname w fs1 filePath st in
  analyzeDuration extname w fs2 filePath (snd first) = (fst first, snd first) /\
  (durationCache st !! (filePath, mtime) = None -> fst first = d).
Proof.
  intros H1 H2 Hprobe. cbn zeta.
  destruct (analyzeDuration_caches extname w fs1 filePath st size1 mtime d
              H1 Hprobe) as [Hcached Hd].
  split; [|exact Hd].
  now apply (analyzeDuration_hit extname w fs2 filePath _ size2 mtime).
Qed.

Lemma analyzeDuration_second_call_is_cached_witness :
  let first := analyzeDuration Examples.mp3Ext Examples.steady
                 Scenarios.probed "/audio/track.mp3" fresh in
  analyzeDuration Examples.mp3Ext Examples.steady Scenarios.probeBroken
    "/audio/track.mp3" (snd first) = (fst first, snd first) /\
  (durationCache fresh !! ("/audio/track.mp3"%string, 500) = None ->
   fst first = 201500).
Proof.
  apply (analyzeDuration_second_call_is_cached Examples.mp3Ext Examples.steady
           Scenarios.probed Scenarios.probeBroken "/audio/track.mp3" fresh
           3145728 3145728 500 201500); reflexivity.
Defined.

(** X26: a failed probe is not cached: the call returns the size-based
    estimate and leaves the cache as it was, so a later call on the same
    file and modification time probes again and returns (and caches) the
    probed duration. *)
Theorem analyzeDuration_failure_is_not_cached
  (extname : string -> string) (w : World) (fs1 fs2 : Files)
  (filePath : string) (st : State) (size1 size2 mtime d : Z) :
  fileStat fs1 filePath = Some (size1, mtime) ->
  fileStat fs2 filePath = Some (size2, mtime) ->
  durationCache st !! (filePath, mtime) = None ->
  probeDuration fs1 filePath = None ->
  probeDuration fs2 filePath = Some d ->
  let first := analyzeDuration extname w fs1 filePath st in
  fst first
    = fst (estimateDurationFromFileSize
             extname (fun p => option_map fst (fileStat fs1 p)) w
             (randomCalls st) filePath) /\
  durationCache (snd first) = durationCache st /\
  fst (analyzeDuration extname w fs2 filePath (snd first)) = d.
Proof.
  intros H1 H2 Hmiss Hfail Hok. cbn zeta.
  rewrite (analyzeDuration_miss extname w fs1 filePath st size1 mtime
             H1 Hmiss Hfail).
  destruct (estimateDurationFromFileSize extname
              (fun p => option_map fst (fileStat fs1 p)) w
              (randomCalls st) filePath) as [estimate calls].
  cbn [fst snd durationCache]. split; [reflexivity|]. split; [reflexivity|].
  unfold analyzeDuration, getFileModTime. rewrite H2.
  cbn [durationCache]. now rewrite Hmiss, Hok.
Qed.

Lemma analyzeDuration_failure_is_not_cached_witness :
  let first := analyzeDuration Examples.mp3Ext Examples.steady
                 Scenarios.probeBroken "/audio/track.mp3" fresh in
  fst first
    = fst (estimateDurationFromFileSize Examples.mp3Ext
             (fun p => option_map fst (fileStat Scenarios.probeBroken p))
             Examples.steady (randomCalls fresh) "/audio/track.mp3") /\
  durationCache (snd first) = durationCache fresh /\
  fst (analyzeDuration Examples.mp3Ext Examples.steady Scenarios.probed
         "/audio/track.mp3" (snd first)) = 201500.
Proof.
  apply (analyzeDuration_failure_is_not_cached Examples.mp3Ext Examples.steady
           Scenarios.probeBroken Scenarios.probed "/audio/track.mp3" fresh
           3145728 3145728 500 201500); reflexivity.
Defined.

(** X27: the analyzer's [generateConcatFile] raises in two cases: while
    it builds the text, when some item has a null path (the engine's
    [createConcatFile] skips such items instead), and after that when
    [fs.writeFile] rejects.  Nothing is written then.  Otherwise it
    writes one file and resolves with the output path, and when every
    item has a non-empty path the text is the one [createConcatFile]
    writes for the same items. *)
Theorem generateConcatFile_outcomes
  (env : Env) (audioItems : list AudioItem) (outputPath : string) :
  let outcome := generateConcatFile env audioItems outputPath in
  (outcome = inl NullPath <->
   Exists (fun item => path item = None) audioItems) /\
  (outcome = inl WriteRejected <->
   Forall (fun item => path item <> None) audioItems /\
   writeFileRejects env = true) /\
  (forall resolved written,
     outcome = inr (resolved, written) ->
     resolved = outputPath /\
     exists content,
       written = [FileWritten outputPath content] /\
       (Forall (fun item => truthy (path item) <> None) audioItems ->
        content = EnhancedStreamManager.concatContent audioItems)).
Proof.
  cbn zeta. unfold generateConcatFile.
  pose proof (generateConcatContent_None audioItems) as Hnone.
  pose proof (generateConcatContent_truthy audioItems) as Htruthy.
  destruct (generateConcatContent audioItems) as [content|].
  - assert (Hall : Forall (fun item => path item <> None) audioItems).
    { apply Forall_forall. intros item Hin Hnull.
      assert (Hex : Exists (fun item => path item = None) audioItems)
        by (apply Exists_exists; now exists item).
      apply Hnone in Hex. discriminate. }
    destruct (writeFileRejects env).
    + split; [split; [discriminate|intros H; apply Hnone in H; discriminate]|].
      split; [split; [auto|reflexivity]|]. discriminate.
    + split; [split; [discriminate|intros H; apply Hnone in H; discriminate]|].
      split; [split; [discriminate|intros [_ H]; discriminate]|].
      intros resolved written [= <- <-]. split; [reflexivity|].
      exists content. split; [reflexivity|].
      intros Hpaths. specialize (Htruthy Hpaths). congruence.
  - assert (Hex : Exists (fun item => path item = None) audioItems)
      by now apply Hnone.
    split; [split; [intros _; exact Hex|reflexivity]|].
    split; [|discriminate]. split; [discriminate|].
    intros [Hall _]. apply Exists_exists in Hex as (item & Hin & Hnull).
    rewrite Forall_forall in Hall. exfalso. now apply (Hall item).
Qed.

End AnalyzerExtras.

(** ** Facts about the weather service *)

Module WeatherFacts.
Import JS WeatherService.

Section Facts.
Variable w : World.
Variable api : nat -> string -> string -> string -> option Snapshot.

(** The five demo conditions, by the draw that selects them. *)
Lemma demo_condition (r : Draw) :
  In (nth (N.to_nat (floor_mul r (N.of_nat (length conditions)))) conditions
          "Clear"%string) conditions.
Proof.
  pose proof (JSFacts.floor_mul_lt r 5 eq_refl) as H.
  change (N.of_nat (length conditions)) with 5%N.
  assert (Hn : (N.to_nat (floor_mul r 5) < 5)%nat) by lia.
  destruct (N.to_nat (floor_mul r 5)) as [|[|[|[|[|n]]]]]; cbn; auto 10.
  lia.
Qed.

(** What a call returns is what the service holds in its cache
    afterwards, unless it is the fallback snapshot. *)
Lemma getCurrentWeather_cached (st : State) :
  cache (snd (getCurrentWeather w api st)) = Some (fst (getCurrentWeather w api st))
  \/ snap_fallback (fst (getCurrentWeather w api st)) = true.
Proof.
  assert (Hfetch : forall st0,
    cache (snd (match fetchWeatherData w api st0 with
                | (Some weather, st1) =>
                    let '(now, st2) := tick_date w st1 in
                    (weather,
                     mkState (city st2) (country st2) (apiKey st2)
                             (Some weather) now
                             (randomCalls st2) (dateCalls st2) (requests st2))
                | (None, st1) => getFallbackWeather w st1
                end))
    = Some (fst (match fetchWeatherData w api st0 with
                 | (Some weather, st1) =>
                     let '(now, st2) := tick_date w st1 in
                     (weather,
                      mkState (city st2) (country st2) (apiKey st2)
                              (Some weather) now
                              (randomCalls st2) (dateCalls st2) (requests st2))
                 | (None, st1) => getFallbackWeather w st1
                 end))
    \/ snap_fallback (fst (match fetchWeatherData w api st0 with
                           | (Some weather, st1) =>
                               let '(now, st2) := tick_date w st1 in
                               (weather,
                                mkState (city st2) (country st2) (apiKey st2)
                                        (Some weather) now
                                        (randomCalls st2) (dateCalls st2)
                                        (requests st2))
                           | (None, st1) => getFallbackWeather w st1
                           end)) = true).
  { intros st0. unfold fetchWeatherData.
    destruct (String.eqb (apiKey st0) "demo_key").
    - left. reflexivity.
    - destruct (api (requests st0) (city st0) (country st0) (apiKey st0)).
      + left. reflexivity.
      + right. reflexivity. }
  unfold getCurrentWeather.
  destruct (cache st) as [cached|] eqn:Hcache; [|apply Hfetch].
  cbn [tick_date].
  destruct (dateNow w (dateCalls st) - cacheTime st <? cacheExpiry);
    [left; exact Hcache|apply Hfetch].
Qed.

Lemma getCurrentWeather_hit (st : State) (cached : Snapshot) :
  cache st = Some cached ->
  dateNow w (dateCalls st) - cacheTime st < cacheExpiry ->
  getCurrentWeather w api st = (cached, snd (tick_date w st)).
Proof.
  intros Hcache Hfresh. unfold getCurrentWeather. rewrite Hcache.
  cbn [tick_date snd].
  apply Z.ltb_lt in Hfresh. now rewrite Hfresh.
Qed.

End Facts.
End WeatherFacts.

Module WeatherExtras.
Import JS WeatherService WeatherFacts.

(** X28: a snapshot that [getCurrentWeather] returned, other than the
    fallback, is served again while the clock is less than ten minutes
    past the cache time: the next call returns the same snapshot and
    makes no request and no random draw. *)
Theorem fetched_weather_is_served_for_ten_minutes
  (w : World) (api : nat -> string -> string -> string -> option Snapshot)
  (st : State) :
  let first := getCurrentWeather w api st in
  let second := getCurrentWeather w api (snd first) in
  snap_fallback (fst first) = false ->
  dateNow w (dateCalls (snd first)) - cacheTime (snd first) < cacheExpiry ->
  fst second = fst first /\
  requests (snd second) = requests (snd first) /\
  randomCalls (snd second) = randomCalls (snd first) /\
  cache (snd second) = cache (snd first) /\
  cacheTime (snd second) = cacheTime (snd first).
Proof.
  cbn zeta. intros Hreal Hfresh.
  destruct (getCurrentWeather_cached w api st) as [Hcached|Hfallback];
    [|congruence].
  rewrite (getCurrentWeather_hit w api _ _ Hcached Hfresh).
  repeat split.
Qed.

Lemma fetched_weather_is_served_for_ten_minutes_witness :
  let first := getCurrentWeather Examples.steady Scenarios.offline
                 (constructed "demo_key") in
  let second := getCurrentWeather Examples.steady Scenarios.offline
                  (snd first) in
  fst second = fst first /\
  requests (snd second) = requests (snd first) /\
  randomCalls (snd second) = randomCalls (snd first) /\
  cache (snd second) = cache (snd first) /\
  cacheTime (snd second) = cacheTime (snd first).
Proof.
  apply (fetched_weather_is_served_for_ten_minutes Examples.steady
           Scenarios.offline (constructed "demo_key")).
  - reflexivity.
  - vm_compute. reflexivity.
Defined.

(** X29: with a real API key and no fresh cache, a failed request makes
    [getCurrentWeather] return the fallback snapshot for the configured
    city: "Clear", 20 degrees, flagged as fallback, which the generator
    announces as SUN.  The fallback is not cached: the cache and its time
    stay as they were, a stale snapshot is kept but not served, and one
    request was made. *)
Theorem failed_request_gives_uncached_fallback
  (w : World) (api : nat -> string -> string -> string -> option Snapshot)
  (st : State) :
  apiKey st <> "demo_key"%string ->
  match cache st with
  | Some _ => cacheExpiry <= dateNow w (dateCalls st) - cacheTime st
  | None => True
  end ->
  api (requests st) (city st) (country st) (apiKey st) = None ->
  let result := getCurrentWeather w api st in
  (exists now,
     fst result = mkSnapshot (city st) (country st) "Clear" "pleasant weather"
                             20 60 10 now false true) /\
  PlaylistGenerator.mapWeatherToType (snap_condition (fst result)) = SUN /\
  cache (snd result) = cache st /\
  cacheTime (snd result) = cacheTime st /\
  requests (snd result) = S (requests st).
Proof.
  intros Hkey Hstale Hfail. cbn zeta.
  apply String.eqb_neq in Hkey.
  unfold getCurrentWeather, fetchWeatherData.
  destruct (cache st) as [cached|] eqn:Hcache.
  - cbn [tick_date apiKey requests city country].
    apply Z.ltb_ge in Hstale. rewrite Hstale, Hkey, Hfail.
    cbn. rewrite Hcache. repeat split. eexists. reflexivity.
  - rewrite Hkey, Hfail. cbn. rewrite Hcache. repeat split.
    eexists. reflexivity.
Qed.

Lemma failed_request_gives_uncached_fallback_witness :
  let st := constructed "0123456789abcdef" in
  let result := getCurrentWeather Examples.steady Scenarios.offline st in
  (exists now,
     fst result = mkSnapshot (city st) (country st) "Clear" "pleasant weather"
                             20 60 10 now false true) /\
  PlaylistGenerator.mapWeatherToType (snap_condition (fst result)) = SUN /\
  cache (snd result) = cache st /\
  cacheTime (snd result) = cacheTime st /\
  requests (snd result) = S (requests st).
Proof.
  apply (failed_request_gives_uncached_fallback Examples.steady
           Scenarios.offline (constructed "0123456789abcdef")).
  - discriminate.
  - exact I.
  - reflexivity.
Defined.

(** X30: in demo mode, the call after [setLocation(city, country)]
    never serves the snapshot cached for the old location: it returns a
    new demo snapshot for the new city and country, caches it, and makes
    no request.  Its condition is one of the five demo conditions, for
    which [getWeatherConditionCode] and the generator's
    [mapWeatherToType] give the same code, and its numbers lie in
    5..29 degrees, 40..79 percent and 5..24 km/h. *)
Theorem setLocation_then_demo_weather
  (w : World) (api : nat -> string -> string -> string -> option Snapshot)
  (newCity newCountry : string) (st : State) :
  apiKey st = "demo_key"%string ->
  let result := getCurrentWeather w api (setLocation newCity newCountry st) in
  let weather := fst result in
  snap_city weather = newCity /\
  snap_country weather = newCountry /\
  snap_demo weather = true /\
  snap_fallback weather = false /\
  cache (snd result) = Some weather /\
  requests (snd result) = requests st /\
  In (snap_condition weather) conditions /\
  lookup_string descriptions (snap_condition weather)
    = Some (snap_description weather) /\
  getWeatherConditionCode (snap_condition weather)
    = Some (PlaylistGenerator.mapWeatherToType (snap_condition weather)) /\
  5 <= snap_temperature weather <= 29 /\
  40 <= snap_humidity weather <= 79 /\
  5 <= snap_windSpeed weather <= 24.
Proof.
  intros Hkey. cbn zeta.
  unfold getCurrentWeather, fetchWeatherData, setLocation.
  cbn [cache apiKey]. rewrite Hkey. cbn [String.eqb Ascii.eqb Bool.eqb].
  unfold getDemoWeather. cbn [tick_random tick_date fst snd randomCalls
    dateCalls city country apiKey cache cacheTime requests
    snap_city snap_country snap_demo snap_fallback snap_condition
    snap_description snap_temperature snap_humidity snap_windSpeed].
  pose proof (demo_condition (random w (randomCalls st))) as Hcond.
  pose proof (JSFacts.floor_mul_lt (random w (S (randomCalls st))) 25 eq_refl).
  pose proof (JSFacts.floor_mul_lt (random w (S (S (randomCalls st)))) 40
                eq_refl).
  pose proof (JSFacts.floor_mul_lt (random w (S (S (S (randomCalls st))))) 20
                eq_refl).
  repeat (split; [try reflexivity; try exact Hcond; try lia|]); try lia.
  - destruct Hcond as [<-|[<-|[<-|[<-|[<-|[]]]]]]; reflexivity.
  - destruct Hcond as [<-|[<-|[<-|[<-|[<-|[]]]]]]; reflexivity.
Qed.

Lemma setLocation_then_demo_weather_witness :
  let result := getCurrentWeather Examples.steady Scenarios.offline
                  (setLocation "Lyon" "FR" Scenarios.parisCached) in
  let weather := fst result in
  snap_city weather = "Lyon"%string /\
  snap_country weather = "FR"%string /\
  snap_demo weather = true /\
  snap_fallback weather = false /\
  cache (snd result) = Some weather /\
  requests (snd result) = requests Scenarios.parisCached /\
  In (snap_condition weather) conditions /\
  lookup_string descriptions (snap_condition weather)
    = Some (snap_description weather) /\
  getWeatherConditionCode (snap_condition weather)
    = Some (PlaylistGenerator.mapWeatherToType (snap_condition weather)) /\
  5 <= snap_temperature weather <= 29 /\
  40 <= snap_humidity weather <= 79 /\
  5 <= snap_windSpeed weather <= 24.
Proof.
  apply (setLocation_then_demo_weather Examples.steady Scenarios.offline
           "Lyon" "FR" Scenarios.parisCached).
  reflexivity.
Defined.

End WeatherExtras.
